(** * perps-keepers: the keeper loop, its index and the paginated reads

    A shallow embedding of [src/keeper.js] (class [Keeper]) and of the
    pagination helpers of the perps utilities module
    ([getAddressLengthByMarket], [getPositionsByAddresses],
    [getOrdersByAddresses]), followed by the properties proved about them.

    Conventions.
    - A JavaScript object used as a dictionary whose enumeration order is
      observable ([this.positions], the [Record<string, ...>] results) is an
      ordered association list with the language's own-property semantics
      (module [JsObject]); [this.activeKeeperTasks], which is only ever read
      and written by key, is a [gmap].
    - [async] methods are state transformers over the [Keeper] instance that
      end in one of three completions: a normal return, a thrown error, or
      the termination of the process ([process.exit]).
    - The chain, the signer pool and the ABI coder are outside the
      repository; they appear as an interface ([Chain]) or as explicit
      oracles. *)

From Stdlib Require Import ZArith NArith List Bool Lia.
From stdpp Require Import gmap strings list fin_maps.
Import ListNotations.

Open Scope string_scope.
Open Scope Z_scope.
Open Scope list_scope.

(* ===================================================================== *)
(** ** JavaScript objects with string keys, in enumeration order         *)
(* ===================================================================== *)

Module JsObject.
Section Obj.
Context {V : Type}.

(** Own properties in insertion order.  Keys are account addresses or
    market keys: never canonical array indices, so the order is the
    insertion order. *)
Definition t := list (string * V).

(** [o[k]] *)
Fixpoint get (k : string) (o : t) : option V :=
  match o with
  | [] => None
  | (k', v) :: o' => if String.eqb k' k then Some v else get k o'
  end.

(** [o[k] = v]: an existing property keeps its place, a new one goes
    last. *)
Fixpoint set (k : string) (v : V) (o : t) : t :=
  match o with
  | [] => [(k, v)]
  | (k', v') :: o' =>
      if String.eqb k' k then (k', v) :: o' else (k', v') :: set k v o'
  end.

(** [delete o[k]] *)
Fixpoint remove (k : string) (o : t) : t :=
  match o with
  | [] => []
  | (k', v') :: o' =>
      if String.eqb k' k then remove k o' else (k', v') :: remove k o'
  end.

(** [Object.keys(o)] and [Object.values(o)] *)
Definition keys (o : t) : list string := map fst o.
Definition values (o : t) : list V := map snd o.
End Obj.
Arguments t : clear implicits.
End JsObject.

(* ===================================================================== *)
(** ** Values shared by the keeper                                        *)
(* ===================================================================== *)

(** [err.code] of a thrown error: ethers uses string codes, JSON-RPC errors
    carry numbers. *)
Inductive ErrCode :=
| CodeStr (s : string)
| CodeNum (n : Z).

(** A thrown [Error], as ethers and the runtime throw them: its [code]
    property (when it has one) and the text of [err.toString()]. *)
Record JsError := { err_code : option ErrCode; err_text : string }.

(** The settlement of a promise returned by an external collaborator. *)
Inductive Settled (A : Type) :=
| Fulfilled (a : A)
| Rejected (e : JsError).
Arguments Fulfilled {A} a.
Arguments Rejected {A} e.

(** How the evaluation of a method ends. *)
Inductive Completion (A : Type) :=
| Normal (a : A)
| Thrown (e : JsError)
| Exited (status : Z).
Arguments Normal {A} a.
Arguments Thrown {A} e.
Arguments Exited {A} status.

(** [s.match(/pat/)] for a literal pattern: [pat] occurs in [s]. *)
Fixpoint occurs_in (pat s : string) : bool :=
  match s with
  | EmptyString => String.prefix pat EmptyString
  | String _ s' => String.prefix pat s || occurs_in pat s'
  end.

(* ===================================================================== *)
(** ** keeper.js: the [Keeper] class                                      *)
(* ===================================================================== *)

Module KeeperJs.

(** A decoded contract event as [queryFilter] returns it: [{ event, args }].
    [event] is [undefined] for logs the interface cannot name.  Of [args]
    only the properties the handlers read are kept. *)
Record EventArgs := {
  arg_id : N;
  arg_account : string;
  arg_size : Z;
  arg_liquidator : string
}.

Record LogEvent := { event : option string; args : EventArgs }.

(** An index entry, the object literal [{ id, event, account, size }]. *)
Record IndexEntry := {
  entry_id : N;
  entry_event : string;
  entry_account : string;
  entry_size : Z
}.

(** Reading a property of an index entry by name ([entry[name]]); a name
    the literal does not define reads [undefined]. *)
Inductive JsVal :=
| VBigNumber (z : Z)
| VString (s : string).

Definition entry_prop (e : IndexEntry) (name : string) : option JsVal :=
  if String.eqb name "id" then Some (VBigNumber (Z.of_N (entry_id e)))
  else if String.eqb name "event" then Some (VString (entry_event e))
  else if String.eqb name "account" then Some (VString (entry_account e))
  else if String.eqb name "size" then Some (VBigNumber (entry_size e))
  else None.

Record Tx := { nonce : N }.

Record Receipt := {
  blockNumber : Z;
  status : bool;
  transactionHash : string;
  gasUsed : N
}.

(** The [component] label of a log call. *)
Inductive Component :=
| Indexer
| KeeperComponent
| KeeperTaskComponent (taskLabel : string) (id : N).

(** The message templates of the class, with their interpolated values. *)
Inductive Message :=
| MarketDeployedAt (address : string)
| RebuildingIndexFrom (fromBlock : Z)
| EventsToProcess (n : nat)
| IndexBuildComplete
| StartingKeeperLoop
| ListeningForEvents
| NewBlock (blockNumber : Z)
| ProcessingBlock (blockNumber : Z)
| ExchangeRatesEvent (event : string)
| PositionModifiedMsg (id : N) (account : string)
| PositionLiquidatedMsg (account liquidator : string)
| NoHandlerForEvent (event : string)
| PositionsToKeep (n : nat)
| Running
| ErrorMsg (err : JsError)
| Done
| CannotLiquidateOrder
| BeginLiquidatePosition
| SubmitLiquidatePosition (nonce : N)
| ErrorText (err : JsError)
| DoneLiquidatePosition (receipt : Receipt).

(** One call of [this.logger.log(level, message, { component })]. *)
Record LogCall := {
  level : string;
  message : Message;
  component : option Component
}.

(** One call on the metrics module. *)
Inductive Metric :=
| FuturesOpenPositionsSet (market : option string) (n : nat)
| KeeperErrorsObserve (market : option string)
| FuturesLiquidationsObserve (market : option string) (success : bool).

(** The collaborators of a keeper: the two contracts it reads, and the
    signer pool through which it submits.  Each call may change the world
    it runs against ([W]) and settles as fulfilled or rejected. *)
Class Chain (W : Type) := {
  futuresMarket_address : string;
  futuresMarket_baseAsset : W -> Settled string * W;
  (** [queryFilter("*", from, to)]; [to = None] is ["latest"]. *)
  futuresMarket_queryFilter : Z -> option Z -> W -> Settled (list LogEvent) * W;
  exchangeRates_queryFilter : Z -> option Z -> W -> Settled (list LogEvent) * W;
  futuresMarket_canLiquidate : string -> W -> Settled bool * W;
  (** Modelled from the spec: [signerPool.withSigner] (the pool is not part
      of the sources at hand) is a scoped acquisition: it hands a signer to
      the callback and releases it on every exit path; acquiring may
      fail. *)
  Signer : Type;
  signerPool_acquire : W -> Settled Signer * W;
  signerPool_release : Signer -> W -> W;
  (** [futuresMarket.connect(signer).liquidatePosition(account)] *)
  futuresMarket_liquidatePosition : Signer -> string -> W -> Settled Tx * W;
  (** [tx.wait(1)] *)
  tx_wait : Tx -> W -> Settled Receipt * W
}.

Section WithChain.
Context {W : Type} `{Chain W}.

(** The fields of an instance, as the constructor declares them, with the
    calls made so far on the logger and on the metrics module (most
    recent first) and the world the instance runs against. *)
Record Keeper := {
  positions : JsObject.t IndexEntry;
  activeKeeperTasks : gmap N bool;
  blockQueue : list Z;
  blockTip : option Z;
  baseAsset : option string;
  logger : list LogCall;
  metrics : list Metric;
  world : W
}.

(** [new Keeper(...)] *)
Definition constructor (w : W) : Keeper :=
  {| positions := [];
     activeKeeperTasks := ∅;
     blockQueue := [];
     blockTip := None;
     baseAsset := None;
     logger := [];
     metrics := [];
     world := w |}.

Definition with_positions (f : JsObject.t IndexEntry -> JsObject.t IndexEntry)
    (k : Keeper) : Keeper :=
  {| positions := f (positions k);
     activeKeeperTasks := activeKeeperTasks k;
     blockQueue := blockQueue k;
     blockTip := blockTip k;
     baseAsset := baseAsset k;
     logger := logger k;
     metrics := metrics k;
     world := world k |}.

Definition with_activeKeeperTasks (f : gmap N bool -> gmap N bool)
    (k : Keeper) : Keeper :=
  {| positions := positions k;
     activeKeeperTasks := f (activeKeeperTasks k);
     blockQueue := blockQueue k;
     blockTip := blockTip k;
     baseAsset := baseAsset k;
     logger := logger k;
     metrics := metrics k;
     world := world k |}.

Definition with_blockQueue (f : list Z -> list Z) (k : Keeper) : Keeper :=
  {| positions := positions k;
     activeKeeperTasks := activeKeeperTasks k;
     blockQueue := f (blockQueue k);
     blockTip := blockTip k;
     baseAsset := baseAsset k;
     logger := logger k;
     metrics := metrics k;
     world := world k |}.

Definition with_blockTip (t : option Z) (k : Keeper) : Keeper :=
  {| positions := positions k;
     activeKeeperTasks := activeKeeperTasks k;
     blockQueue := blockQueue k;
     blockTip := t;
     baseAsset := baseAsset k;
     logger := logger k;
     metrics := metrics k;
     world := world k |}.

Definition with_baseAsset (a : option string) (k : Keeper) : Keeper :=
  {| positions := positions k;
     activeKeeperTasks := activeKeeperTasks k;
     blockQueue := blockQueue k;
     blockTip := blockTip k;
     baseAsset := a;
     logger := logger k;
     metrics := metrics k;
     world := world k |}.

Definition with_logger (f : list LogCall -> list LogCall) (k : Keeper) : Keeper :=
  {| positions := positions k;
     activeKeeperTasks := activeKeeperTasks k;
     blockQueue := blockQueue k;
     blockTip := blockTip k;
     baseAsset := baseAsset k;
     logger := f (logger k);
     metrics := metrics k;
     world := world k |}.

Definition with_metrics (f : list Metric -> list Metric) (k : Keeper) : Keeper :=
  {| positions := positions k;
     activeKeeperTasks := activeKeeperTasks k;
     blockQueue := blockQueue k;
     blockTip := blockTip k;
     baseAsset := baseAsset k;
     logger := logger k;
     metrics := f (metrics k);
     world := world k |}.

Definition with_world (w : W) (k : Keeper) : Keeper :=
  {| positions := positions k;
     activeKeeperTasks := activeKeeperTasks k;
     blockQueue := blockQueue k;
     blockTip := blockTip k;
     baseAsset := baseAsset k;
     logger := logger k;
     metrics := metrics k;
     world := w |}.

(** *** Methods as state transformers *)

Definition M (A : Type) : Type := Keeper -> Completion A * Keeper.

Definition ret {A} (a : A) : M A := fun k => (Normal a, k).

Definition bind {A B} (m : M A) (f : A -> M B) : M B :=
  fun k =>
    match m k with
    | (Normal a, k') => f a k'
    | (Thrown e, k') => (Thrown e, k')
    | (Exited c, k') => (Exited c, k')
    end.

Definition gets {A} (f : Keeper -> A) : M A := fun k => (Normal (f k), k).
Definition modify (f : Keeper -> Keeper) : M unit := fun k => (Normal tt, f k).

(** [throw err] *)
Definition throw {A} (e : JsError) : M A := fun k => (Thrown e, k).

(** [process.exit(status)]: nothing after it runs, no handler sees it. *)
Definition process_exit {A} (status : Z) : M A := fun k => (Exited status, k).

(** [try { body } catch (err) { handler }] *)
Definition try_catch {A} (body : M A) (handler : JsError -> M A) : M A :=
  fun k =>
    match body k with
    | (Thrown e, k') => handler e k'
    | r => r
    end.

(** What a [catch (err)] may be handed: an [Error] object (or any value
    whose [toString()] can be called), or a value of which no property can
    be read ([undefined], [null]).  The collaborators and the methods of the
    class throw [Error] objects only; a callback is any function and may
    reject with either. *)
Inductive Caught :=
| CaughtError (e : JsError)
| CaughtNullish.

(** How the promise of a callback ends when it is awaited. *)
Inductive Outcome :=
| Returns
| Rejects (err : Caught)
| Exits (status : Z).

(** A callback [cb], called as [cb()]. *)
Definition Callback : Type := Keeper -> Outcome * Keeper.

(** [() => m]: the arrow function around the call of a method. *)
Definition arrow (m : M unit) : Callback :=
  fun k =>
    match m k with
    | (Normal _, k') => (Returns, k')
    | (Thrown e, k') => (Rejects (CaughtError e), k')
    | (Exited status, k') => (Exits status, k')
    end.

(** [try { await cb() } catch (err) { handler }] *)
Definition try_await (cb : Callback) (handler : Caught -> M unit) : M unit :=
  fun k =>
    match cb k with
    | (Returns, k') => (Normal tt, k')
    | (Rejects err, k') => handler err k'
    | (Exits status, k') => (Exited status, k')
    end.

(** The [TypeError] of reading a property of [undefined] or [null]. *)
Definition NullishRead : JsError :=
  {| err_code := None;
     err_text := "TypeError: Cannot read properties of undefined" |}.

(** [err.toString()]: the error with its text, or a [TypeError] thrown
    when [err] is [undefined] or [null]. *)
Definition toString (err : Caught) : M JsError :=
  match err with
  | CaughtError e => ret e
  | CaughtNullish => throw NullishRead
  end.

(** [await] of a call on a collaborator: a rejection is thrown at the
    [await]. *)
Definition await {A} (call : W -> Settled A * W) : M A :=
  fun k =>
    match call (world k) with
    | (Fulfilled a, w') => (Normal a, with_world w' k)
    | (Rejected e, w') => (Thrown e, with_world w' k)
    end.

(** [for (const x of xs) await body(x)] and [xs.forEach(body)] *)
Fixpoint forEach {A} (body : A -> M unit) (xs : list A) : M unit :=
  match xs with
  | [] => ret tt
  | x :: xs' => bind (body x) (fun _ => forEach body xs')
  end.

Definition log (lvl : string) (msg : Message) (c : option Component) : M unit :=
  modify (with_logger (cons {| level := lvl; message := msg; component := c |})).

Definition observe (m : Metric) : M unit := modify (with_metrics (cons m)).
End WithChain.

Arguments Keeper W : clear implicits.
Arguments M W A : clear implicits.
Arguments Callback W : clear implicits.

Declare Scope keeper_scope.
Delimit Scope keeper_scope with keeper.
Notation "'let*' x ':=' m 'in' f" := (bind m (fun x => f))
  (at level 10, x name, m at level 100, f at level 200) : keeper_scope.
Notation "m1 '>>' m2" := (bind m1 (fun _ => m2))
  (at level 100, m2 at level 200, right associativity) : keeper_scope.

Section Methods.
Context {W : Type} `{Chain W}.
Local Open Scope keeper_scope.

(** *** Truthiness tests of the class *)

(** [event === lit] *)
Definition event_is (name : option string) (lit : string) : bool :=
  match name with
  | Some s => String.eqb s lit
  | None => false
  end.

(** [!event]: [undefined] and the empty string are falsy. *)
Definition event_falsy (name : option string) : bool :=
  match name with
  | Some s => String.eqb s ""
  | None => true
  end.

(** [event.match(/OrderSubmitted/)] *)
Definition event_matches (name : option string) (pat : string) : bool :=
  match name with
  | Some s => occurs_in pat s
  | None => false
  end.

(** [if (this.activeKeeperTasks[id])] *)
Definition task_active (tasks : gmap N bool) (id : N) : bool :=
  match tasks !! id with
  | Some b => b
  | None => false
  end.

(** [!this.blockTip]: [null] and [0] are falsy. *)
Definition blockTip_falsy (tip : option Z) : bool :=
  match tip with
  | Some n => Z.eqb n 0
  | None => true
  end.

(** [if (err.code)] *)
Definition code_truthy (c : option ErrCode) : bool :=
  match c with
  | Some (CodeStr s) => negb (String.eqb s "")
  | Some (CodeNum n) => negb (Z.eqb n 0)
  | None => false
  end.

(** [err.code === lit] *)
Definition code_is (c : option ErrCode) (lit : string) : bool :=
  match c with
  | Some (CodeStr s) => String.eqb s lit
  | _ => false
  end.

(** *** [updateIndex(events)] *)

(** The callback of [events.forEach]. *)
Definition updateIndex_handler (ev : LogEvent) : M W unit :=
  let name := event ev in
  if event_is name "PositionModified" then
    let id := arg_id (args ev) in
    let account := arg_account (args ev) in
    let size := arg_size (args ev) in
    log "info" (PositionModifiedMsg id account) (Some Indexer) >>
    if Z.eqb size 0 then
      (* Position has been closed. *)
      modify (with_positions (JsObject.remove account))
    else
      modify (with_positions (JsObject.set account
        {| entry_id := id;
           entry_event := "PositionModified";
           entry_account := account;
           entry_size := size |}))
  else if event_is name "PositionLiquidated" then
    let account := arg_account (args ev) in
    let liquidator := arg_liquidator (args ev) in
    log "info" (PositionLiquidatedMsg account liquidator) (Some Indexer) >>
    modify (with_positions (JsObject.remove account))
  else if event_is name "FundingRecomputed" then
    ret tt
  else if event_falsy name || event_matches name "OrderSubmitted" then
    ret tt
  else
    log "info" (NoHandlerForEvent (default "" name)) (Some Indexer).

Definition updateIndex (events : list LogEvent) : M W unit :=
  forEach updateIndex_handler events.

(** *** [liquidateOrder(id, account)] *)

(** Modelled from the spec: [signerPool.withSigner(cb)], the scoped
    acquisition of a signer; the signer goes back to the pool when the
    callback returns or throws. *)
Definition withSigner {A} (cb : Signer -> M W A) : M W A :=
  let* signer := await signerPool_acquire in
  fun k =>
    match cb signer k with
    | (Exited c, k') => (Exited c, k')
    | (r, k') => (r, with_world (signerPool_release signer (world k')) k')
    end.

(** The body of the [try] block of [liquidateOrder]: the submission under
    a borrowed signer and the wait for one confirmation. *)
Definition liquidateOrder_try (id : N) (account : string) : M W Receipt :=
  let taskLabel := "liquidation" in
  withSigner (fun signer =>
    let* tx := await (futuresMarket_liquidatePosition signer account) in
    log "debug" (SubmitLiquidatePosition (nonce tx))
      (Some (KeeperTaskComponent taskLabel id)) >>
    await (tx_wait tx)).

Definition liquidateOrder (id : N) (account : string) : M W unit :=
  let taskLabel := "liquidation" in
  let* canLiquidateOrder := await (futuresMarket_canLiquidate account) in
  if negb canLiquidateOrder then
    log "info" CannotLiquidateOrder (Some (KeeperTaskComponent taskLabel id))
  else
    log "info" BeginLiquidatePosition (Some (KeeperTaskComponent taskLabel id)) >>
    let* receipt :=
      try_catch
        (liquidateOrder_try id account)
        (fun err =>
           let* market := gets baseAsset in
           observe (FuturesLiquidationsObserve market false) >>
           (if code_truthy (err_code err) then
              (* Ethers error. *)
              if code_is (err_code err) "NONCE_EXPIRED" then
                (* We can't recover from this one yet, restart. *)
                log "error" (ErrorText err) None >>
                process_exit (-1)
              else ret tt
            else ret tt) >>
           throw err) in
    let* market := gets baseAsset in
    observe (FuturesLiquidationsObserve market true) >>
    log "info" (DoneLiquidatePosition receipt)
      (Some (KeeperTaskComponent taskLabel id)).

(** *** [runKeeperTask(id, taskLabel, cb)] *)

Definition runKeeperTask (id : N) (taskLabel : string) (cb : Callback W) : M W unit :=
  let* tasks := gets activeKeeperTasks in
  if task_active tasks id then
    (* Skip task as its already running. *)
    ret tt
  else
    modify (with_activeKeeperTasks (insert id true)) >>
    log "info" Running (Some (KeeperTaskComponent taskLabel id)) >>
    try_await cb
      (fun err =>
         let* text := toString err in
         log "error" (ErrorMsg text) (Some (KeeperTaskComponent taskLabel id)) >>
         let* market := gets baseAsset in
         observe (KeeperErrorsObserve market)) >>
    log "info" Done (Some (KeeperTaskComponent taskLabel id)) >>
    modify (with_activeKeeperTasks (delete id)).

(** *** [runKeepers()] *)

Definition runKeepers : M W unit :=
  let* numPositions := gets (fun k => length (JsObject.keys (positions k))) in
  let* market := gets baseAsset in
  observe (FuturesOpenPositionsSet market numPositions) >>
  log "info" (PositionsToKeep numPositions) (Some KeeperComponent) >>
  (* Serial tx submission. *)
  let* open := gets (fun k => JsObject.values (positions k)) in
  forEach
    (fun p =>
       runKeeperTask (entry_id p) "liquidation"
         (arrow (liquidateOrder (entry_id p) (entry_account p))))
    open.

(** *** [processNewBlock(blockNumber)] *)

Definition is_rate_event (ev : LogEvent) : bool :=
  event_is (event ev) "RatesUpdated" || event_is (event ev) "RateDeleted".

Definition processNewBlock (blockNumber : Z) : M W unit :=
  modify (with_blockTip (Some blockNumber)) >>
  let* events :=
    await (futuresMarket_queryFilter blockNumber (Some blockNumber)) in
  let* exchangeRateEvents :=
    await (exchangeRates_queryFilter blockNumber (Some blockNumber)) in
  log "debug" (ProcessingBlock blockNumber) (Some Indexer) >>
  forEach
    (fun ev => log "debug" (ExchangeRatesEvent (default "" (event ev))) None)
    (List.filter is_rate_event exchangeRateEvents) >>
  log "debug" (EventsToProcess (length events)) (Some Indexer) >>
  updateIndex events >>
  runKeepers.

(** *** [run({ fromBlock })] *)

(** Up to the registration of the block listener. *)
Definition run_start (fromBlock : Z) : M W unit :=
  let* asset := await futuresMarket_baseAsset in
  modify (with_baseAsset (Some asset)) >>
  log "info" (MarketDeployedAt futuresMarket_address) None >>
  let* events := await (futuresMarket_queryFilter fromBlock None) in
  log "info" (RebuildingIndexFrom fromBlock) (Some Indexer) >>
  log "info" (EventsToProcess (length events)) (Some Indexer) >>
  updateIndex events >>
  log "info" IndexBuildComplete (Some Indexer) >>
  log "info" StartingKeeperLoop None >>
  runKeepers >>
  log "info" ListeningForEvents None.

(** The listener [this.provider.on("block", ...)]. *)
Definition onBlock (blockNumber : Z) : M W unit :=
  let* tip := gets blockTip in
  if blockTip_falsy tip then
    (* Don't process the first block we see. *)
    modify (with_blockTip (Some blockNumber))
  else
    log "debug" (NewBlock blockNumber) None >>
    modify (with_blockQueue (fun q => q ++ [blockNumber])).

(** One turn of the [while (1)] loop: wait on the timer when the queue
    is empty, otherwise [shift] the oldest block and process it. *)
Definition run_loop_turn : M W unit :=
  let* queue := gets blockQueue in
  match queue with
  | [] => ret tt
  | blockNumber :: rest =>
      modify (with_blockQueue (fun _ => rest)) >>
      processNewBlock blockNumber
  end.

(** What reaches the running keeper, in the order it is served: a block
    notification of the provider, or a turn of the loop.  A turn is served
    whole: the listener only appends to the queue, which a turn reads
    once, at its start. *)
Inductive Arrival :=
| BlockNotification (blockNumber : Z)
| LoopTurn.

Definition serve (a : Arrival) : M W unit :=
  match a with
  | BlockNotification b => onBlock b
  | LoopTurn => run_loop_turn
  end.

(** What is left of [run] once an error has left the loop: the listener,
    which nothing unregisters, still serves the notifications. *)
Fixpoint listener_only (arrivals : list Arrival) : M W unit :=
  match arrivals with
  | [] => ret tt
  | BlockNotification b :: rest => onBlock b >> listener_only rest
  | LoopTurn :: rest => listener_only rest
  end.

(** The keeper after [run] has started listening, serving arrivals.  An
    error leaving a turn rejects [run] and ends the loop: no later turn is
    served, but the listener stays registered and goes on logging and
    queueing the blocks notified.  An exit ends the process: nothing is
    served any more. *)
Fixpoint run_listening (arrivals : list Arrival) : M W unit :=
  match arrivals with
  | [] => ret tt
  | a :: rest =>
      fun k =>
        match serve a k with
        | (Normal _, k') => run_listening rest k'
        | (Thrown e, k') => (Thrown e, snd (listener_only rest k'))
        | (Exited status, k') => (Exited status, k')
        end
  end.
End Methods.

End KeeperJs.

(* ===================================================================== *)
(** ** The paginated, batched reads (perps utilities)                     *)
(* ===================================================================== *)

Module PerpsUtils.

Inductive PaginationEntityType := POSITION | ORDER.

Definition MAX_ADDRESS_PAGE_SIZE : Z := 1000.
Definition MAX_ADDRESS_PAGE_CALLS : nat := 100.
Definition MAX_ENTITY_PAGE_CALLS : nat := 500.

(** An entry of [KeeperContracts['markets']]: the market contract, its
    state contract (by address) and the asset. *)
Record Market := {
  contract : string;
  asset : string;
  state_address : string
}.

(** [providers.Block], the fields read here. *)
Record Block := { number : Z; timestamp : Z }.

(** [state.interface.encodeFunctionData(name, args)]: the function called
    and its arguments. *)
Inductive CallArg :=
| ArgAddress (a : string)
| ArgUint (n : Z).

Record CallData := { functionName : string; functionArgs : list CallArg }.

(** One element of an aggregate request, [{ target, callData }]. *)
Record Call := { target : string; callData : CallData }.

(** The [positions(address)] and [delayedOrders(address)] structs of the
    state contract, the fields read here. *)
Record PositionStruct := {
  ps_id : N;
  ps_margin : Z;
  ps_size : Z;
  ps_lastPrice : Z
}.

Record DelayedOrderStruct := {
  do_isOffchain : bool;
  do_executableAtTime : Z;
  do_intentionTime : Z
}.

(** The ABI coder belongs to ethers: return data is represented by the
    value it encodes, [RetMalformed] standing for bytes that do not
    decode. *)
Inductive ReturnData :=
| RetUint (n : N)
| RetAddresses (l : list string)
| RetPosition (p : PositionStruct)
| RetDelayedOrder (o : DelayedOrderStruct)
| RetMalformed.

Definition TypeError : JsError :=
  {| err_code := None; err_text := "TypeError" |}.
Definition DecodeError : JsError :=
  {| err_code := Some (CodeStr "BUFFER_OVERRUN"); err_text := "data out-of-bounds" |}.
Definition CallException : JsError :=
  {| err_code := Some (CodeStr "CALL_EXCEPTION"); err_text := "call revert exception" |}.

(** [decodeFunctionResult(getFunction(name), data)[0]], by return type. *)
Definition decode_uint (data : ReturnData) : Settled N :=
  match data with RetUint n => Fulfilled n | _ => Rejected DecodeError end.
Definition decode_position (data : ReturnData) : Settled PositionStruct :=
  match data with RetPosition p => Fulfilled p | _ => Rejected DecodeError end.
Definition decode_delayedOrder (data : ReturnData) : Settled DelayedOrderStruct :=
  match data with RetDelayedOrder o => Fulfilled o | _ => Rejected DecodeError end.

(** [chunk(array, size)] of lodash: consecutive slices of [size] elements,
    a shorter last one; no slice at all for a size below one. *)
Fixpoint chunk_slices {A} (fuel size : nat) (xs : list A) : list (list A) :=
  match fuel with
  | O => []
  | S fuel' =>
      match xs with
      | [] => []
      | _ => firstn size xs :: chunk_slices fuel' size (skipn size xs)
      end
  end.

Definition chunk {A} (xs : list A) (size : nat) : list (list A) :=
  if (size <? 1)%nat then [] else chunk_slices (length xs) size xs.

(** *** Page descriptors *)

Record Page := { from : Z; size : Z }.

(** Modelled from the spec: [getPaginatedFromAndTo(from, to, pageSize)] of
    [keepers/helpers] (imported above, its source is not at hand), the
    spec's [computePages]: the ordered pages of at most [pageSize] items
    that cover the range from [from] up to [to], the last one holding the
    remainder. *)
Fixpoint pages_upto (fuel : nat) (from to pageSize : Z) : list Page :=
  match fuel with
  | O => []
  | S fuel' =>
      if from <? to then
        let size := Z.min pageSize (to - from) in
        {| from := from; size := size |}
          :: pages_upto fuel' (from + size) to pageSize
      else []
  end.

Definition getPaginatedFromAndTo (from to pageSize : Z) : list Page :=
  pages_upto (Z.to_nat (to - from)) from to pageSize.

(** The items a page holds: [size] of them from [from] on. *)
Definition page_holds (p : Page) (x : Z) : Prop :=
  from p <= x < from p + size p.

(** *** Reads through the call aggregator *)

(** The positions and orders the fetches build ([Position] and
    [DelayedOrder] of [typed]).  [Num] is the JavaScript number. *)
Record Position {Num : Type} := {
  account : string;
  id : N;
  position_size : Num;
  leverage : Num;
  liqPrice : Z;
  liqPriceUpdatedTimestamp : Z
}.
Arguments Position Num : clear implicits.

Record DelayedOrder := {
  order_account : string;
  executableAtTime : Z;
  intentionTime : Z;
  executionFailures : Z
}.

Section Reads.
(** The chain at a pinned block: what one read-only call returns there,
    [None] when it reverts. *)
Variable eth_call : Z -> Call -> option ReturnData.

(** The fixed-point arithmetic on sizes is done by the wei library with
    the constant [UNIT] of [keepers/helpers]:
    [wei(size).div(UNIT).toNumber()] and
    [wei(size).abs().mul(lastPrice).div(margin).div(UNIT).toNumber()];
    the latter throws on a zero margin. *)
Variable Num : Type.
Variable size_toNumber : Z -> Num.
Variable leverage_toNumber : Z -> Z -> Z -> Settled Num.

(** A fetch threads the aggregate requests issued so far (most recent
    first) and settles like the promise it stands for. *)
Definition Fetch (A : Type) : Type :=
  list (list Call * Z) -> Settled A * list (list Call * Z).

Definition fret {A} (a : A) : Fetch A := fun issued => (Fulfilled a, issued).

Definition fbind {A B} (m : Fetch A) (f : A -> Fetch B) : Fetch B :=
  fun issued =>
    match m issued with
    | (Fulfilled a, issued') => f a issued'
    | (Rejected e, issued') => (Rejected e, issued')
    end.

Definition settle {A} (s : Settled A) : Fetch A := fun issued => (s, issued).

(** Modelled from the spec: [multicall.callStatic.aggregate(calls,
    { blockTag })], the batched call-aggregation primitive (Multicall3,
    known here by its ABI only): every call is run at the pinned block,
    the results come back in the order of the calls, and a reverting call
    rejects the whole request. *)
Fixpoint run_calls (blockTag : Z) (calls : list Call) : Settled (list ReturnData) :=
  match calls with
  | [] => Fulfilled []
  | c :: calls' =>
      match eth_call blockTag c with
      | None => Rejected CallException
      | Some data =>
          match run_calls blockTag calls' with
          | Fulfilled rest => Fulfilled (data :: rest)
          | Rejected e => Rejected e
          end
      end
  end.

Definition aggregate (calls : list Call) (blockTag : Z) : Fetch (list ReturnData) :=
  fun issued => (run_calls blockTag calls, (calls, blockTag) :: issued).

(** [const { state } = markets[marketKey]]: destructuring [undefined]
    throws. *)
Definition market_state (markets : JsObject.t Market) (marketKey : string)
    : Settled string :=
  match JsObject.get marketKey markets with
  | Some m => Fulfilled (state_address m)
  | None => Rejected TypeError
  end.

(** [xs.map(f)] with a callback that may throw. *)
Fixpoint map_settled {A B} (f : A -> Settled B) (xs : list A) : Settled (list B) :=
  match xs with
  | [] => Fulfilled []
  | x :: xs' =>
      match f x with
      | Rejected e => Rejected e
      | Fulfilled y =>
          match map_settled f xs' with
          | Fulfilled ys => Fulfilled (y :: ys)
          | Rejected e => Rejected e
          end
      end
  end.

(** [xs.forEach((x, i) => ...)] updating an accumulator, from index [i]. *)
Fixpoint forEach_indexed {A Acc} (f : A -> nat -> Acc -> Settled Acc)
    (xs : list A) (i : nat) (acc : Acc) : Settled Acc :=
  match xs with
  | [] => Fulfilled acc
  | x :: xs' =>
      match f x i acc with
      | Rejected e => Rejected e
      | Fulfilled acc' => forEach_indexed f xs' (S i) acc'
      end
  end.

(** [for (const x of xs) { ... await ... }] updating an accumulator. *)
Fixpoint for_of {A Acc} (body : A -> Acc -> Fetch Acc) (xs : list A) (acc : Acc)
    : Fetch Acc :=
  match xs with
  | [] => fret acc
  | x :: xs' => fbind (body x acc) (for_of body xs')
  end.

(** *** [getAddressLengthByMarket] *)

Definition length_function (type : PaginationEntityType) : string :=
  match type with
  | POSITION => "getPositionAddressesLength"
  | ORDER => "getDelayedOrderAddressesLength"
  end.

(** The callback of [marketKeys.map]: the length call of one market. *)
Definition getLengthCall (markets : JsObject.t Market) (rpcFunctionName : string)
    (marketKey : string) : Settled Call :=
  match market_state markets marketKey with
  | Fulfilled state =>
      Fulfilled {| target := state;
                   callData := {| functionName := rpcFunctionName;
                                  functionArgs := [] |} |}
  | Rejected e => Rejected e
  end.

(** The callback of [result.returnData.forEach]: the decoded length of the
    market at the same index, kept when above zero. *)
Definition recordLength (markets : JsObject.t Market) (marketKeys : list string)
    (data : ReturnData) (i : nat) (lengthByMarket : JsObject.t N)
    : Settled (JsObject.t N) :=
  match nth_error marketKeys i with
  | None => Rejected TypeError
  | Some marketKey =>
      match market_state markets marketKey with
      | Rejected e => Rejected e
      | Fulfilled _ =>
          match decode_uint data with
          | Rejected e => Rejected e
          | Fulfilled length =>
              (* Avoid processing markets that have no positions. *)
              if (0 <? length)%N
              then Fulfilled (JsObject.set marketKey length lengthByMarket)
              else Fulfilled lengthByMarket
          end
      end
  end.

Definition getAddressLengthByMarket (markets : JsObject.t Market)
    (block : Block) (type : PaginationEntityType) : Fetch (JsObject.t N) :=
  let marketKeys := JsObject.keys markets in
  let rpcFunctionName := length_function type in
  fbind (settle (map_settled (getLengthCall markets rpcFunctionName) marketKeys))
    (fun getLengthCalls =>
  fbind (aggregate getLengthCalls (number block))
    (fun returnData =>
  settle (forEach_indexed (recordLength markets marketKeys) returnData 0%nat []))).

(** *** [getPositionsByAddresses] and [getOrdersByAddresses] *)

(** Flatten out all addresses, pairing with the marketKey. *)
Definition flattenedAddressesWithMarketKey
    (addressesByMarket : JsObject.t (list string)) : list (string * string) :=
  flat_map
    (fun marketKey =>
       map (fun address => (address, marketKey))
         (default [] (JsObject.get marketKey addressesByMarket)))
    (JsObject.keys addressesByMarket).

(** The callback of [batch.map]: the call for one (address, market)
    pair. *)
Definition entity_call (rpcFunctionName : string) (markets : JsObject.t Market)
    (pair : string * string) : Settled Call :=
  match market_state markets (snd pair) with
  | Fulfilled state =>
      Fulfilled {| target := state;
                   callData := {| functionName := rpcFunctionName;
                                  functionArgs := [ArgAddress (fst pair)] |} |}
  | Rejected e => Rejected e
  end.

(** The callback of [result.returnData.forEach]: what is made of the
    result at index [i] is filed under the market of [batch[i]], with the
    address of [batch[i]]. *)
Definition file_result {E} (build : string -> ReturnData -> Settled (option E))
    (markets : JsObject.t Market) (batch : list (string * string))
    (data : ReturnData) (i : nat) (acc : JsObject.t (list E))
    : Settled (JsObject.t (list E)) :=
  match nth_error batch i with
  | None => Rejected TypeError
  | Some (address, marketKey) =>
      match market_state markets marketKey with
      | Rejected e => Rejected e
      | Fulfilled _ =>
          match build address data with
          | Rejected e => Rejected e
          | Fulfilled None => Fulfilled acc
          | Fulfilled (Some entity) =>
              Fulfilled
                (JsObject.set marketKey
                   (default [] (JsObject.get marketKey acc) ++ [entity]) acc)
          end
      end
  end.

(** The body of the loop over the batches: one aggregate request. *)
Definition fetch_batch {E} (rpcFunctionName : string)
    (build : string -> ReturnData -> Settled (option E))
    (markets : JsObject.t Market) (block : Block)
    (batch : list (string * string)) (ordersByMarket : JsObject.t (list E))
    : Fetch (JsObject.t (list E)) :=
  fbind (settle (map_settled (entity_call rpcFunctionName markets) batch))
    (fun delayedOrdersCalls =>
  fbind (aggregate delayedOrdersCalls (number block))
    (fun returnData =>
  settle (forEach_indexed (file_result build markets batch) returnData 0%nat
            ordersByMarket))).

(** The two functions run the same loop over the batches and differ in
    the function they call and in what they make of a decoded result
    ([build]: the entity to file under the market, or none). *)
Definition fetch_batches {E} (rpcFunctionName : string)
    (build : string -> ReturnData -> Settled (option E))
    (limit : nat) (markets : JsObject.t Market) (block : Block)
    (flattened : list (string * string)) : Fetch (JsObject.t (list E)) :=
  for_of (fetch_batch rpcFunctionName build markets block)
    (chunk flattened limit) [].

Definition build_position (block : Block) (address : string) (data : ReturnData)
    : Settled (option (Position Num)) :=
  match decode_position data with
  | Rejected e => Rejected e
  | Fulfilled response =>
      match leverage_toNumber (ps_size response) (ps_lastPrice response)
              (ps_margin response) with
      | Rejected e => Rejected e
      | Fulfilled lev =>
          Fulfilled (Some
            {| account := address;
               id := ps_id response;
               position_size := size_toNumber (ps_size response);
               leverage := lev;
               liqPrice := -1; (* will be updated by keeper routine *)
               liqPriceUpdatedTimestamp := timestamp block |})
      end
  end.

Definition build_order (address : string) (data : ReturnData)
    : Settled (option DelayedOrder) :=
  match decode_delayedOrder data with
  | Rejected e => Rejected e
  | Fulfilled rawDelayedOrder =>
      if do_isOffchain rawDelayedOrder then
        Fulfilled (Some
          {| order_account := address;
             executableAtTime := do_executableAtTime rawDelayedOrder;
             intentionTime := do_intentionTime rawDelayedOrder;
             executionFailures := 0 |})
      else Fulfilled None
  end.

(** The functions with the batch limit as a parameter, and as the source
    has them, at [MAX_ENTITY_PAGE_CALLS]. *)
Definition getPositionsByAddresses_limit (limit : nat)
    (addressesByMarket : JsObject.t (list string))
    (markets : JsObject.t Market) (block : Block)
    : Fetch (JsObject.t (list (Position Num))) :=
  fetch_batches "positions" (build_position block) limit markets block
    (flattenedAddressesWithMarketKey addressesByMarket).

Definition getPositionsByAddresses := getPositionsByAddresses_limit MAX_ENTITY_PAGE_CALLS.

Definition getOrdersByAddresses_limit (limit : nat)
    (addressesByMarket : JsObject.t (list string))
    (markets : JsObject.t Market) (block : Block)
    : Fetch (JsObject.t (list DelayedOrder)) :=
  fetch_batches "delayedOrders" build_order limit markets block
    (flattenedAddressesWithMarketKey addressesByMarket).

Definition getOrdersByAddresses := getOrdersByAddresses_limit MAX_ENTITY_PAGE_CALLS.

(** *** What a fetch is expected to return *)

(** The entity read for one (address, market) pair on its own: the call
    the pair stands for, run at the pinned block and decoded. *)
Definition read_entity {E} (rpcFunctionName : string)
    (build : string -> ReturnData -> Settled (option E))
    (markets : JsObject.t Market) (block : Block)
    (pair : string * string) : Settled (option E) :=
  match entity_call rpcFunctionName markets pair with
  | Rejected e => Rejected e
  | Fulfilled call =>
      match eth_call (number block) call with
      | None => Rejected CallException
      | Some data => build (fst pair) data
      end
  end.

(** A pair with what reading it on its own gives. *)
Definition read_ok {E} (rpcFunctionName : string)
    (build : string -> ReturnData -> Settled (option E))
    (markets : JsObject.t Market) (block : Block)
    (item : (string * string) * option E) : Prop :=
  read_entity rpcFunctionName build markets block (fst item) = Fulfilled (snd item).

(** The entities of the pairs of one market, in the order of the pairs. *)
Definition entities_of {E} (marketKey : string)
    (items : list ((string * string) * option E)) : list E :=
  flat_map
    (fun item =>
       if String.eqb (snd (fst item)) marketKey then
         match snd item with Some entity => [entity] | None => [] end
       else [])
    items.

(** The call a pair stands for and the answer of the chain to a call,
    for pairs whose market is known and calls that do not revert. *)
Definition pair_call (rpcFunctionName : string) (markets : JsObject.t Market)
    (pair : string * string) : Call :=
  match entity_call rpcFunctionName markets pair with
  | Fulfilled call => call
  | Rejected _ =>
      {| target := "";
         callData := {| functionName := rpcFunctionName; functionArgs := [] |} |}
  end.

Definition answer (blockTag : Z) (c : Call) : ReturnData :=
  default RetMalformed (eth_call blockTag c).

(** Filing entities under their market, in the order given. *)
Definition file_entity {E} (acc : JsObject.t (list E))
    (item : (string * string) * option E) : JsObject.t (list E) :=
  match snd item with
  | None => acc
  | Some entity =>
      JsObject.set (snd (fst item))
        (default [] (JsObject.get (snd (fst item)) acc) ++ [entity]) acc
  end.

Definition file_all {E} (items : list ((string * string) * option E))
    (acc : JsObject.t (list E)) : JsObject.t (list E) :=
  fold_left file_entity items acc.

(** Keeping the counts above zero, market by market. *)
Definition keep_nonzero (count : string -> N) (acc : JsObject.t N)
    (marketKey : string) : JsObject.t N :=
  if (0 <? count marketKey)%N
  then JsObject.set marketKey (count marketKey) acc
  else acc.

(** The on-chain count of a market at a block. *)
Definition onchain_count (type : PaginationEntityType) (block : Block)
    (m : Market) : Settled N :=
  match eth_call (number block)
          {| target := state_address m;
             callData := {| functionName := length_function type;
                            functionArgs := [] |} |} with
  | None => Rejected CallException
  | Some data => decode_uint data
  end.
End Reads.

(** *** Three markets and their state contracts *)

Definition market_of (key : string) : Market :=
  {| contract := "market" ++ key; asset := key; state_address := "state" ++ key |}.

Definition three_markets : JsObject.t Market :=
  [("A", market_of "A"); ("B", market_of "B"); ("C", market_of "C")].

(** Counts [{A: 0, B: 1500, C: 3}]. *)
Definition three_counts (key : string) : N :=
  if String.eqb key "B" then 1500%N
  else if String.eqb key "C" then 3%N
  else 0%N.

(** A chain where the state contract of market [X] answers the length
    calls with the count of [X], and [positions(a)] with a position of
    size 2, margin 1 and price 3. *)
Definition three_chain (blockTag : Z) (c : Call) : option ReturnData :=
  if String.eqb (functionName (callData c)) "positions" then
    Some (RetPosition {| ps_id := 1; ps_margin := 1; ps_size := 2; ps_lastPrice := 3 |})
  else if String.eqb (target c) "stateA" then Some (RetUint (three_counts "A"))
  else if String.eqb (target c) "stateB" then Some (RetUint (three_counts "B"))
  else if String.eqb (target c) "stateC" then Some (RetUint (three_counts "C"))
  else None.

(** A chain where every account has a delayed order, off-chain for the
    accounts other than "0x2". *)
Definition orders_chain (blockTag : Z) (c : Call) : option ReturnData :=
  if String.eqb (functionName (callData c)) "delayedOrders" then
    match functionArgs (callData c) with
    | [ArgAddress a] =>
        Some (RetDelayedOrder
                {| do_isOffchain := negb (String.eqb a "0x2");
                   do_executableAtTime := 10;
                   do_intentionTime := 5 |})
    | _ => None
    end
  else three_chain blockTag c.

(** A chain where every call reverts. *)
Definition reverting_chain (blockTag : Z) (c : Call) : option ReturnData := None.

Definition block_9 : Block := {| number := 9; timestamp := 1700000000 |}.

(** Three accounts of market B with the position read for each. *)
Definition three_accounts : list ((string * string) * option (Position Z)) :=
  map (fun address =>
         ((address, "B"),
          Some {| account := address; id := 1; position_size := 2; leverage := 6;
                  liqPrice := -1; liqPriceUpdatedTimestamp := 1700000000 |}))
    ["0x1"; "0x2"; "0x3"].

(** The same accounts with the order read for each: none for "0x2", whose
    delayed order is not off-chain. *)
Definition three_orders : list ((string * string) * option DelayedOrder) :=
  map (fun address =>
         ((address, "B"),
          if String.eqb address "0x2" then None
          else Some {| order_account := address; executableAtTime := 10;
                       intentionTime := 5; executionFailures := 0 |}))
    ["0x1"; "0x2"; "0x3"].

(** Integer stand-ins for the number conversions. *)
Definition plain_size (size : Z) : Z := size.
Definition plain_leverage (size lastPrice margin : Z) : Settled Z :=
  if Z.eqb margin 0 then Rejected TypeError
  else Fulfilled (Z.abs size * lastPrice / margin).

End PerpsUtils.

(* ===================================================================== *)
(** ** Keeper tasks in flight                                             *)
(* ===================================================================== *)

(** [runKeeperTask] is [async]: it runs up to [await cb()], is suspended
    while the action is pending, and resumes when the action settles.  Other
    code of the single-threaded runtime runs in between, among it further
    calls of [runKeeperTask].  The two halves are stated on their own
    ([enter], [resume]) and composed by the events of a pool of suspended
    invocations. *)

Module InFlight.
Import KeeperJs.

Section Segments.
Context {W : Type} `{Chain W}.
Local Open Scope keeper_scope.

(** From the call to [await cb()]: [true] when the action is invoked. *)
Definition enter (id : N) (taskLabel : string) : M W bool :=
  let* tasks := gets activeKeeperTasks in
  if task_active tasks id then
    ret false
  else
    modify (with_activeKeeperTasks (insert id true)) >>
    log "info" Running (Some (KeeperTaskComponent taskLabel id)) >>
    ret true.

(** From the settlement of the action to the return. *)
Definition resume (id : N) (taskLabel : string) (settlement : Outcome)
    : M W unit :=
  match settlement with
  | Exits status => process_exit status
  | Rejects err =>
      let* text := toString err in
      log "error" (ErrorMsg text) (Some (KeeperTaskComponent taskLabel id)) >>
      let* market := gets baseAsset in
      observe (KeeperErrorsObserve market)
  | Returns => ret tt
  end >>
  log "info" Done (Some (KeeperTaskComponent taskLabel id)) >>
  modify (with_activeKeeperTasks (delete id)).

(** The instance together with the invocations suspended at [await cb()]
    (by task id) and the number of times an action has been invoked. *)
Record Pool := {
  keeper : Keeper W;
  suspended : list N;
  invoked : nat
}.

Inductive PoolEvent :=
(** a call [runKeeperTask(id, taskLabel, cb)] *)
| Call (id : N) (taskLabel : string)
(** the action of a suspended invocation settles, by return or by throw *)
| Settle (id : N) (taskLabel : string) (failure : option Caught)
(** any other code running in between; nothing but [runKeeperTask] touches
    [activeKeeperTasks] *)
| Elsewhere (f : Keeper W -> Keeper W).

Fixpoint remove_one (id : N) (ids : list N) : list N :=
  match ids with
  | [] => []
  | x :: ids' => if N.eqb x id then ids' else x :: remove_one id ids'
  end.

(** One event; [None] when a settlement is announced for an id with no
    suspended invocation. *)
Definition pool_step (ev : PoolEvent) (p : Pool) : option Pool :=
  match ev with
  | Call id taskLabel =>
      match enter id taskLabel (keeper p) with
      | (Normal true, k') =>
          Some {| keeper := k'; suspended := id :: suspended p;
                  invoked := S (invoked p) |}
      | (_, k') =>
          Some {| keeper := k'; suspended := suspended p; invoked := invoked p |}
      end
  | Settle id taskLabel failure =>
      if existsb (N.eqb id) (suspended p) then
        let settlement :=
          match failure with Some err => Rejects err | None => Returns end in
        Some {| keeper := snd (resume id taskLabel settlement (keeper p));
                suspended := remove_one id (suspended p);
                invoked := invoked p |}
      else None
  | Elsewhere f =>
      Some {| keeper :=
                with_activeKeeperTasks (fun _ => activeKeeperTasks (keeper p))
                  (f (keeper p));
              suspended := suspended p;
              invoked := invoked p |}
  end.

Fixpoint pool_run (evs : list PoolEvent) (p : Pool) : option Pool :=
  match evs with
  | [] => Some p
  | ev :: evs' =>
      match pool_step ev p with
      | Some p' => pool_run evs' p'
      | None => None
      end
  end.

(** The pool of a new keeper. *)
Definition pool_start (w : W) : Pool :=
  {| keeper := constructor w; suspended := []; invoked := 0 |}.

(** How many invocations for [id] are suspended. *)
Definition in_flight (id : N) (p : Pool) : nat :=
  length (List.filter (N.eqb id) (suspended p)).

(** The running-set tells how many invocations are in flight: one for an id
    in it, none for the others. *)
Definition pool_inv (p : Pool) : Prop :=
  forall id,
    in_flight id p =
    if task_active (activeKeeperTasks (keeper p)) id then 1%nat else 0%nat.

(** The running-set bounds the invocations in flight: at most one for an
    id in it, none for the others. *)
Definition pool_bound (p : Pool) : Prop :=
  forall id,
    (in_flight id p <=
     if task_active (activeKeeperTasks (keeper p)) id then 1 else 0)%nat.

(** No settlement of the list is a rejection with [undefined] or [null]. *)
Definition readable_rejections (evs : list PoolEvent) : Prop :=
  Forall (fun ev =>
            match ev with
            | Settle _ _ (Some CaughtNullish) => False
            | _ => True
            end) evs.
End Segments.
Arguments Pool W : clear implicits.
Arguments PoolEvent W : clear implicits.
End InFlight.

(* ===================================================================== *)
(** ** Reading the index                                                  *)
(* ===================================================================== *)

Module IndexView.
Import KeeperJs.

(** What one event does to the index, leaving the log calls aside. *)
Definition index_step (ev : LogEvent) (index : JsObject.t IndexEntry)
    : JsObject.t IndexEntry :=
  if event_is (event ev) "PositionModified" then
    if Z.eqb (arg_size (args ev)) 0 then
      JsObject.remove (arg_account (args ev)) index
    else
      JsObject.set (arg_account (args ev))
        {| entry_id := arg_id (args ev);
           entry_event := "PositionModified";
           entry_account := arg_account (args ev);
           entry_size := arg_size (args ev) |}
        index
  else if event_is (event ev) "PositionLiquidated" then
    JsObject.remove (arg_account (args ev)) index
  else index.

(** The last thing a list of events does to an account: nothing ([None]),
    a removal ([Some None]) or an entry put in ([Some (Some entry)]). *)
Fixpoint last_write (account : string) (events : list LogEvent)
    : option (option IndexEntry) :=
  match events with
  | [] => None
  | ev :: events' =>
      match last_write account events' with
      | Some w => Some w
      | None =>
          if String.eqb (arg_account (args ev)) account then
            if event_is (event ev) "PositionModified" then
              if Z.eqb (arg_size (args ev)) 0 then Some None
              else Some (Some {| entry_id := arg_id (args ev);
                                 entry_event := "PositionModified";
                                 entry_account := arg_account (args ev);
                                 entry_size := arg_size (args ev) |})
            else if event_is (event ev) "PositionLiquidated" then Some None
            else None
          else None
      end
  end.

(** The events the properties name. *)
Definition PositionModified (id : N) (account : string) (size : Z) : LogEvent :=
  {| event := Some "PositionModified";
     args := {| arg_id := id; arg_account := account; arg_size := size;
                arg_liquidator := "" |} |}.

Definition PositionLiquidated (id : N) (account liquidator : string) : LogEvent :=
  {| event := Some "PositionLiquidated";
     args := {| arg_id := id; arg_account := account; arg_size := 0;
                arg_liquidator := liquidator |} |}.

(** The index a keeper holds after [updateIndex(events)]. *)
Definition index_after {W} (events : list LogEvent) (k : Keeper W)
    : JsObject.t IndexEntry :=
  positions (snd (updateIndex events k)).
End IndexView.

(* ===================================================================== *)
(** ** The keeper at the stages of a pass                                 *)
(* ===================================================================== *)

Module Stages.
Import KeeperJs.

Section Stage.
Context {W : Type} `{Chain W}.

Definition log_call (lvl : string) (msg : Message) (c : option Component)
    (k : Keeper W) : Keeper W :=
  with_logger (cons {| level := lvl; message := msg; component := c |}) k.

(** The keeper when the submission starts: the eligibility read has been
    made and the start has been logged. *)
Definition submitting (id : N) (w1 : W) (k : Keeper W) : Keeper W :=
  log_call "info" BeginLiquidatePosition
    (Some (KeeperTaskComponent "liquidation" id)) (with_world w1 k).

(** The keeper once the failed outcome has been recorded. *)
Definition failure_recorded (k : Keeper W) : Keeper W :=
  with_metrics (cons (FuturesLiquidationsObserve (baseAsset k) false)) k.

(** The keeper the process exits with on a rejected nonce: the failed
    outcome recorded, the error logged. *)
Definition halted (err : JsError) (k : Keeper W) : Keeper W :=
  log_call "error" (ErrorText err) None (failure_recorded k).

(** The keeper after [runKeeperTask] has contained an error of the action:
    the error logged, the error counter observed, the end of the task
    logged and the id removed. *)
Definition contained (id : N) (taskLabel : string) (err : JsError)
    (k : Keeper W) : Keeper W :=
  with_activeKeeperTasks (delete id)
    (log_call "info" Done (Some (KeeperTaskComponent taskLabel id))
       (with_metrics (cons (KeeperErrorsObserve (baseAsset k)))
          (log_call "error" (ErrorMsg err)
             (Some (KeeperTaskComponent taskLabel id)) k))).

(** The task [runKeepers] runs for an index entry. *)
Definition keeper_task (p : IndexEntry) : M W unit :=
  runKeeperTask (entry_id p) "liquidation"
    (arrow (liquidateOrder (entry_id p) (entry_account p))).

(** The keeper when [runKeepers] starts offering: the gauge set, the
    count logged. *)
Definition pass_announced (k : Keeper W) : Keeper W :=
  log_call "info" (PositionsToKeep (length (JsObject.keys (positions k))))
    (Some KeeperComponent)
    (with_metrics
       (cons (FuturesOpenPositionsSet (baseAsset k)
                (length (JsObject.keys (positions k))))) k).

(** The keeper when [processNewBlock] calls [runKeepers]: the block taken
    off the queue and made the tip, its events read and applied. *)
Definition block_indexed (blockNumber : Z) (rest : list Z)
    (events exchangeRateEvents : list LogEvent) (w : W) (k : Keeper W)
    : Keeper W :=
  snd (updateIndex events
    (log_call "debug" (EventsToProcess (length events)) (Some Indexer)
      (snd (forEach
              (fun ev => log "debug" (ExchangeRatesEvent (default "" (event ev))) None)
              (List.filter is_rate_event exchangeRateEvents)
              (log_call "debug" (ProcessingBlock blockNumber) (Some Indexer)
                 (with_world w
                    (with_blockTip (Some blockNumber)
                       (with_blockQueue (fun _ => rest) k)))))))).
End Stage.
End Stages.

(* ===================================================================== *)
(** ** What the loop takes off the queue                                  *)
(* ===================================================================== *)

Module Listening.
Import KeeperJs.

Section Served.
Context {W : Type} `{Chain W}.

(** A method leaves a field of the keeper ([proj]) as it found it. *)
Definition keeps {A B} (proj : Keeper W -> A) (m : M W B) : Prop :=
  forall k, proj (snd (m k)) = proj k.

(** A field that the index, the running-set, the tip, the asset, the log
    calls, the metrics and the world have no part in. *)
Record Untouched {A} (proj : Keeper W -> A) : Prop := {
  by_positions : forall f k, proj (with_positions f k) = proj k;
  by_activeKeeperTasks : forall f k, proj (with_activeKeeperTasks f k) = proj k;
  by_baseAsset : forall a k, proj (with_baseAsset a k) = proj k;
  by_logger : forall f k, proj (with_logger f k) = proj k;
  by_metrics : forall f k, proj (with_metrics f k) = proj k;
  by_world : forall w k, proj (with_world w k) = proj k
}.

(** The block numbers notified by a list of arrivals. *)
Fixpoint notified (arrivals : list Arrival) : list Z :=
  match arrivals with
  | [] => []
  | BlockNotification b :: rest => b :: notified rest
  | LoopTurn :: rest => notified rest
  end.

(** The block a turn takes off the queue to process, if any. *)
Definition taken (a : Arrival) (k : Keeper W) : list Z :=
  match a, blockQueue k with
  | LoopTurn, b :: _ => [b]
  | _, _ => []
  end.

(** The blocks processed while a list of arrivals is served. *)
Fixpoint processed (arrivals : list Arrival) (k : Keeper W) : list Z :=
  match arrivals with
  | [] => []
  | a :: rest =>
      taken a k ++
      match serve a k with
      | (Normal _, k') => processed rest k'
      | _ => []
      end
  end.
End Served.
End Listening.

(* ===================================================================== *)
(** ** A scripted chain                                                   *)
(* ===================================================================== *)

Module Scenario.
Import KeeperJs.

(** A chain whose answers are fixed in advance: whether positions can be
    liquidated, how a submission and its confirmation settle, and the
    events of each block.  Its world carries nothing. *)
Definition scripted_chain (canLiquidate : bool) (submission : Settled Tx)
    (confirmation : Settled Receipt) (events_from : Z -> list LogEvent)
    : Chain unit :=
  {| futuresMarket_address := "0xMarket";
     futuresMarket_baseAsset := fun w => (Fulfilled "sETH", w);
     futuresMarket_queryFilter := fun fromBlock _ w => (Fulfilled (events_from fromBlock), w);
     exchangeRates_queryFilter := fun _ _ w => (Fulfilled [], w);
     futuresMarket_canLiquidate := fun _ w => (Fulfilled canLiquidate, w);
     Signer := unit;
     signerPool_acquire := fun w => (Fulfilled tt, w);
     signerPool_release := fun _ w => w;
     futuresMarket_liquidatePosition := fun _ _ w => (submission, w);
     tx_wait := fun _ w => (confirmation, w) |}.

Definition receipt_ok : Receipt :=
  {| blockNumber := 100; status := true; transactionHash := "0xabc"; gasUsed := 21000 |}.

(** Every submission is mined. *)
Definition calm_chain : Chain unit :=
  scripted_chain true (Fulfilled {| nonce := 1 |}) (Fulfilled receipt_ok) (fun _ => []).

(** Every submission is refused with the given error. *)
Definition refusing_chain (err : JsError) : Chain unit :=
  scripted_chain true (Rejected err) (Fulfilled receipt_ok) (fun _ => []).

Definition nonce_expired : JsError :=
  {| err_code := Some (CodeStr "NONCE_EXPIRED"); err_text := "nonce has already been used" |}.

Definition insufficient_funds : JsError :=
  {| err_code := Some (CodeStr "INSUFFICIENT_FUNDS"); err_text := "insufficient funds" |}.

(** An index entry for an account. *)
Definition open_position (id : N) (account : string) (size : Z) : IndexEntry :=
  {| entry_id := id; entry_event := "PositionModified";
     entry_account := account; entry_size := size |}.

(** A listening keeper that holds two open positions, has seen block 100
    and has block 101 queued. *)
Definition two_positions_keeper : Keeper unit :=
  with_baseAsset (Some "sETH")
    (with_blockTip (Some 100)
       (with_blockQueue (fun _ => [101])
          (with_positions
             (fun _ => [("0xA", open_position 7 "0xA" 5);
                        ("0xB", open_position 8 "0xB" 3)])
             (constructor tt)))).
End Scenario.

(* ===================================================================== *)
(** ** What the methods leave alone                                       *)
(* ===================================================================== *)

Module Frames.
Import KeeperJs.

Section Frame.
Context {W : Type}.

(** A field that the log calls and the world have no part in: what a
    submission may not touch. *)
Record SubmitFrame {A} (proj : Keeper W -> A) : Prop := {
  sf_logger : forall f k, proj (with_logger f k) = proj k;
  sf_world : forall w k, proj (with_world w k) = proj k
}.

(** A field that the log calls, the metrics and the world have no part
    in: what an action may not touch. *)
Record ActionFrame {A} (proj : Keeper W -> A) : Prop := {
  af_logger : forall f k, proj (with_logger f k) = proj k;
  af_metrics : forall f k, proj (with_metrics f k) = proj k;
  af_world : forall w k, proj (with_world w k) = proj k
}.

(** A field that the running-set has no part in either: what a pass may
    not touch. *)
Record PassFrame {A} (proj : Keeper W -> A) : Prop := {
  pf_action : ActionFrame proj;
  pf_activeKeeperTasks : forall f k, proj (with_activeKeeperTasks f k) = proj k
}.

(** The entries of an index as [updateIndex] builds them: one per
    account, each filed under its own account, of nonzero size, made by a
    [PositionModified] event. *)
Definition index_wf (index : JsObject.t IndexEntry) : Prop :=
  List.NoDup (JsObject.keys index) /\
  Forall (fun kv =>
            entry_account (snd kv) = fst kv /\
            entry_size (snd kv) <> 0 /\
            entry_event (snd kv) = "PositionModified")
    index.

(** A running-set as [runKeeperTask] builds it: an id is a key only with
    the value [true]. *)
Definition tasks_wf (tasks : gmap N bool) : Prop :=
  forall id, tasks !! id <> Some false.

(** An event that [updateIndex] has a handler for. *)
Definition handled (ev : LogEvent) : bool :=
  event_is (event ev) "PositionModified" || event_is (event ev) "PositionLiquidated".

(** An event that [updateIndex] passes over in silence. *)
Definition silent (ev : LogEvent) : bool :=
  event_is (event ev) "FundingRecomputed"
  || event_falsy (event ev)
  || event_matches (event ev) "OrderSubmitted".
End Frame.
End Frames.

(* ===================================================================== *)
(** ** More scripted chains                                               *)
(* ===================================================================== *)

Module Outage.
Import KeeperJs Scenario.

(** A chain whose event queries on the market all fail with the given
    error. *)
Definition silent_chain (err : JsError) : Chain unit :=
  {| futuresMarket_address := "0xMarket";
     futuresMarket_baseAsset := fun w => (Fulfilled "sETH", w);
     futuresMarket_queryFilter := fun _ _ w => (Rejected err, w);
     exchangeRates_queryFilter := fun _ _ w => (Fulfilled [], w);
     futuresMarket_canLiquidate := fun _ w => (Fulfilled true, w);
     Signer := unit;
     signerPool_acquire := fun w => (Fulfilled tt, w);
     signerPool_release := fun _ w => w;
     futuresMarket_liquidatePosition := fun _ _ w => (Fulfilled {| nonce := 1 |}, w);
     tx_wait := fun _ w => (Fulfilled receipt_ok, w) |}.

(** A chain where no position can be liquidated. *)
Definition healthy_chain : Chain unit :=
  scripted_chain false (Fulfilled {| nonce := 1 |}) (Fulfilled receipt_ok) (fun _ => []).

Definition timeout_error : JsError :=
  {| err_code := Some (CodeStr "TIMEOUT"); err_text := "timeout" |}.
End Outage.

(* ===================================================================== *)
(** ** What the entity fetches are expected to build                      *)
(* ===================================================================== *)

Module Expected.
Import PerpsUtils.

(** The call [state.<rpcFunctionName>(address)] on a state contract. *)
Definition entity_read_call (rpcFunctionName state address : string) : Call :=
  {| target := state;
     callData := {| functionName := rpcFunctionName;
                    functionArgs := [ArgAddress address] |} |}.

(** The order made of an off-chain delayed order of an account. *)
Definition delayedOrder_of (address : string) (raw : DelayedOrderStruct) : DelayedOrder :=
  {| order_account := address;
     executableAtTime := do_executableAtTime raw;
     intentionTime := do_intentionTime raw;
     executionFailures := 0 |}.

(** The position made of the position struct of an account, with its
    leverage. *)
Definition position_of {Num} (size_toNumber : Z -> Num) (block : Block)
    (address : string) (response : PositionStruct) (lev : Num) : Position Num :=
  {| account := address;
     id := ps_id response;
     position_size := size_toNumber (ps_size response);
     leverage := lev;
     liqPrice := -1;
     liqPriceUpdatedTimestamp := timestamp block |}.

(** The entities kept for the accounts of one market. *)
Definition kept {E} (ent : string * string -> option E) (marketKey : string)
    (addresses : list string) : list E :=
  flat_map
    (fun address =>
       match ent (address, marketKey) with Some entity => [entity] | None => [] end)
    addresses.

(** The addresses a page of a market holds on [paged_chain]: the market's
    state contract followed by the accounts "0x1" and "0x2" for a page that
    starts at 0, the account "0x3" for a later page. *)
Definition paged_addresses (item : Page * string) : list string :=
  if from (fst item) =? 0 then [String.append "state" (snd item); "0x1"; "0x2"]
  else ["0x3"].

(** The chain [orders_chain] with state contracts that answer the address
    page calls as well. *)
Definition paged_chain (blockTag : Z) (c : Call) : option ReturnData :=
  if String.eqb (functionName (callData c)) "getDelayedOrderAddressesPage" then
    match functionArgs (callData c) with
    | [ArgUint start; ArgUint _] =>
        Some (RetAddresses
                (if start =? 0 then [target c; "0x1"; "0x2"] else ["0x3"]))
    | _ => None
    end
  else orders_chain blockTag c.
End Expected.

(* ===================================================================== *)
(** ** Address pages and the two fetches built on them                    *)
(* ===================================================================== *)

Module PerpsPaging.
Import PerpsUtils.

Definition decode_addresses (data : ReturnData) : Settled (list string) :=
  match data with RetAddresses l => Fulfilled l | _ => Rejected DecodeError end.

Definition NumericFault : JsError :=
  {| err_code := Some (CodeStr "NUMERIC_FAULT"); err_text := "overflow" |}.

(** [BigNumber.toNumber()]: throws above the largest safe integer. *)
Definition toNumber (n : N) : Settled Z :=
  if (n <=? 9007199254740991)%N then Fulfilled (Z.of_N n) else Rejected NumericFault.

Definition page_function (type : PaginationEntityType) : string :=
  match type with
  | POSITION => "getPositionAddressesPage"
  | ORDER => "getDelayedOrderAddressesPage"
  end.

Section Pages.
Variable eth_call : Z -> Call -> option ReturnData.

(** [getPaginatedFromAndTo] of [keepers/helpers], whose source is not at
    hand: any function from the bounds and the page size to the pages. *)
Variable paginate : Z -> Z -> Z -> list Page.

(** *** [getAddressesByLengths] *)

(** For each lengths by market, create up to n pages; a length that is
    not a safe integer throws. *)
Fixpoint pages_of (lengthByMarket : JsObject.t N) (marketKeys : list string)
    : Settled (list (Page * string)) :=
  match marketKeys with
  | [] => Fulfilled []
  | marketKey :: rest =>
      match JsObject.get marketKey lengthByMarket with
      | None => Rejected TypeError
      | Some length =>
          match toNumber length with
          | Rejected e => Rejected e
          | Fulfilled total =>
              match pages_of lengthByMarket rest with
              | Rejected e => Rejected e
              | Fulfilled more =>
                  Fulfilled
                    (map (fun pagination => (pagination, marketKey))
                       (paginate 0 total MAX_ADDRESS_PAGE_SIZE) ++ more)
              end
          end
      end
  end.

(** The pages of a market, for the length recorded for it. *)
Definition market_pages (lengthByMarket : JsObject.t N) (marketKey : string) : list Page :=
  match JsObject.get marketKey lengthByMarket with
  | Some length => paginate 0 (Z.of_N length) MAX_ADDRESS_PAGE_SIZE
  | None => []
  end.

(** The callback of [batch.map]: the page call of one (page, market). *)
Definition getPageCall (rpcFunctionName : string) (markets : JsObject.t Market)
    (item : Page * string) : Settled Call :=
  match market_state markets (snd item) with
  | Fulfilled state =>
      Fulfilled {| target := state;
                   callData := {| functionName := rpcFunctionName;
                                  functionArgs := [ArgUint (from (fst item));
                                                   ArgUint (size (fst item))] |} |}
  | Rejected e => Rejected e
  end.

(** The callback of [result.returnData.forEach]: pair up the addresses
    with the corresponding marketKey. *)
Definition fileAddresses (markets : JsObject.t Market) (batch : list (Page * string))
    (data : ReturnData) (i : nat) (addressesByMarket : JsObject.t (list string))
    : Settled (JsObject.t (list string)) :=
  match nth_error batch i with
  | None => Rejected TypeError
  | Some (_, marketKey) =>
      match market_state markets marketKey with
      | Rejected e => Rejected e
      | Fulfilled _ =>
          match decode_addresses data with
          | Rejected e => Rejected e
          | Fulfilled addresses =>
              Fulfilled
                (JsObject.set marketKey
                   (default [] (JsObject.get marketKey addressesByMarket) ++ addresses)
                   addressesByMarket)
          end
      end
  end.

(** The body of the loop over the batches of pages. *)
Definition fetch_page_batch (rpcFunctionName : string) (markets : JsObject.t Market)
    (block : Block) (batch : list (Page * string))
    (addressesByMarket : JsObject.t (list string)) : Fetch (JsObject.t (list string)) :=
  fbind (settle (map_settled (getPageCall rpcFunctionName markets) batch))
    (fun getPageCalls =>
  fbind (aggregate eth_call getPageCalls (number block))
    (fun returnData =>
  settle (forEach_indexed (fileAddresses markets batch) returnData 0%nat
            addressesByMarket))).

(** The function with the limit on the calls of a request as a parameter,
    and as the source has it, at [MAX_ADDRESS_PAGE_CALLS]. *)
Definition getAddressesByLengths_limit (limit : nat) (lengthByMarket : JsObject.t N)
    (markets : JsObject.t Market) (block : Block) (type : PaginationEntityType)
    : Fetch (JsObject.t (list string)) :=
  let marketKeys := JsObject.keys lengthByMarket in
  fbind (settle (pages_of lengthByMarket marketKeys))
    (fun pages =>
  for_of (fetch_page_batch (page_function type) markets block)
    (chunk pages limit) []).

Definition getAddressesByLengths := getAddressesByLengths_limit MAX_ADDRESS_PAGE_CALLS.

(** *** What the address fetch is expected to return *)

(** The addresses read for one (page, market) on its own. *)
Definition read_page (rpcFunctionName : string) (markets : JsObject.t Market)
    (block : Block) (item : Page * string) : Settled (list string) :=
  match getPageCall rpcFunctionName markets item with
  | Rejected e => Rejected e
  | Fulfilled call =>
      match eth_call (number block) call with
      | None => Rejected CallException
      | Some data => decode_addresses data
      end
  end.

Definition page_ok (rpcFunctionName : string) (markets : JsObject.t Market)
    (block : Block) (item : (Page * string) * list string) : Prop :=
  read_page rpcFunctionName markets block (fst item) = Fulfilled (snd item).

Definition page_call (rpcFunctionName : string) (markets : JsObject.t Market)
    (item : Page * string) : Call :=
  match getPageCall rpcFunctionName markets item with
  | Fulfilled call => call
  | Rejected _ =>
      {| target := "";
         callData := {| functionName := rpcFunctionName; functionArgs := [] |} |}
  end.

(** Filing the addresses of the pages under their markets, in the order
    given. *)
Definition file_page (acc : JsObject.t (list string))
    (item : (Page * string) * list string) : JsObject.t (list string) :=
  JsObject.set (snd (fst item))
    (default [] (JsObject.get (snd (fst item)) acc) ++ snd item) acc.

Definition file_pages (items : list ((Page * string) * list string))
    (acc : JsObject.t (list string)) : JsObject.t (list string) :=
  fold_left file_page items acc.

(** The addresses of the pages of one market, in the order of the pages. *)
Definition addresses_of (marketKey : string)
    (items : list ((Page * string) * list string)) : list string :=
  flat_map
    (fun item => if String.eqb (snd (fst item)) marketKey then snd item else [])
    items.

(** Whether some page belongs to a market. *)
Definition has_page (marketKey : string)
    (items : list ((Page * string) * list string)) : bool :=
  existsb (fun item => String.eqb (snd (fst item)) marketKey) items.
End Pages.
End PerpsPaging.

(* ===================================================================== *)
(** ** [getPendingOrders] and [getOpenPositions]                          *)
(* ===================================================================== *)

Module PerpsFetch.
Import PerpsUtils PerpsPaging.

(** The messages of the module's logger and of [console.log]. *)
Inductive UtilsLog :=
| FetchingPositionsPinned (blockNumber : Z)
| FetchingAddresses (marketKey : string) (total : Z)
| FetchedAllPositions (total : Z)
| FetchingOrdersPinned (blockNumber : Z)
| ConsoleAddress (address : string)
| ConsoleAddresses (addresses : list string).

(** The calls made on a state contract itself, not through the aggregator:
    [state.associatedContracts()], and
    [state.connect(provider.getSigner(sender)).getPositionAddressesPage(from,
    size, { from: sender, blockTag })], where [sender] is [undefined] when
    the contract lists no associated contract. *)
Inductive DirectCall :=
| AssociatedContracts (state : string)
| PositionAddressesPage (state : string) (sender : option string)
    (start size blockTag : Z).

(** What a fetch leaves behind: the aggregate requests, the calls made
    directly on a state contract and the log calls, most recent first. *)
Record Trace := {
  requests : list (list Call * Z);
  directCalls : list DirectCall;
  logged : list UtilsLog
}.

Definition Traced (A : Type) : Type := Trace -> Settled A * Trace.

Definition tret {A} (a : A) : Traced A := fun t => (Fulfilled a, t).

Definition tbind {A B} (m : Traced A) (f : A -> Traced B) : Traced B :=
  fun t =>
    match m t with
    | (Fulfilled a, t') => f a t'
    | (Rejected e, t') => (Rejected e, t')
    end.

Definition tsettle {A} (s : Settled A) : Traced A := fun t => (s, t).

(** A fetch through the aggregator, within a traced function. *)
Definition lift {A} (m : Fetch A) : Traced A :=
  fun t =>
    let (r, issued) := m (requests t) in
    (r, {| requests := issued; directCalls := directCalls t; logged := logged t |}).

(** [logger.info(...)] and [console.log(...)]. *)
Definition info (entry : UtilsLog) : Traced unit :=
  fun t =>
    (Fulfilled tt,
     {| requests := requests t; directCalls := directCalls t;
        logged := entry :: logged t |}).

(** [for (const x ...) { ... await ... }] updating an accumulator. *)
Fixpoint tfor {A Acc} (body : A -> Acc -> Traced Acc) (xs : list A) (acc : Acc)
    : Traced Acc :=
  match xs with
  | [] => tret acc
  | x :: xs' => tbind (body x acc) (tfor body xs')
  end.

(** lodash [isEmpty] of an object: no own key. *)
Definition isEmpty {V} (o : JsObject.t V) : bool :=
  match o with [] => true | _ :: _ => false end.

Section Fetches.
Variable eth_call : Z -> Call -> option ReturnData.
Variable paginate : Z -> Z -> Z -> list Page.

(** What a direct call resolves to, both functions returning a list of
    addresses; [None] when the call rejects. *)
Variable direct : DirectCall -> option (list string).

Variable Num : Type.
Variable size_toNumber : Z -> Num.
Variable leverage_toNumber : Z -> Z -> Z -> Settled Num.

Definition direct_result (call : DirectCall) : Settled (list string) :=
  match direct call with
  | Some addresses => Fulfilled addresses
  | None => Rejected CallException
  end.

(** [await call]: one direct call, awaited. *)
Definition await_direct (call : DirectCall) : Traced (list string) :=
  fun t =>
    (direct_result call,
     {| requests := requests t; directCalls := call :: directCalls t;
        logged := logged t |}).

(** [await Promise.all(calls)]: the calls are all made before the first is
    awaited, the results come in the order of the calls, and a rejected call
    rejects the whole (of several rejected calls, the first of the list is
    taken here). *)
Definition promise_all (calls : list DirectCall) : Traced (list (list string)) :=
  fun t =>
    (map_settled direct_result calls,
     {| requests := requests t; directCalls := rev calls ++ directCalls t;
        logged := logged t |}).

(** *** [getPendingOrders] *)

Definition getPendingOrders (markets : JsObject.t Market) (block : Block)
    : Traced (JsObject.t (list DelayedOrder)) :=
  tbind (info (FetchingOrdersPinned (number block))) (fun _ =>
  (* Get total number of pending orders for each available market. *)
  tbind (lift (getAddressLengthByMarket eth_call markets block ORDER))
    (fun lengthByMarket =>
  (* There are no pending orders to index. *)
  if isEmpty lengthByMarket then tret []
  else
    (* For markets that have orders, fetch the actual addresses, paginated. *)
    tbind (lift (getAddressesByLengths eth_call paginate lengthByMarket markets block
                   ORDER))
      (fun addressesByMarket =>
    (* Finally, for all addresses, fetch the actual delayed order. *)
    lift (getOrdersByAddresses eth_call addressesByMarket markets block)))).

(** *** [getOpenPositions] *)

(** The page calls of one market, in the order of the pages. *)
Definition getPositionAddressesCalls (state : string) (sender : option string)
    (block : Block) (pages : list Page) : list DirectCall :=
  map (fun page =>
         PositionAddressesPage state sender (from page) (size page) (number block))
    pages.

(** The body of the loop over the markets of [lengthByMarket]. *)
Definition fetch_market_addresses (lengthByMarket : JsObject.t N)
    (markets : JsObject.t Market) (block : Block) (marketKey : string)
    (addressesByMarket : JsObject.t (list string))
    : Traced (JsObject.t (list string)) :=
  tbind (tsettle (market_state markets marketKey)) (fun state =>
  tbind (info (ConsoleAddress state)) (fun _ =>
  tbind (await_direct (AssociatedContracts state)) (fun associatedContracts =>
  let associatedContractAddress := nth_error associatedContracts 0 in
  tbind (tsettle match JsObject.get marketKey lengthByMarket with
                 | Some length => toNumber length
                 | None => Rejected TypeError
                 end) (fun total =>
  let pages := paginate 0 total MAX_ADDRESS_PAGE_SIZE in
  tbind (info (FetchingAddresses marketKey total)) (fun _ =>
  tbind (promise_all
           (getPositionAddressesCalls state associatedContractAddress block pages))
    (fun results =>
  let addresses := concat results in
  tbind (info (ConsoleAddresses addresses)) (fun _ =>
  tret (JsObject.set marketKey addresses addressesByMarket)))))))).

(** [sum(Object.values(lengthByMarket).map(l => l.toNumber()))] *)
Definition total_length (lengthByMarket : JsObject.t N) : Settled Z :=
  match map_settled toNumber (JsObject.values lengthByMarket) with
  | Fulfilled lengths => Fulfilled (fold_left Z.add lengths 0)
  | Rejected e => Rejected e
  end.

Definition getOpenPositions (markets : JsObject.t Market) (block : Block)
    : Traced (JsObject.t (list (Position Num))) :=
  tbind (info (FetchingPositionsPinned (number block))) (fun _ =>
  tbind (lift (getAddressLengthByMarket eth_call markets block POSITION))
    (fun lengthByMarket =>
  if isEmpty lengthByMarket then tret []
  else
    tbind (tfor (fetch_market_addresses lengthByMarket markets block)
             (JsObject.keys lengthByMarket) [])
      (fun addressesByMarket =>
    tbind (tsettle (total_length lengthByMarket)) (fun total =>
    tbind (info (FetchedAllPositions total)) (fun _ =>
    lift (getPositionsByAddresses eth_call Num size_toNumber leverage_toNumber
            addressesByMarket markets block)))))).
End Fetches.

(** The direct calls made for one market: the associated contracts, then
    the pages of its addresses, sent from the first associated contract. *)
Definition market_direct_calls (paginate : Z -> Z -> Z -> list Page)
    (count : string -> N) (associated : string -> list string)
    (markets : JsObject.t Market) (block : Block) (marketKey : string)
    : list DirectCall :=
  match JsObject.get marketKey markets with
  | Some m =>
      AssociatedContracts (state_address m)
        :: getPositionAddressesCalls (state_address m)
             (nth_error (associated marketKey) 0) block
             (paginate 0 (Z.of_N (count marketKey)) MAX_ADDRESS_PAGE_SIZE)
  | None => []
  end.

(** What the loop of [getOpenPositions] needs of one market: its state
    contract, a recorded length that is a safe integer, and answers to the
    direct calls made for it. *)
Definition readable_market (paginate : Z -> Z -> Z -> list Page)
    (direct : DirectCall -> option (list string)) (lengthByMarket : JsObject.t N)
    (markets : JsObject.t Market) (block : Block) (count : string -> N)
    (associated : string -> list string) (listed : string -> Page -> list string)
    (marketKey : string) : Prop :=
  exists m,
    JsObject.get marketKey markets = Some m /\
    JsObject.get marketKey lengthByMarket = Some (count marketKey) /\
    (count marketKey <= 9007199254740991)%N /\
    direct (AssociatedContracts (state_address m)) = Some (associated marketKey) /\
    forall page,
      In page (paginate 0 (Z.of_N (count marketKey)) MAX_ADDRESS_PAGE_SIZE) ->
      direct (PositionAddressesPage (state_address m)
                (nth_error (associated marketKey) 0) (from page) (size page)
                (number block))
      = Some (listed marketKey page).

(** State contracts that list the one associated contract "proxy", and
    answer a page call sent from it with the addresses of
    [Expected.paged_addresses]; a page call from another sender rejects. *)
Definition state_contracts (call : DirectCall) : option (list string) :=
  match call with
  | AssociatedContracts _ => Some ["proxy"]
  | PositionAddressesPage state (Some sender) start _ _ =>
      if String.eqb sender "proxy"
      then Some (if start =? 0 then [state; "0x1"; "0x2"] else ["0x3"])
      else None
  | PositionAddressesPage _ None _ _ _ => None
  end.

(** The markets whose count is above zero, in the order of the markets. *)
Definition with_entities (count : string -> N) (markets : JsObject.t Market)
    : list string :=
  List.filter (fun key => (0 <? count key)%N) (JsObject.keys markets).
End PerpsFetch.

(* ===================================================================== *)
(** ** The markets kept by [getPerpsContracts]                            *)
(* ===================================================================== *)

Module PerpsContracts.
Import Stdlib.Strings.Ascii.
Import PerpsUtils.

(** [Network] of [typed]: the two supported networks, and any other value. *)
Inductive Network :=
| OPT
| OPT_GOERLI
| OtherNetwork (name : string).

Definition UnsupportedNetwork : JsError :=
  {| err_code := None; err_text := "Unsupported Synthetix Network Name Mapping" |}.

Definition networkToSynthetixNetworkName (network : Network) : Settled string :=
  match network with
  | OPT => Fulfilled "mainnet-ovm"
  | OPT_GOERLI => Fulfilled "goerli-ovm"
  | OtherNetwork _ => Rejected UnsupportedNetwork
  end.

(** A contract object, by its address and ABI. *)
Record ContractRef := { c_address : string; c_abi : string }.

(** An entry of [marketManager.allMarketSummaries()], the fields read here;
    the market key and the asset are bytes32 values. *)
Record MarketSummary := {
  proxied : bool;
  market : string;
  marketKey : string;
  summary_asset : string
}.

(** The messages logged while the contracts are looked up. *)
Inductive SetupLog :=
| FoundContract (name address : string)
| SkippingNotProxied (marketKey market : string)
| SkippingNotExplicit (marketKey market : string)
| FoundMarket (marketKey market : string).

(** The lookups log as they go: the messages so far, most recent first. *)
Definition Setup (A : Type) : Type := list SetupLog -> Settled A * list SetupLog.

Definition sret {A} (a : A) : Setup A := fun logs => (Fulfilled a, logs).

Definition sbind {A B} (m : Setup A) (f : A -> Setup B) : Setup B :=
  fun logs =>
    match m logs with
    | (Fulfilled a, logs') => f a logs'
    | (Rejected e, logs') => (Rejected e, logs')
    end.

Definition ssettle {A} (s : Settled A) : Setup A := fun logs => (s, logs).

Definition logger_info (entry : SetupLog) : Setup unit :=
  fun logs => (Fulfilled tt, entry :: logs).

(** [marketKey.replace(/^s/, '')]: the key without one leading "s". *)
Definition replace_leading_s (key : string) : string :=
  match key with
  | String "s"%char rest => rest
  | _ => key
  end.

Section Registry.
(** The [synthetix] package: the ABI of [getSource({ network, contract })]
    and the address of [getTarget({ network, contract })], [None] where the
    package returns [undefined] (reading a property of it throws). *)
Variable getSource : string -> string -> option string.
Variable getTarget : string -> string -> option string.

(** [utils.parseBytes32String], which throws on a malformed value. *)
Variable parseBytes32String : string -> Settled string.

Definition getSynthetixContractByName (name : string) (network : Network)
    (source : option string) : Setup ContractRef :=
  sbind (ssettle (networkToSynthetixNetworkName network)) (fun snxNetwork =>
  sbind (ssettle match getSource snxNetwork (default name source) with
                 | Some abi => Fulfilled abi
                 | None => Rejected TypeError
                 end) (fun abi =>
  sbind (ssettle match getTarget snxNetwork name with
                 | Some address => Fulfilled address
                 | None => Rejected TypeError
                 end) (fun address =>
  sbind (logger_info (FoundContract name address)) (fun _ =>
  sret {| c_address := address; c_abi := abi |})))).

(** The callback of [marketSummaries.reduce].  The contract object that
    [getSynthetixContractByName] returns is never falsy, so the branch for a
    missing state is not taken. *)
Definition keepMarket (marketKeys : list string) (network : Network)
    (acc : JsObject.t Market) (summary : MarketSummary) : Setup (JsObject.t Market) :=
  sbind (ssettle (parseBytes32String (marketKey summary))) (fun marketKey =>
  if negb (proxied summary) then
    sbind (logger_info (SkippingNotProxied marketKey (market summary))) (fun _ =>
    sret acc)
  else if (0 <? length marketKeys)%nat && negb (existsb (String.eqb marketKey) marketKeys)
  then
    sbind (logger_info (SkippingNotExplicit marketKey (market summary))) (fun _ =>
    sret acc)
  else
    let stateContractName :=
      String.append "PerpsV2MarketState" (replace_leading_s marketKey) in
    sbind (getSynthetixContractByName stateContractName network
             (Some "PerpsV2MarketState")) (fun marketState =>
    sbind (logger_info (FoundMarket marketKey (market summary))) (fun _ =>
    sbind (ssettle (parseBytes32String (summary_asset summary))) (fun asset =>
    sret (JsObject.set marketKey
            {| contract := market summary;
               asset := asset;
               state_address := c_address marketState |} acc))))).

(** [marketSummaries.reduce(callback, {})] *)
Fixpoint reduce_markets (marketKeys : list string) (network : Network)
    (marketSummaries : list MarketSummary) (acc : JsObject.t Market)
    : Setup (JsObject.t Market) :=
  match marketSummaries with
  | [] => sret acc
  | summary :: rest =>
      sbind (keepMarket marketKeys network acc summary)
        (reduce_markets marketKeys network rest)
  end.

Definition keptMarkets (marketKeys : list string) (network : Network)
    (marketSummaries : list MarketSummary) : Setup (JsObject.t Market) :=
  reduce_markets marketKeys network marketSummaries [].
End Registry.

(** Whether a market is asked for: no explicit market, or listed. *)
Definition explicit (marketKeys : list string) (key : string) : bool :=
  negb (0 <? length marketKeys)%nat || existsb (String.eqb key) marketKeys.

(** A registry with the state contracts of sETH and sBTC on Optimism. *)
Definition registry_source (network contract : string) : option string :=
  if String.eqb network "mainnet-ovm" && String.eqb contract "PerpsV2MarketState"
  then Some "abi" else None.

Definition registry_target (network contract : string) : option string :=
  if String.eqb network "mainnet-ovm" then
    if String.eqb contract "PerpsV2MarketStateETH" then Some "0xE"
    else if String.eqb contract "PerpsV2MarketStateBTC" then Some "0xB"
    else None
  else None.

Definition summaries_3 : list MarketSummary :=
  [ {| proxied := true; market := "0x1"; marketKey := "sETH"; summary_asset := "ETH" |};
    {| proxied := false; market := "0x2"; marketKey := "sBTC"; summary_asset := "BTC" |};
    {| proxied := true; market := "0x3"; marketKey := "sLINK"; summary_asset := "LINK" |} ].
End PerpsContracts.

(* ===================================================================== *)
(** * Properties                                                          *)
(* ===================================================================== *)

Import KeeperJs IndexView InFlight Stages Listening Scenario.

Section JsObjectFacts.
Context {V : Type}.
Implicit Types (k : string) (v : V) (o : JsObject.t V).

Lemma get_set_eq k v o : JsObject.get k (JsObject.set k v o) = Some v.
Proof.
  induction o as [|[k' v'] o IH]; simpl.
  - now rewrite String.eqb_refl.
  - destruct (String.eqb k' k) eqn:E; simpl; rewrite E; auto.
Qed.

Lemma get_set_ne k k' v o :
  k <> k' -> JsObject.get k' (JsObject.set k v o) = JsObject.get k' o.
Proof.
  intros Hne. induction o as [|[k0 v0] o IH]; simpl.
  - destruct (String.eqb k k') eqn:E; auto.
    apply String.eqb_eq in E. contradiction.
  - destruct (String.eqb k0 k) eqn:E; simpl.
    + apply String.eqb_eq in E. subst k0.
      destruct (String.eqb k k') eqn:E'; auto.
      apply String.eqb_eq in E'. contradiction.
    + now rewrite IH.
Qed.

Lemma get_remove_eq k o : JsObject.get k (JsObject.remove k o) = None.
Proof.
  induction o as [|[k' v'] o IH]; simpl; auto.
  destruct (String.eqb k' k) eqn:E; simpl; auto. now rewrite E.
Qed.

Lemma get_remove_ne k k' o :
  k <> k' -> JsObject.get k' (JsObject.remove k o) = JsObject.get k' o.
Proof.
  intros Hne. induction o as [|[k0 v0] o IH]; simpl; auto.
  destruct (String.eqb k0 k) eqn:E; simpl.
  - apply String.eqb_eq in E. subst k0.
    destruct (String.eqb k k') eqn:E'; auto.
    apply String.eqb_eq in E'. contradiction.
  - now rewrite IH.
Qed.

(** Deleting a property the object does not have changes nothing, not even
    the order. *)
Lemma remove_absent k o : JsObject.get k o = None -> JsObject.remove k o = o.
Proof.
  induction o as [|[k' v'] o IH]; simpl; auto.
  destruct (String.eqb k' k) eqn:E; [discriminate|].
  intros Hk. now rewrite IH.
Qed.

Lemma get_None_keys k o : JsObject.get k o = None <-> ~ In k (JsObject.keys o).
Proof.
  induction o as [|[k' v'] o IH]; simpl; [tauto|].
  destruct (String.eqb k' k) eqn:E.
  - apply String.eqb_eq in E. split; [discriminate|]. intros Hn. destruct Hn. auto.
  - apply String.eqb_neq in E. rewrite IH. tauto.
Qed.
End JsObjectFacts.

(* --------------------------------------------------------------------- *)
(** ** The index under [updateIndex]                                      *)
(* --------------------------------------------------------------------- *)

Section IndexFacts.
Context {W : Type}.
Implicit Types (k : Keeper W) (ev : LogEvent) (events : list LogEvent).

(** A handler returns normally and changes the index as [index_step]
    says. *)
Lemma updateIndex_handler_spec ev k :
  fst (updateIndex_handler ev k) = Normal tt /\
  positions (snd (updateIndex_handler ev k)) = index_step ev (positions k).
Proof.
  unfold updateIndex_handler, index_step.
  destruct (event_is (event ev) "PositionModified").
  - destruct (Z.eqb (arg_size (args ev)) 0); split; reflexivity.
  - destruct (event_is (event ev) "PositionLiquidated"); [split; reflexivity|].
    destruct (event_is (event ev) "FundingRecomputed"); [split; reflexivity|].
    destruct (event_falsy (event ev) || event_matches (event ev) "OrderSubmitted");
      split; reflexivity.
Qed.

Lemma updateIndex_cons ev events k :
  updateIndex (ev :: events) k = updateIndex events (snd (updateIndex_handler ev k)).
Proof.
  unfold updateIndex. simpl. unfold bind.
  pose proof (updateIndex_handler_spec ev k) as [Hr _].
  destruct (updateIndex_handler ev k) as [r k']. simpl in *. now subst r.
Qed.

(** [updateIndex] never throws, and the index it leaves is the fold of
    [index_step] over the events. *)
Lemma updateIndex_spec events k :
  fst (updateIndex events k) = Normal tt /\
  index_after events k = fold_left (fun i ev => index_step ev i) events (positions k).
Proof.
  unfold index_after. revert k. induction events as [|ev events IH]; intros k.
  - split; reflexivity.
  - rewrite updateIndex_cons. destruct (IH (snd (updateIndex_handler ev k))) as [Hr Hp].
    split; [exact Hr|]. rewrite Hp. simpl.
    now destruct (updateIndex_handler_spec ev k) as [_ ->].
Qed.

(** Reading an account after a fold of events: the last write to it, or
    what was there. *)
Lemma get_fold_index_step account events (index : JsObject.t IndexEntry) :
  JsObject.get account (fold_left (fun i ev => index_step ev i) events index) =
  match last_write account events with
  | Some w => w
  | None => JsObject.get account index
  end.
Proof.
  revert index. induction events as [|ev events IH]; intros index; simpl; [reflexivity|].
  rewrite IH. destruct (last_write account events) as [w|]; [reflexivity|].
  unfold index_step.
  destruct (String.eqb (arg_account (args ev)) account) eqn:E.
  - apply String.eqb_eq in E. subst account.
    destruct (event_is (event ev) "PositionModified").
    + destruct (Z.eqb (arg_size (args ev)) 0).
      * apply get_remove_eq.
      * apply get_set_eq.
    + destruct (event_is (event ev) "PositionLiquidated"); [apply get_remove_eq|reflexivity].
  - apply String.eqb_neq in E.
    destruct (event_is (event ev) "PositionModified").
    + destruct (Z.eqb (arg_size (args ev)) 0).
      * now apply get_remove_ne.
      * now apply get_set_ne.
    + destruct (event_is (event ev) "PositionLiquidated"); [now apply get_remove_ne|reflexivity].
Qed.

(** Account by account, a second application of the same events changes
    nothing: every handler writes or deletes by key, none accumulates. *)
Lemma updateIndex_twice_same_entries events k account :
  JsObject.get account (index_after events (snd (updateIndex events k))) =
  JsObject.get account (index_after events k).
Proof.
  destruct (updateIndex_spec events (snd (updateIndex events k))) as [_ ->].
  change (positions (snd (updateIndex events k))) with (index_after events k).
  destruct (updateIndex_spec events k) as [_ ->].
  rewrite get_fold_index_step.
  destruct (last_write account events) eqn:E; [|reflexivity].
  now rewrite get_fold_index_step, E.
Qed.
End IndexFacts.

Lemma index_after_single {W} (ev : LogEvent) (k : Keeper W) :
  fst (updateIndex [ev] k) = Normal tt /\
  index_after [ev] k = index_step ev (positions k).
Proof. exact (updateIndex_spec [ev] k). Qed.

(** C3 (as the code has it). Applying a [PositionModified] event returns
    normally; with size zero it removes the account's entry, with a nonzero
    size it puts in (or overwrites in place) the entry
    [{ id, event, account, size }] carrying the event's id and size; the
    entry has no leverage property; no other account is touched; and a
    modification to size 5 followed by one to size 0, applied to the empty
    index of a new keeper, leaves no entry for the account. *)
Theorem updateIndex_PositionModified {W} (k : Keeper W) (ev : LogEvent) :
  event ev = Some "PositionModified" ->
  let account := arg_account (args ev) in
  let size := arg_size (args ev) in
  let stored := {| entry_id := arg_id (args ev);
                   entry_event := "PositionModified";
                   entry_account := account;
                   entry_size := size |} in
  fst (updateIndex [ev] k) = Normal tt /\
  index_after [ev] k =
    (if Z.eqb size 0 then JsObject.remove account (positions k)
     else JsObject.set account stored (positions k)) /\
  JsObject.get account (index_after [ev] k) =
    (if Z.eqb size 0 then None else Some stored) /\
  entry_prop stored "leverage" = None /\
  (forall other, other <> account ->
     JsObject.get other (index_after [ev] k) = JsObject.get other (positions k)) /\
  (forall (w : W) id,
     index_after [PositionModified id "0xA" 5; PositionModified id "0xA" 0]
       (constructor w) = []).
Proof.
  intros Hev account size stored.
  destruct (index_after_single ev k) as [Hr Hi].
  assert (Hstep : index_step ev (positions k) =
            if Z.eqb size 0 then JsObject.remove account (positions k)
            else JsObject.set account stored (positions k)).
  { unfold index_step. rewrite Hev. simpl. reflexivity. }
  rewrite Hi, Hstep.
  repeat split; auto.
  - destruct (Z.eqb size 0); [apply get_remove_eq | apply get_set_eq].
  - intros other Hne.
    destruct (Z.eqb size 0); [now apply get_remove_ne | now apply get_set_ne].
Qed.

Lemma updateIndex_PositionModified_witness :
  JsObject.get "0xA" (index_after [PositionModified 7 "0xA" 5] (constructor tt)) =
    Some {| entry_id := 7; entry_event := "PositionModified";
            entry_account := "0xA"; entry_size := 5 |}.
Proof.
  exact (proj1 (proj2 (proj2
    (updateIndex_PositionModified (constructor tt) (PositionModified 7 "0xA" 5)
       eq_refl)))).
Defined.

(** C3, as stated, fails: the entry stored for a nonzero size has the new
    size but no leverage. *)
Lemma updateIndex_stores_no_leverage :
  ~ (exists entry leverage,
       JsObject.get "0xA" (index_after [PositionModified 7 "0xA" 5] (constructor tt))
         = Some entry /\
       entry_size entry = 5 /\
       entry_prop entry "leverage" = Some leverage).
Proof.
  intros (entry & leverage & Hget & _ & Hlev).
  vm_compute in Hget. injection Hget as <-. vm_compute in Hlev. discriminate.
Qed.

(** C9. Applying a [PositionLiquidated] event returns normally (no error)
    and removes the account's entry whatever the index holds; no other
    account is touched; and when the index has no entry for the account it
    is left as it was. *)
Theorem updateIndex_PositionLiquidated {W} (k : Keeper W) (ev : LogEvent) :
  event ev = Some "PositionLiquidated" ->
  let account := arg_account (args ev) in
  fst (updateIndex [ev] k) = Normal tt /\
  index_after [ev] k = JsObject.remove account (positions k) /\
  JsObject.get account (index_after [ev] k) = None /\
  (forall other, other <> account ->
     JsObject.get other (index_after [ev] k) = JsObject.get other (positions k)) /\
  (JsObject.get account (positions k) = None -> index_after [ev] k = positions k).
Proof.
  intros Hev account.
  destruct (index_after_single ev k) as [Hr Hi].
  assert (Hstep : index_step ev (positions k) = JsObject.remove account (positions k)).
  { unfold index_step. rewrite Hev. reflexivity. }
  rewrite Hi, Hstep. repeat split; auto.
  - apply get_remove_eq.
  - intros other Hne. now apply get_remove_ne.
  - apply remove_absent.
Qed.

Lemma updateIndex_PositionLiquidated_witness :
  index_after [PositionLiquidated 7 "0xA" "0xB"]
    (with_positions (fun _ => [("0xC", {| entry_id := 3; entry_event := "PositionModified";
                                          entry_account := "0xC"; entry_size := 2 |})])
       (constructor tt))
  = [("0xC", {| entry_id := 3; entry_event := "PositionModified";
                entry_account := "0xC"; entry_size := 2 |})].
Proof.
  apply (updateIndex_PositionLiquidated
           (with_positions (fun _ => [("0xC", {| entry_id := 3; entry_event := "PositionModified";
                                                 entry_account := "0xC"; entry_size := 2 |})])
              (constructor tt))
           (PositionLiquidated 7 "0xA" "0xB") eq_refl).
  reflexivity.
Defined.



(* --------------------------------------------------------------------- *)
(** ** Keeper tasks: at most one in flight per id                         *)
(* --------------------------------------------------------------------- *)

Section TaskFacts.
Context {W : Type} `{Chain W}.
Implicit Types (k : Keeper W) (id : N) (taskLabel : string) (cb : Callback W).

Lemma task_active_insert id id' (tasks : gmap N bool) :
  task_active (<[id := true]> tasks) id' =
  if N.eqb id id' then true else task_active tasks id'.
Proof.
  unfold task_active. destruct (N.eqb_spec id id') as [->|Hne].
  - now rewrite lookup_insert_eq.
  - now rewrite lookup_insert_ne.
Qed.

Lemma task_active_delete id id' (tasks : gmap N bool) :
  task_active (delete id tasks) id' =
  if N.eqb id id' then false else task_active tasks id'.
Proof.
  unfold task_active. destruct (N.eqb_spec id id') as [->|Hne].
  - now rewrite lookup_delete_eq.
  - now rewrite lookup_delete_ne.
Qed.

(** The first half, case by case. *)
Lemma enter_active id taskLabel k :
  task_active (activeKeeperTasks k) id = true ->
  enter id taskLabel k = (Normal false, k).
Proof. intros Ha. unfold enter, bind, gets. simpl. now rewrite Ha. Qed.

Lemma enter_idle id taskLabel k :
  task_active (activeKeeperTasks k) id = false ->
  fst (enter id taskLabel k) = Normal true /\
  activeKeeperTasks (snd (enter id taskLabel k)) = <[id := true]> (activeKeeperTasks k).
Proof. intros Ha. unfold enter, bind, gets. simpl. rewrite Ha. split; reflexivity. Qed.

(** What a method throws, its arrow function rejects with. *)
Lemma arrow_spec (m : M W unit) k :
  arrow m k =
  match m k with
  | (Normal _, k') => (Returns, k')
  | (Thrown e, k') => (Rejects (CaughtError e), k')
  | (Exited status, k') => (Exits status, k')
  end.
Proof. reflexivity. Qed.

(** The second half removes the id when the action has returned or has
    rejected with an error that can be read. *)
Lemma resume_settled id taskLabel (r : Outcome) k :
  r = Returns \/ (exists e, r = Rejects (CaughtError e)) ->
  fst (resume id taskLabel r k) = Normal tt /\
  activeKeeperTasks (snd (resume id taskLabel r k)) = delete id (activeKeeperTasks k).
Proof. intros [->|[e ->]]; split; reflexivity. Qed.

(** A rejection with [undefined] or [null] makes the handler throw: the
    second half stops there, the id is not removed. *)
Lemma resume_nullish id taskLabel k :
  resume id taskLabel (Rejects CaughtNullish) k = (Thrown NullishRead, k).
Proof. reflexivity. Qed.

Lemma resume_exited id taskLabel status k :
  resume id taskLabel (Exits status) k = (Exited status, k).
Proof. reflexivity. Qed.

(** [runKeeperTask] is its first half, the action, then its second half. *)
Lemma runKeeperTask_halves id taskLabel cb k :
  runKeeperTask id taskLabel cb k =
  match enter id taskLabel k with
  | (Normal true, started) =>
      resume id taskLabel (fst (cb started)) (snd (cb started))
  | (_, k') => (Normal tt, k')
  end.
Proof.
  unfold runKeeperTask, enter, bind, gets. simpl.
  destruct (task_active (activeKeeperTasks k) id); [reflexivity|].
  simpl. unfold try_await, resume, bind.
  destruct (cb _) as [[|[e|]|status] k2]; reflexivity.
Qed.
End TaskFacts.

Section PoolFacts.
Context {W : Type} `{Chain W}.
Implicit Types (p : Pool W) (id : N).

Lemma filter_remove_one_same id (ids : list N) :
  existsb (N.eqb id) ids = true ->
  S (length (List.filter (N.eqb id) (remove_one id ids))) =
  length (List.filter (N.eqb id) ids).
Proof.
  induction ids as [|x ids IH]; simpl; [discriminate|].
  rewrite (N.eqb_sym x id). destruct (N.eqb id x) eqn:E; simpl; [reflexivity|].
  intros Hex. rewrite E. now apply IH.
Qed.

Lemma filter_remove_one_other id id' (ids : list N) :
  id <> id' ->
  List.filter (N.eqb id') (remove_one id ids) = List.filter (N.eqb id') ids.
Proof.
  intros Hne. induction ids as [|x ids IH]; simpl; [reflexivity|].
  destruct (N.eqb_spec x id) as [->|Hx].
  - destruct (N.eqb_spec id' id) as [->|_]; [contradiction|reflexivity].
  - simpl. now rewrite IH.
Qed.

Lemma pool_inv_start (w : W) : pool_inv (pool_start w).
Proof. intros id. reflexivity. Qed.

(** A step that is no rejection with [undefined] or [null] keeps the
    running-set and the invocations in flight in step. *)
Lemma pool_step_inv ev p p' :
  pool_inv p ->
  match ev with Settle _ _ (Some CaughtNullish) => False | _ => True end ->
  pool_step ev p = Some p' -> pool_inv p'.
Proof.
  intros Hinv Hev Hstep.
  destruct ev as [id taskLabel|id taskLabel failure|f]; simpl in Hstep.
  - (* a call *)
    destruct (task_active (activeKeeperTasks (keeper p)) id) eqn:Ha.
    + rewrite (enter_active id taskLabel _ Ha) in Hstep.
      injection Hstep as <-. exact Hinv.
    + destruct (enter_idle id taskLabel _ Ha) as [Hr Ht].
      destruct (enter id taskLabel (keeper p)) as [r k']. simpl in Hr, Ht. subst r.
      injection Hstep as <-. intros id'. unfold in_flight. simpl.
      rewrite Ht, task_active_insert, (N.eqb_sym id' id).
      specialize (Hinv id'). unfold in_flight in Hinv.
      destruct (N.eqb_spec id id') as [<-|Hne]; simpl.
      * now rewrite Hinv, Ha.
      * exact Hinv.
  - (* a settlement *)
    destruct (existsb (N.eqb id) (suspended p)) eqn:Hex; [|discriminate].
    injection Hstep as <-. intros id'. unfold in_flight. simpl.
    assert (Ht : activeKeeperTasks
                   (snd (resume id taskLabel
                           match failure with Some err => Rejects err | None => Returns end
                           (keeper p)))
                 = delete id (activeKeeperTasks (keeper p))).
    { apply resume_settled. destruct failure as [[e|]|]; [right; eauto|contradiction|now left]. }
    rewrite Ht, task_active_delete.
    destruct (N.eqb_spec id id') as [<-|Hne].
    + pose proof (filter_remove_one_same id _ Hex) as Hcount.
      specialize (Hinv id). unfold in_flight in Hinv. rewrite Hinv in Hcount.
      destruct (task_active (activeKeeperTasks (keeper p)) id); lia.
    + rewrite (filter_remove_one_other id id' _ Hne). exact (Hinv id').
  - (* other code *)
    injection Hstep as <-. exact Hinv.
Qed.

Lemma pool_run_inv evs p p' :
  pool_inv p -> readable_rejections evs -> pool_run evs p = Some p' -> pool_inv p'.
Proof.
  revert p. induction evs as [|ev evs IH]; intros p Hinv Hevs Hrun; simpl in Hrun.
  - now injection Hrun as <-.
  - inversion Hevs as [|? ? Hev Hrest]; subst.
    destruct (pool_step ev p) as [p1|] eqn:Hstep; [|discriminate].
    exact (IH p1 (pool_step_inv ev p p1 Hinv Hev Hstep) Hrest Hrun).
Qed.

Lemma pool_inv_bound p : pool_inv p -> pool_bound p.
Proof. intros Hinv id. rewrite (Hinv id). lia. Qed.

(** Whatever the settlements, never more than one invocation in flight for
    an id, and none for an id outside the running-set. *)
Lemma pool_step_bound ev p p' :
  pool_bound p -> pool_step ev p = Some p' -> pool_bound p'.
Proof.
  intros Hb Hstep.
  destruct ev as [id taskLabel|id taskLabel failure|f]; simpl in Hstep.
  - (* a call *)
    destruct (task_active (activeKeeperTasks (keeper p)) id) eqn:Ha.
    + rewrite (enter_active id taskLabel _ Ha) in Hstep.
      injection Hstep as <-. exact Hb.
    + destruct (enter_idle id taskLabel _ Ha) as [Hr Ht].
      destruct (enter id taskLabel (keeper p)) as [r k']. simpl in Hr, Ht. subst r.
      injection Hstep as <-. intros id'. unfold in_flight. simpl.
      rewrite Ht, task_active_insert, (N.eqb_sym id' id).
      specialize (Hb id'). unfold in_flight in Hb.
      destruct (N.eqb_spec id id') as [<-|Hne]; simpl.
      * rewrite Ha in Hb. lia.
      * exact Hb.
  - (* a settlement *)
    destruct (existsb (N.eqb id) (suspended p)) eqn:Hex; [|discriminate].
    injection Hstep as <-. intros id'. unfold in_flight. simpl.
    destruct (N.eqb_spec id id') as [<-|Hne].
    + pose proof (filter_remove_one_same id _ Hex) as Hcount.
      specialize (Hb id). unfold in_flight in Hb.
      destruct (task_active (activeKeeperTasks (keeper p)) id); [|lia].
      destruct (task_active _ id); lia.
    + rewrite (filter_remove_one_other id id' _ Hne).
      specialize (Hb id').
      assert (Hsame : task_active
                (activeKeeperTasks
                   (snd (resume id taskLabel
                           match failure with Some err => Rejects err | None => Returns end
                           (keeper p)))) id'
              = task_active (activeKeeperTasks (keeper p)) id').
      { destruct failure as [[e|]|]; simpl;
          rewrite ?task_active_delete; destruct (N.eqb_spec id id'); congruence. }
      rewrite Hsame. exact Hb.
  - (* other code *)
    injection Hstep as <-. exact Hb.
Qed.

Lemma pool_run_bound evs p p' :
  pool_bound p -> pool_run evs p = Some p' -> pool_bound p'.
Proof.
  revert p. induction evs as [|ev evs IH]; intros p Hb Hrun; simpl in Hrun.
  - now injection Hrun as <-.
  - destruct (pool_step ev p) as [p1|] eqn:Hstep; [|discriminate].
    exact (IH p1 (pool_step_bound ev p p1 Hb Hstep) Hrun).
Qed.

(** A call for an id that has an invocation in flight changes nothing: no
    second invocation of an action, nothing queued. *)
Lemma call_while_in_flight p id taskLabel :
  pool_bound p -> (0 < in_flight id p)%nat -> pool_step (Call id taskLabel) p = Some p.
Proof.
  intros Hb Hpos. simpl. specialize (Hb id).
  destruct (task_active (activeKeeperTasks (keeper p)) id) eqn:Ha; [|lia].
  rewrite (enter_active id taskLabel _ Ha). now destruct p.
Qed.

End PoolFacts.



(* --------------------------------------------------------------------- *)
(** ** Submission failures                                                *)
(* --------------------------------------------------------------------- *)

Section SubmissionFacts.
Context {W : Type} `{Chain W}.
Implicit Types (k : Keeper W) (id : N) (account : string) (err : JsError).

Lemma code_is_truthy err :
  code_is (err_code err) "NONCE_EXPIRED" = true -> code_truthy (err_code err) = true.
Proof.
  unfold code_is, code_truthy. destruct (err_code err) as [[s|n]|]; try discriminate.
  intros Hs. apply String.eqb_eq in Hs. now subst s.
Qed.

(** A rejected nonce: the failure is recorded and logged, and the process
    exits with status -1. *)
Lemma liquidateOrder_fatal k id account err w1 k2 :
  futuresMarket_canLiquidate account (world k) = (Fulfilled true, w1) ->
  liquidateOrder_try id account (submitting id w1 k) = (Thrown err, k2) ->
  code_is (err_code err) "NONCE_EXPIRED" = true ->
  liquidateOrder id account k = (Exited (-1), halted err k2).
Proof.
  intros Hcan Htry Hcode.
  unfold liquidateOrder, bind at 1, await. rewrite Hcan. simpl.
  unfold bind at 1. unfold log at 1, modify at 1.
  unfold bind at 1, try_catch.
  change (with_logger _ (with_world w1 k)) with (submitting id w1 k).
  rewrite Htry.
  unfold bind at 1, gets. unfold bind at 1. simpl.
  rewrite (code_is_truthy err Hcode), Hcode. reflexivity.
Qed.

(** Any other failure: the failure is recorded and the error thrown on. *)
Lemma liquidateOrder_rethrows k id account err w1 k2 :
  futuresMarket_canLiquidate account (world k) = (Fulfilled true, w1) ->
  liquidateOrder_try id account (submitting id w1 k) = (Thrown err, k2) ->
  code_is (err_code err) "NONCE_EXPIRED" = false ->
  liquidateOrder id account k = (Thrown err, failure_recorded k2).
Proof.
  intros Hcan Htry Hcode.
  unfold liquidateOrder, bind at 1, await. rewrite Hcan. simpl.
  unfold bind at 1. unfold log at 1, modify at 1.
  unfold bind at 1, try_catch.
  change (with_logger _ (with_world w1 k)) with (submitting id w1 k).
  rewrite Htry.
  unfold bind at 1, gets. unfold bind at 1. simpl.
  rewrite Hcode. destruct (code_truthy (err_code err)); reflexivity.
Qed.
End SubmissionFacts.

Section PassFacts.
Context {W : Type} `{Chain W}.
Implicit Types (k : Keeper W) (id : N) (err : JsError).

Lemma bind_run {A B} (m : M W A) (f : A -> M W B) k a k1 :
  m k = (Normal a, k1) -> bind m f k = f a k1.
Proof. intros Hm. unfold bind. now rewrite Hm. Qed.

Lemma bind_exit {A B} (m : M W A) (f : A -> M W B) k status k1 :
  m k = (Exited status, k1) -> bind m f k = (Exited status, k1).
Proof. intros Hm. unfold bind. now rewrite Hm. Qed.

Lemma forEach_app {A} (body : A -> M W unit) xs ys k :
  forEach body (xs ++ ys) k =
  match forEach body xs k with
  | (Normal _, k1) => forEach body ys k1
  | r => r
  end.
Proof.
  revert k. induction xs as [|x xs IH]; intros k; simpl; [reflexivity|].
  unfold bind. destruct (body x k) as [[[]|err|status] k1]; auto.
Qed.

(** An exit inside the action leaves [runKeeperTask] as an exit: its
    [catch] does not see it. *)
Lemma runKeeperTask_exits id taskLabel (action : Callback W) k status k' :
  task_active (activeKeeperTasks k) id = false ->
  action (snd (enter id taskLabel k)) = (Exits status, k') ->
  runKeeperTask id taskLabel action k = (Exited status, k').
Proof.
  intros Ha Hact. rewrite runKeeperTask_halves.
  destruct (enter_idle id taskLabel k Ha) as [Hr _].
  destruct (enter id taskLabel k) as [r k1]. simpl in *. subst r.
  now rewrite Hact.
Qed.

(** An error thrown by the action stops at [runKeeperTask]. *)
Lemma runKeeperTask_contains id taskLabel (action : Callback W) k err k' :
  task_active (activeKeeperTasks k) id = false ->
  action (snd (enter id taskLabel k)) = (Rejects (CaughtError err), k') ->
  runKeeperTask id taskLabel action k = (Normal tt, contained id taskLabel err k').
Proof.
  intros Ha Hact. rewrite runKeeperTask_halves.
  destruct (enter_idle id taskLabel k Ha) as [Hr _].
  destruct (enter id taskLabel k) as [r k1]. simpl in *. subst r.
  now rewrite Hact.
Qed.

Lemma runKeepers_offers k :
  runKeepers k = forEach keeper_task (JsObject.values (positions k)) (pass_announced k).
Proof. reflexivity. Qed.

(** A task that exits ends the pass: the positions behind it are not
    offered. *)
Lemma runKeepers_exits k before entry after k1 status k' :
  JsObject.values (positions k) = before ++ entry :: after ->
  forEach keeper_task before (pass_announced k) = (Normal tt, k1) ->
  keeper_task entry k1 = (Exited status, k') ->
  runKeepers k = (Exited status, k').
Proof.
  intros Hv Hb He. rewrite runKeepers_offers, Hv, forEach_app, Hb. simpl.
  now apply bind_exit.
Qed.

Lemma forEach_log_normal {A} (msg : A -> Message) (lvl : string) (l : list A) k :
  fst (forEach (fun x => log lvl (msg x) None) l k) = Normal tt.
Proof. revert k. induction l as [|x l IH]; intros k; simpl; [reflexivity|apply IH]. Qed.

(** A pass that exits ends the turn of the loop that started it. *)
Lemma run_loop_turn_exits k b rest events rates wa wb status k' :
  blockQueue k = b :: rest ->
  futuresMarket_queryFilter b (Some b) (world k) = (Fulfilled events, wa) ->
  exchangeRates_queryFilter b (Some b) wa = (Fulfilled rates, wb) ->
  runKeepers (block_indexed b rest events rates wb k) = (Exited status, k') ->
  run_loop_turn k = (Exited status, k').
Proof.
  intros Hq Hev Hrates Hpass.
  unfold run_loop_turn. unfold bind at 1, gets. rewrite Hq.
  unfold bind at 1, modify. unfold processNewBlock.
  unfold bind at 1. unfold bind at 1, await. simpl. rewrite Hev.
  unfold bind at 1. simpl. rewrite Hrates.
  unfold bind at 1, log at 1, modify.
  unfold bind at 1.
  unfold block_indexed in Hpass.
  set (s0 := log_call "debug" (ProcessingBlock b) (Some Indexer)
               (with_world wb (with_blockTip (Some b)
                  (with_blockQueue (fun _ => rest) k)))) in Hpass.
  change (with_logger _ (with_world wb (with_world wa _))) with s0.
  pose proof (forEach_log_normal
                (fun ev : LogEvent => ExchangeRatesEvent (default "" (event ev)))
                "debug" (List.filter is_rate_event rates) s0) as Hlogs.
  destruct (forEach _ (List.filter is_rate_event rates) s0) as [r kl].
  simpl in Hlogs, Hpass. subst r.
  unfold bind at 1, log at 1, modify.
  unfold bind at 1.
  change (with_logger _ kl)
    with (log_call "debug" (EventsToProcess (length events)) (Some Indexer) kl).
  pose proof (updateIndex_spec events
                (log_call "debug" (EventsToProcess (length events)) (Some Indexer) kl))
    as [Hret _].
  destruct (updateIndex events _) as [r ki].
  simpl in Hret, Hpass. subst r. exact Hpass.
Qed.

(** Once a turn has exited, nothing that arrives later is served. *)
Lemma run_listening_exits arrivals k0 k status k' more :
  run_listening arrivals k0 = (Normal tt, k) ->
  run_loop_turn k = (Exited status, k') ->
  run_listening (arrivals ++ LoopTurn :: more) k0 = (Exited status, k').
Proof.
  intros Hpre Hturn. revert k0 Hpre.
  induction arrivals as [|a arrivals IH]; intros k0 Hpre.
  - injection Hpre as <-. cbn [app run_listening serve]. now rewrite Hturn.
  - cbn [app run_listening] in *.
    destruct (serve a k0) as [[[]|e|c] k1]; [now apply IH|discriminate|discriminate].
Qed.
End PassFacts.

Section ErrorClassification.
Context {W : Type} `{Chain W}.
Implicit Types (k : Keeper W) (id : N) (err : JsError).

Lemma code_is_spec err lit :
  code_is (err_code err) lit = true <-> err_code err = Some (CodeStr lit).
Proof.
  unfold code_is. destruct (err_code err) as [[s|n]|]; split; try discriminate.
  - intros Hs. apply String.eqb_eq in Hs. now subst s.
  - intros [= ->]. apply String.eqb_refl.
Qed.

(** C4. When the submission of a liquidation fails with the error code
    NONCE_EXPIRED, [liquidateOrder] records the failed outcome, logs the
    error and ends the process with exit status -1 (not zero); the exit
    passes through [runKeeperTask], ends the pass of [runKeepers] before the
    positions behind are offered, ends the turn of the loop, and nothing
    that arrives afterwards (no block, no turn, so no pass) is served. *)
Theorem nonce_expired_halts k id account err w1 k2 :
  futuresMarket_canLiquidate account (world k) = (Fulfilled true, w1) ->
  liquidateOrder_try id account (submitting id w1 k) = (Thrown err, k2) ->
  err_code err = Some (CodeStr "NONCE_EXPIRED") ->
  liquidateOrder id account k = (Exited (-1), halted err k2) /\
  -1 <> 0 /\
  (forall k0 taskLabel,
     task_active (activeKeeperTasks k0) id = false ->
     snd (enter id taskLabel k0) = k ->
     runKeeperTask id taskLabel (arrow (liquidateOrder id account)) k0
       = (Exited (-1), halted err k2)) /\
  (forall kp before entry after k1 status k',
     JsObject.values (positions kp) = before ++ entry :: after ->
     forEach keeper_task before (pass_announced kp) = (Normal tt, k1) ->
     keeper_task entry k1 = (Exited status, k') ->
     runKeepers kp = (Exited status, k')) /\
  (forall k0 b rest events rates wa wb status k',
     blockQueue k0 = b :: rest ->
     futuresMarket_queryFilter b (Some b) (world k0) = (Fulfilled events, wa) ->
     exchangeRates_queryFilter b (Some b) wa = (Fulfilled rates, wb) ->
     runKeepers (block_indexed b rest events rates wb k0) = (Exited status, k') ->
     run_loop_turn k0 = (Exited status, k')) /\
  (forall arrivals kstart k0 status k' more,
     run_listening arrivals kstart = (Normal tt, k0) ->
     run_loop_turn k0 = (Exited status, k') ->
     run_listening (arrivals ++ LoopTurn :: more) kstart = (Exited status, k')).
Proof.
  intros Hcan Htry Hcode.
  assert (Hfatal : liquidateOrder id account k = (Exited (-1), halted err k2)).
  { apply (liquidateOrder_fatal k id account err w1 k2 Hcan Htry).
    now apply code_is_spec. }
  split; [exact Hfatal|]. split; [lia|]. split; [|split; [|split]].
  - intros k0 taskLabel Hidle Hk. apply runKeeperTask_exits; [exact Hidle|].
    now rewrite Hk, arrow_spec, Hfatal.
  - intros kp before entry after k1 status k'. apply runKeepers_exits.
  - intros k0 b rest events rates wa wb status k'. apply run_loop_turn_exits.
  - intros arrivals kstart k0 status k' more. apply run_listening_exits.
Qed.

(** C5. When the submission of a liquidation fails with any error whose
    code is not NONCE_EXPIRED, [liquidateOrder] records a failed outcome and
    throws the same error on; [runKeeperTask] catches it, logs it, counts it
    on the error counter and returns normally with the id removed.  An
    action that ends the process instead is not contained: [runKeeperTask]
    ends with the same exit. *)
Theorem submission_error_contained k id account err w1 k2 :
  futuresMarket_canLiquidate account (world k) = (Fulfilled true, w1) ->
  liquidateOrder_try id account (submitting id w1 k) = (Thrown err, k2) ->
  err_code err <> Some (CodeStr "NONCE_EXPIRED") ->
  liquidateOrder id account k = (Thrown err, failure_recorded k2) /\
  metrics (failure_recorded k2) =
    FuturesLiquidationsObserve (baseAsset k2) false :: metrics k2 /\
  (forall k0 taskLabel,
     task_active (activeKeeperTasks k0) id = false ->
     snd (enter id taskLabel k0) = k ->
     let after := contained id taskLabel err (failure_recorded k2) in
     runKeeperTask id taskLabel (arrow (liquidateOrder id account)) k0
       = (Normal tt, after) /\
     logger after =
       {| level := "info"; message := Done;
          component := Some (KeeperTaskComponent taskLabel id) |}
       :: {| level := "error"; message := ErrorMsg err;
             component := Some (KeeperTaskComponent taskLabel id) |}
       :: logger k2 /\
     metrics after =
       KeeperErrorsObserve (baseAsset k2)
       :: FuturesLiquidationsObserve (baseAsset k2) false :: metrics k2 /\
     task_active (activeKeeperTasks after) id = false) /\
  (forall k0 taskLabel (action : Callback W) status k',
     task_active (activeKeeperTasks k0) id = false ->
     action (snd (enter id taskLabel k0)) = (Exits status, k') ->
     runKeeperTask id taskLabel action k0 = (Exited status, k')).
Proof.
  intros Hcan Htry Hcode.
  assert (Hthrow : liquidateOrder id account k = (Thrown err, failure_recorded k2)).
  { apply (liquidateOrder_rethrows k id account err w1 k2 Hcan Htry).
    destruct (code_is (err_code err) "NONCE_EXPIRED") eqn:E; [|reflexivity].
    apply code_is_spec in E. contradiction. }
  split; [exact Hthrow|]. split; [reflexivity|]. split.
  - intros k0 taskLabel Hidle Hk after. subst after.
    split; [|split; [reflexivity|split; [reflexivity|]]].
    + apply runKeeperTask_contains; [exact Hidle|].
      now rewrite Hk, arrow_spec, Hthrow.
    + unfold contained. simpl. rewrite task_active_delete, N.eqb_refl. reflexivity.
  - intros k0 taskLabel action status k'. apply runKeeperTask_exits.
Qed.
End ErrorClassification.

Lemma nonce_expired_halts_witness :
  liquidateOrder (H := refusing_chain nonce_expired) 7 "0xA" (constructor tt)
  = (Exited (-1),
     halted nonce_expired
       (submitting 7 tt (constructor tt))).
Proof.
  apply (nonce_expired_halts (H := refusing_chain nonce_expired)
           (constructor tt) 7 "0xA" nonce_expired tt
           (submitting 7 tt (constructor tt))
           eq_refl eq_refl eq_refl).
Defined.

(** On a chain that refuses every submission with NONCE_EXPIRED, the turn
    that processes block 101 ends the process with status -1 while the
    first position is being liquidated: the second position is not offered,
    block 102 is not queued, and the later turn is not served. *)
Example nonce_expired_run :
  let end_of_run :=
    run_listening (H := refusing_chain nonce_expired)
      [LoopTurn; BlockNotification 102; LoopTurn] two_positions_keeper in
  fst end_of_run = Exited (-1) /\
  blockTip (snd end_of_run) = Some 101 /\
  blockQueue (snd end_of_run) = [] /\
  metrics (snd end_of_run) =
    [FuturesLiquidationsObserve (Some "sETH") false;
     FuturesOpenPositionsSet (Some "sETH") 2] /\
  map message (logger (snd end_of_run)) =
    [ErrorText nonce_expired; BeginLiquidatePosition; Running; PositionsToKeep 2;
     EventsToProcess 0; ProcessingBlock 101].
Proof. vm_compute. repeat split. Qed.

(** On a chain that refuses every submission for lack of funds, the same
    arrivals are all served: both positions are offered in both passes, four
    failures are counted, and no task is left in the running-set. *)
Example insufficient_funds_run :
  let end_of_run :=
    run_listening (H := refusing_chain insufficient_funds)
      [LoopTurn; BlockNotification 102; LoopTurn] two_positions_keeper in
  fst end_of_run = Normal tt /\
  blockTip (snd end_of_run) = Some 102 /\
  blockQueue (snd end_of_run) = [] /\
  length (List.filter
            (fun m => match m with KeeperErrorsObserve _ => true | _ => false end)
            (metrics (snd end_of_run))) = 4%nat /\
  activeKeeperTasks (snd end_of_run) = ∅.
Proof. vm_compute. repeat split. Qed.

Lemma submission_error_contained_witness :
  runKeeperTask 7 "liquidation"
    (arrow (liquidateOrder (H := refusing_chain insufficient_funds) 7 "0xA"))
    (constructor tt)
  = (Normal tt,
     contained 7 "liquidation" insufficient_funds
       (failure_recorded
          (submitting 7 tt
             (snd (enter 7 "liquidation" (constructor tt)))))).
Proof.
  refine (proj1 (proj1 (proj2 (proj2
    (submission_error_contained (H := refusing_chain insufficient_funds)
       (snd (enter 7 "liquidation" (constructor tt))) 7 "0xA" insufficient_funds tt
       (submitting 7 tt
          (snd (enter 7 "liquidation" (constructor tt))))
       eq_refl eq_refl _))) (constructor tt) "liquidation" eq_refl eq_refl)).
  discriminate.
Defined.

(* --------------------------------------------------------------------- *)
(** ** The block queue and the tip                                        *)
(* --------------------------------------------------------------------- *)

Section FrameFacts.
Context {W : Type} `{Chain W}.
Context {A : Type} (proj : Keeper W -> A) (Hproj : Untouched proj).

Lemma keeps_ret {B} (b : B) : keeps proj (ret b).
Proof. intros k. reflexivity. Qed.

Lemma keeps_gets {B} (f : Keeper W -> B) : keeps proj (gets f).
Proof. intros k. reflexivity. Qed.

Lemma keeps_throw {B} err : keeps proj (@throw W B err).
Proof. intros k. reflexivity. Qed.

Lemma keeps_process_exit {B} status : keeps proj (@process_exit W B status).
Proof. intros k. reflexivity. Qed.

Lemma keeps_bind {B C} (m : M W B) (f : B -> M W C) :
  keeps proj m -> (forall b, keeps proj (f b)) -> keeps proj (bind m f).
Proof.
  intros Hm Hf k. unfold bind. specialize (Hm k).
  destruct (m k) as [[b|err|status] k1]; simpl in *; auto.
  now rewrite Hf.
Qed.

Lemma keeps_try_catch {B} (body : M W B) handler :
  keeps proj body -> (forall err, keeps proj (handler err)) ->
  keeps proj (try_catch body handler).
Proof.
  intros Hb Hh k. unfold try_catch. specialize (Hb k).
  destruct (body k) as [[b|err|status] k1]; simpl in *; auto.
  now rewrite Hh.
Qed.

Lemma keeps_forEach {B} (body : B -> M W unit) xs :
  (forall x, keeps proj (body x)) -> keeps proj (forEach body xs).
Proof.
  intros Hb. induction xs as [|x xs IH]; simpl.
  - apply keeps_ret.
  - apply keeps_bind; auto.
Qed.

Lemma keeps_await {B} (call : W -> Settled B * W) : keeps proj (await call).
Proof.
  intros k. unfold await.
  destruct (call (world k)) as [[b|err] w']; simpl; apply (by_world _ Hproj).
Qed.

Lemma keeps_log lvl msg c : keeps proj (log lvl msg c).
Proof. intros k. apply (by_logger _ Hproj). Qed.

Lemma keeps_observe m : keeps proj (observe m).
Proof. intros k. apply (by_metrics _ Hproj). Qed.

Lemma keeps_withSigner {B} (cb : Signer -> M W B) :
  (forall signer, keeps proj (cb signer)) -> keeps proj (withSigner cb).
Proof.
  intros Hcb. unfold withSigner. apply keeps_bind; [apply keeps_await|].
  intros signer k. specialize (Hcb signer k).
  destruct (cb signer k) as [[b|err|status] k1]; simpl in *; auto;
    now rewrite (by_world _ Hproj).
Qed.

Lemma keeps_updateIndex events : keeps proj (updateIndex events).
Proof.
  apply keeps_forEach. intros ev. unfold updateIndex_handler.
  repeat match goal with
         | |- keeps _ (if ?c then _ else _) => destruct c
         | |- keeps _ (bind _ _) => apply keeps_bind; [|intros ?]
         | |- keeps _ (log _ _ _) => apply keeps_log
         | |- keeps _ (ret _) => apply keeps_ret
         | |- keeps _ (modify (with_positions _)) =>
             intros k; apply (by_positions _ Hproj)
         end.
Qed.

Lemma keeps_liquidateOrder id account : keeps proj (liquidateOrder id account).
Proof.
  unfold liquidateOrder, liquidateOrder_try.
  apply keeps_bind; [apply keeps_await|]. intros can.
  destruct (negb can); [apply keeps_log|].
  apply keeps_bind; [apply keeps_log|]. intros _.
  apply keeps_bind.
  - apply keeps_try_catch.
    + apply keeps_withSigner. intros signer.
      apply keeps_bind; [apply keeps_await|]. intros tx.
      apply keeps_bind; [apply keeps_log|]. intros _. apply keeps_await.
    + intros err. apply keeps_bind; [apply keeps_gets|]. intros market.
      apply keeps_bind; [apply keeps_observe|]. intros _.
      apply keeps_bind; [|intros _; apply keeps_throw].
      destruct (code_truthy (err_code err)); [|apply keeps_ret].
      destruct (code_is (err_code err) "NONCE_EXPIRED"); [|apply keeps_ret].
      apply keeps_bind; [apply keeps_log|]. intros _. apply keeps_process_exit.
  - intros receipt. apply keeps_bind; [apply keeps_gets|]. intros market.
    apply keeps_bind; [apply keeps_observe|]. intros _. apply keeps_log.
Qed.

Lemma keeps_arrow (m : M W unit) :
  keeps proj m -> forall k, proj (snd (arrow m k)) = proj k.
Proof.
  intros Hm k. unfold arrow. specialize (Hm k).
  destruct (m k) as [[[]|err|status] k1]; exact Hm.
Qed.

Lemma keeps_try_await (cb : Callback W) handler :
  (forall k, proj (snd (cb k)) = proj k) -> (forall err, keeps proj (handler err)) ->
  keeps proj (try_await cb handler).
Proof.
  intros Hcb Hh k. unfold try_await. specialize (Hcb k).
  destruct (cb k) as [[|err|status] k1]; simpl in *; auto.
  now rewrite Hh.
Qed.

Lemma keeps_toString err : keeps proj (toString err).
Proof. destruct err; [apply keeps_ret|apply keeps_throw]. Qed.

Lemma keeps_runKeeperTask id taskLabel (cb : Callback W) :
  (forall k, proj (snd (cb k)) = proj k) ->
  keeps proj (runKeeperTask id taskLabel cb).
Proof.
  intros Hcb. unfold runKeeperTask.
  apply keeps_bind; [apply keeps_gets|]. intros tasks.
  destruct (task_active tasks id); [apply keeps_ret|].
  apply keeps_bind; [intros k; apply (by_activeKeeperTasks _ Hproj)|]. intros _.
  apply keeps_bind; [apply keeps_log|]. intros _.
  apply keeps_bind.
  - apply keeps_try_await; [exact Hcb|]. intros err.
    apply keeps_bind; [apply keeps_toString|]. intros text.
    apply keeps_bind; [apply keeps_log|]. intros _.
    apply keeps_bind; [apply keeps_gets|]. intros market. apply keeps_observe.
  - intros _. apply keeps_bind; [apply keeps_log|]. intros _.
    intros k. apply (by_activeKeeperTasks _ Hproj).
Qed.

Lemma keeps_runKeepers : keeps proj runKeepers.
Proof.
  unfold runKeepers.
  apply keeps_bind; [apply keeps_gets|]. intros n.
  apply keeps_bind; [apply keeps_gets|]. intros market.
  apply keeps_bind; [apply keeps_observe|]. intros _.
  apply keeps_bind; [apply keeps_log|]. intros _.
  apply keeps_bind; [apply keeps_gets|]. intros open.
  apply keeps_forEach. intros p.
  apply keeps_runKeeperTask, keeps_arrow, keeps_liquidateOrder.
Qed.

Lemma keeps_run_start fromBlock : keeps proj (run_start fromBlock).
Proof.
  unfold run_start.
  apply keeps_bind; [apply keeps_await|]. intros asset.
  apply keeps_bind; [intros k; apply (by_baseAsset _ Hproj)|]. intros _.
  apply keeps_bind; [apply keeps_log|]. intros _.
  apply keeps_bind; [apply keeps_await|]. intros events.
  repeat (apply keeps_bind; [apply keeps_log|]; intros _).
  apply keeps_bind; [apply keeps_updateIndex|]. intros _.
  repeat (apply keeps_bind; [apply keeps_log|]; intros _).
  apply keeps_bind; [apply keeps_runKeepers|]. intros _. apply keeps_log.
Qed.
End FrameFacts.

Section ListeningFacts.
Context {W : Type} `{Chain W}.
Implicit Types (k : Keeper W).

Lemma blockQueue_untouched : Untouched (@blockQueue W).
Proof. constructor; reflexivity. Qed.

Lemma blockTip_untouched : Untouched (@blockTip W).
Proof. constructor; reflexivity. Qed.

(** Nothing but the listener and the loop touches the queue. *)
Lemma processNewBlock_keeps_queue b : keeps (@blockQueue W) (processNewBlock b).
Proof.
  pose proof blockQueue_untouched as Hq. unfold processNewBlock.
  apply keeps_bind; [intros k; reflexivity|]. intros _.
  apply keeps_bind; [now apply keeps_await|]. intros events.
  apply keeps_bind; [now apply keeps_await|]. intros rates.
  apply keeps_bind; [now apply keeps_log|]. intros _.
  apply keeps_bind.
  { apply keeps_forEach. intros ev. now apply keeps_log. }
  intros _. apply keeps_bind; [now apply keeps_log|]. intros _.
  apply keeps_bind; [now apply keeps_updateIndex|]. intros _.
  now apply keeps_runKeepers.
Qed.

Lemma onBlock_queue b k :
  fst (onBlock b k) = Normal tt /\
  blockQueue (snd (onBlock b k)) =
    if blockTip_falsy (blockTip k) then blockQueue k else blockQueue k ++ [b].
Proof.
  unfold onBlock, bind, gets. simpl.
  destruct (blockTip_falsy (blockTip k)); split; reflexivity.
Qed.

(** Every block the loop processes was in the queue or is notified while
    the arrivals are served. *)
Lemma processed_from_queue arrivals k :
  Forall (fun b => In b (blockQueue k ++ notified arrivals)) (processed arrivals k).
Proof.
  revert k. induction arrivals as [|a arrivals IH]; intros k; simpl; [constructor|].
  apply Forall_app. split.
  - destruct a as [b|]; simpl; [constructor|].
    destruct (blockQueue k) as [|b rest]; constructor; [|constructor].
    simpl. auto.
  - destruct a as [b|].
    + destruct (onBlock_queue b k) as [Hr Hq]. simpl.
      destruct (onBlock b k) as [r k1]. simpl in Hr, Hq. subst r.
      eapply List.Forall_impl; [|apply IH]. simpl. intros x Hx. rewrite Hq in Hx.
      apply in_app_iff in Hx. apply in_app_iff.
      destruct (blockTip_falsy (blockTip k)).
      * destruct Hx as [Hx|Hx]; [auto|]. right. simpl. auto.
      * destruct Hx as [Hx|Hx].
        -- apply in_app_iff in Hx. destruct Hx as [Hx|[<-|[]]]; [auto|].
           right. simpl. auto.
        -- right. simpl. auto.
    + simpl. unfold run_loop_turn, bind, gets. simpl.
      destruct (blockQueue k) as [|b rest] eqn:Hq.
      * simpl. eapply List.Forall_impl; [|apply IH]. simpl. intros x Hx.
        now rewrite Hq in Hx.
      * unfold modify.
        pose proof (processNewBlock_keeps_queue b
                      (with_blockQueue (fun _ => rest) k)) as Hkeep.
        destruct (processNewBlock b _) as [[[]|err|status] k1]; try constructor.
        simpl in Hkeep. eapply List.Forall_impl; [|apply IH]. simpl. intros x Hx.
        rewrite Hkeep in Hx. simpl. right. exact Hx.
Qed.

(** When [run] starts listening, the tip is still unset and the queue
    empty. *)
Lemma run_start_listening (w : W) fromBlock k :
  snd (run_start fromBlock (constructor w)) = k ->
  blockTip k = None /\ blockQueue k = [].
Proof.
  intros <-. split.
  - apply (keeps_run_start (@blockTip W) blockTip_untouched fromBlock (constructor w)).
  - apply (keeps_run_start (@blockQueue W) blockQueue_untouched fromBlock (constructor w)).
Qed.

(** C10. When [run] has built the index and starts listening, the first
    block notification only records the block as the tip: the queue stays
    empty, the index is not touched, and the next turn of the loop finds
    nothing to process.  Whatever arrives afterwards, every block the loop
    processes is one notified after the first; and the second notification
    is queued (the first block not being block 0, which the test [!blockTip]
    takes for no tip). *)
Theorem first_block_only_sets_tip (w : W) (fromBlock : Z) k (b : Z) :
  run_start fromBlock (constructor w) = (Normal tt, k) ->
  let k1 := with_blockTip (Some b) k in
  onBlock b k = (Normal tt, k1) /\
  blockQueue k1 = [] /\
  positions k1 = positions k /\
  run_loop_turn k1 = (Normal tt, k1) /\
  (forall arrivals,
     Forall (fun processed_block => In processed_block (notified arrivals))
       (processed (BlockNotification b :: arrivals) k)) /\
  (b <> 0 -> forall b2, blockQueue (snd (onBlock b2 k1)) = [b2]).
Proof.
  intros Hstart k1.
  destruct (run_start_listening w fromBlock k) as [Htip Hqueue].
  { now rewrite Hstart. }
  assert (Hon : onBlock b k = (Normal tt, k1)).
  { unfold onBlock, bind, gets. simpl. rewrite Htip. reflexivity. }
  split; [exact Hon|]. split; [exact Hqueue|]. split; [reflexivity|].
  split; [|split].
  - unfold run_loop_turn, bind, gets. simpl. rewrite Hqueue. reflexivity.
  - intros arrivals. simpl. rewrite Hon.
    pose proof (processed_from_queue arrivals k1) as Hp.
    change (blockQueue k1) with (blockQueue k) in Hp. rewrite Hqueue in Hp.
    exact Hp.
  - intros Hb b2. destruct (onBlock_queue b2 k1) as [_ ->]. simpl.
    destruct (Z.eqb_spec b 0) as [->|_]; [contradiction|].
    rewrite Hqueue. reflexivity.
Qed.
End ListeningFacts.

Lemma first_block_only_sets_tip_witness :
  onBlock 100 (snd (run_start (H := calm_chain) 1 (constructor tt)))
  = (Normal tt,
     with_blockTip (Some 100) (snd (run_start (H := calm_chain) 1 (constructor tt)))).
Proof.
  assert (Hstart : run_start (H := calm_chain) 1 (constructor tt)
                   = (Normal tt, snd (run_start (H := calm_chain) 1 (constructor tt))))
    by (vm_compute; reflexivity).
  exact (proj1 (first_block_only_sets_tip (H := calm_chain) tt 1 _ 100 Hstart)).
Defined.

(* --------------------------------------------------------------------- *)
(** ** Page descriptors                                                   *)
(* --------------------------------------------------------------------- *)

Import PerpsUtils.

Section PageFacts.
Variables (to pageSize : Z).
Hypothesis pageSize_pos : 0 < pageSize.

(** Page [i] starts [i] page sizes after the start and holds a full page
    or what is left. *)
Lemma pages_upto_nth fuel start i :
  (Z.to_nat (to - start) <= fuel)%nat ->
  nth_error (pages_upto fuel start to pageSize) i =
  if start + Z.of_nat i * pageSize <? to then
    Some {| from := start + Z.of_nat i * pageSize;
            size := Z.min pageSize (to - (start + Z.of_nat i * pageSize)) |}
  else None.
Proof.
  revert start i. induction fuel as [|fuel IH]; intros start i Hfuel.
  - simpl. destruct (Z.ltb_spec (start + Z.of_nat i * pageSize) to); [nia|].
    now destruct i.
  - simpl. destruct (Z.ltb_spec start to) as [Hlt|Hge].
    + destruct i as [|i].
      * simpl. rewrite Z.add_0_r.
        destruct (Z.ltb_spec start to); [reflexivity|lia].
      * simpl nth_error. rewrite IH by lia.
        replace (start + Z.min pageSize (to - start) + Z.of_nat i * pageSize)
          with (start + Z.of_nat (S i) * pageSize + (Z.min pageSize (to - start) - pageSize))
          by lia.
        destruct (Z.le_gt_cases pageSize (to - start)) as [Hfull|Hshort].
        -- rewrite Z.min_l by lia. rewrite Z.sub_diag, Z.add_0_r. reflexivity.
        -- rewrite Z.min_r by lia.
           destruct (Z.ltb_spec (start + Z.of_nat (S i) * pageSize + (to - start - pageSize)) to);
             [nia|].
           destruct (Z.ltb_spec (start + Z.of_nat (S i) * pageSize) to); [nia|reflexivity].
    + destruct (Z.ltb_spec (start + Z.of_nat i * pageSize) to); [nia|].
      now destruct i.
Qed.

Lemma getPaginatedFromAndTo_nth i :
  nth_error (getPaginatedFromAndTo 0 to pageSize) i =
  if Z.of_nat i * pageSize <? to then
    Some {| from := Z.of_nat i * pageSize;
            size := Z.min pageSize (to - Z.of_nat i * pageSize) |}
  else None.
Proof.
  unfold getPaginatedFromAndTo. rewrite pages_upto_nth by lia. reflexivity.
Qed.

(** The number of pages: the count divided by the page size, rounded up. *)
Lemma getPaginatedFromAndTo_length :
  0 < to ->
  length (getPaginatedFromAndTo 0 to pageSize) = Z.to_nat ((to - 1) / pageSize + 1).
Proof.
  intros Hto.
  pose proof (Z.div_mod (to - 1) pageSize ltac:(lia)) as Hdm.
  pose proof (Z.mod_pos_bound (to - 1) pageSize pageSize_pos) as Hmod.
  assert (Hq : 0 <= (to - 1) / pageSize) by (apply Z.div_pos; lia).
  set (q := (to - 1) / pageSize) in *.
  apply Nat.le_antisymm.
  - apply nth_error_None. rewrite getPaginatedFromAndTo_nth.
    destruct (Z.ltb_spec (Z.of_nat (Z.to_nat (q + 1)) * pageSize) to); [nia|reflexivity].
  - assert (Hlt : (Z.to_nat q < length (getPaginatedFromAndTo 0 to pageSize))%nat).
    { apply nth_error_Some. rewrite getPaginatedFromAndTo_nth.
      destruct (Z.ltb_spec (Z.of_nat (Z.to_nat q) * pageSize) to); [discriminate|nia]. }
    lia.
Qed.
End PageFacts.

(** C2. For a count and a page size above zero, the pages computed for the
    count come in order without overlap, hold exactly the items from 0 up
    to the count between them, hold at most a page size each (and at least
    one item), and the last holds the count modulo the page size, or a full
    page when the page size divides the count; 1500 items in pages of 1000
    give the pages (0, 1000) and (1000, 500). *)
Theorem getPaginatedFromAndTo_covers (count pageSize : Z) :
  0 < count -> 0 < pageSize ->
  let pages := getPaginatedFromAndTo 0 count pageSize in
  (forall i j p q,
     (i < j)%nat -> nth_error pages i = Some p -> nth_error pages j = Some q ->
     from p + size p <= from q /\
     forall x, ~ (page_holds p x /\ page_holds q x)) /\
  (forall x, 0 <= x < count <-> exists p, In p pages /\ page_holds p x) /\
  Forall (fun p => 0 < size p <= pageSize) pages /\
  (exists p,
     nth_error pages (Nat.pred (length pages)) = Some p /\
     size p = if count mod pageSize =? 0 then pageSize else count mod pageSize) /\
  getPaginatedFromAndTo 0 1500 1000 =
    [{| from := 0; size := 1000 |}; {| from := 1000; size := 500 |}].
Proof.
  intros Hcount Hsize pages.
  assert (Hnth : forall i p, nth_error pages i = Some p ->
            from p = Z.of_nat i * pageSize /\
            size p = Z.min pageSize (count - Z.of_nat i * pageSize) /\
            Z.of_nat i * pageSize < count).
  { intros i p Hp. subst pages. rewrite (getPaginatedFromAndTo_nth _ _ Hsize) in Hp.
    destruct (Z.ltb_spec (Z.of_nat i * pageSize) count); [|discriminate].
    injection Hp as <-. simpl. auto. }
  split; [|split; [|split; [|split]]].
  - intros i j p q Hij Hp Hq.
    destruct (Hnth i p Hp) as (Hfp & Hsp & _).
    destruct (Hnth j q Hq) as (Hfq & _ & _).
    assert (Hord : from p + size p <= from q) by nia.
    split; [exact Hord|]. unfold page_holds. intros x. lia.
  - intros x. split.
    + intros Hx.
      pose proof (Z.div_mod x pageSize ltac:(lia)) as Hdm.
      pose proof (Z.mod_pos_bound x pageSize Hsize) as Hmod.
      assert (Hq : 0 <= x / pageSize) by (apply Z.div_pos; lia).
      pose proof (getPaginatedFromAndTo_nth count pageSize Hsize (Z.to_nat (x / pageSize)))
        as Hpage.
      rewrite Z2Nat.id in Hpage by exact Hq.
      destruct (Z.ltb_spec (x / pageSize * pageSize) count); [|nia].
      eexists. split; [eapply nth_error_In; exact Hpage|].
      unfold page_holds. simpl. nia.
    + intros (p & Hin & Hx). apply In_nth_error in Hin as [i Hp].
      destruct (Hnth i p Hp) as (Hfp & Hsp & Hlt). unfold page_holds in Hx. nia.
  - apply List.Forall_forall. intros p Hin. apply In_nth_error in Hin as [i Hp].
    destruct (Hnth i p Hp) as (Hfp & Hsp & Hlt). lia.
  - pose proof (getPaginatedFromAndTo_length count pageSize Hsize Hcount) as Hlen.
    fold pages in Hlen.
    pose proof (Z.div_mod (count - 1) pageSize ltac:(lia)) as Hdm.
    pose proof (Z.mod_pos_bound (count - 1) pageSize Hsize) as Hmod.
    assert (Hq : 0 <= (count - 1) / pageSize) by (apply Z.div_pos; lia).
    set (q := (count - 1) / pageSize) in *. set (r := (count - 1) mod pageSize) in *.
    pose proof (getPaginatedFromAndTo_nth count pageSize Hsize (Z.to_nat q)) as Hpage.
    rewrite Z2Nat.id in Hpage by exact Hq.
    destruct (Z.ltb_spec (q * pageSize) count); [|nia].
    eexists. split.
    + rewrite Hlen. replace (Nat.pred (Z.to_nat (q + 1))) with (Z.to_nat q) by lia.
      exact Hpage.
    + simpl. destruct (Z.eq_dec (r + 1) pageSize) as [Hfull|Hpart].
      * replace count with ((q + 1) * pageSize) by nia.
        rewrite Z.mod_mul by lia. simpl. nia.
      * assert (Hm : r + 1 = count mod pageSize).
        { apply (Z.mod_unique_pos count pageSize q (r + 1)); lia. }
        destruct (Z.eqb_spec (count mod pageSize) 0); lia.
  - reflexivity.
Qed.

Lemma getPaginatedFromAndTo_covers_witness :
  Forall (fun p => 0 < size p <= 1000) (getPaginatedFromAndTo 0 2500 1000).
Proof.
  refine (proj1 (proj2 (proj2 (getPaginatedFromAndTo_covers 2500 1000 _ _)))); lia.
Defined.

(* --------------------------------------------------------------------- *)
(** ** Counts by market                                                   *)
(* --------------------------------------------------------------------- *)

Lemma keys_get {V} (k : string) (o : JsObject.t V) :
  In k (JsObject.keys o) -> exists v, JsObject.get k o = Some v.
Proof.
  intros Hin. destruct (JsObject.get k o) as [v|] eqn:E; [eauto|].
  apply get_None_keys in E. contradiction.
Qed.

Lemma get_Some_key {V} (k : string) (v : V) (o : JsObject.t V) :
  JsObject.get k o = Some v -> In k (JsObject.keys o).
Proof.
  intros Hget. destruct (in_dec String.string_dec k (JsObject.keys o)) as [Hin|Hout]; [exact Hin|].
  apply get_None_keys in Hout. congruence.
Qed.

Lemma map_settled_ok {A B} (f : A -> Settled B) (g : A -> B) xs :
  (forall x, In x xs -> f x = Fulfilled (g x)) ->
  map_settled f xs = Fulfilled (map g xs).
Proof.
  induction xs as [|x xs IH]; intros Hf; simpl; [reflexivity|].
  rewrite (Hf x) by (simpl; auto). rewrite IH; [reflexivity|].
  intros y Hy. apply Hf. simpl. auto.
Qed.

Section CountFacts.
Variable eth_call : Z -> Call -> option ReturnData.

Lemma run_calls_ok (g : Call -> ReturnData) blockTag calls :
  (forall c, In c calls -> eth_call blockTag c = Some (g c)) ->
  run_calls eth_call blockTag calls = Fulfilled (map g calls).
Proof.
  induction calls as [|c calls IH]; intros Hg; simpl; [reflexivity|].
  rewrite (Hg c) by (simpl; auto). rewrite IH; [reflexivity|].
  intros c' Hc'. apply Hg. simpl. auto.
Qed.

Variables (markets : JsObject.t Market) (count : string -> N).

(** The results of the markets from some index on are recorded as
    [keep_nonzero] says. *)
Lemma forEach_indexed_recordLength (dat : string -> ReturnData) suffix pre acc :
  (forall key, In key suffix ->
     (exists state, market_state markets key = Fulfilled state) /\
     decode_uint (dat key) = Fulfilled (count key)) ->
  forEach_indexed (recordLength markets (pre ++ suffix)) (map dat suffix)
    (length pre) acc
  = Fulfilled (fold_left (keep_nonzero count) suffix acc).
Proof.
  revert pre acc. induction suffix as [|key suffix IH]; intros pre acc Hok; simpl.
  - reflexivity.
  - destruct (Hok key) as [[state Hstate] Hdec]; [simpl; auto|].
    unfold recordLength at 1.
    rewrite nth_error_app2 by lia. rewrite Nat.sub_diag. simpl.
    rewrite Hstate, Hdec. fold (keep_nonzero count acc key).
    assert (Hnext : forEach_indexed (recordLength markets (pre ++ key :: suffix))
                      (map dat suffix) (S (length pre)) (keep_nonzero count acc key)
                    = Fulfilled (fold_left (keep_nonzero count) suffix
                                   (keep_nonzero count acc key))).
    { replace (pre ++ key :: suffix) with ((pre ++ [key]) ++ suffix)
        by (rewrite <- app_assoc; reflexivity).
      replace (S (length pre)) with (length (pre ++ [key]))
        by (rewrite length_app; simpl; lia).
      apply IH. intros key' Hin. apply Hok. simpl. auto. }
    unfold keep_nonzero at 1 3 in Hnext. unfold keep_nonzero at 2.
    destruct (0 <? count key)%N; exact Hnext.
Qed.

(** What is read for a market after the counts have been kept. *)
Lemma get_fold_keep_nonzero key keys acc :
  JsObject.get key (fold_left (keep_nonzero count) keys acc) =
  if existsb (String.eqb key) keys && (0 <? count key)%N
  then Some (count key)
  else JsObject.get key acc.
Proof.
  revert acc. induction keys as [|k keys IH]; intros acc; simpl; [reflexivity|].
  rewrite IH. unfold keep_nonzero.
  destruct (existsb (String.eqb key) keys) eqn:Hex.
  - rewrite orb_true_r. simpl.
    destruct (0 <? count key)%N eqn:Hpos; [reflexivity|].
    destruct (String.eqb_spec key k) as [<-|Hne].
    + now rewrite Hpos.
    + destruct (0 <? count k)%N; [|reflexivity]. apply get_set_ne. congruence.
  - rewrite orb_false_r. simpl.
    destruct (String.eqb_spec key k) as [<-|Hne]; simpl.
    + destruct (0 <? count key)%N; [apply get_set_eq|reflexivity].
    + destruct (0 <? count k)%N; [|reflexivity]. apply get_set_ne. congruence.
Qed.
End CountFacts.

(** C7. Given the on-chain count of every market at the pinned block,
    [getAddressLengthByMarket] issues one aggregate request and returns a
    mapping that holds a market exactly when its count is not zero, with
    that count; counts [{A: 0, B: 1500, C: 3}] give [{B: 1500, C: 3}]. *)
Theorem getAddressLengthByMarket_nonzero
    (eth_call : Z -> Call -> option ReturnData) (markets : JsObject.t Market)
    (block : Block) (type : PaginationEntityType) (count : string -> N)
    (issued : list (list Call * Z)) :
  (forall key m, JsObject.get key markets = Some m ->
     onchain_count eth_call type block m = Fulfilled (count key)) ->
  (exists lengthByMarket calls,
     getAddressLengthByMarket eth_call markets block type issued
       = (Fulfilled lengthByMarket, (calls, number block) :: issued) /\
     length calls = length (JsObject.keys markets) /\
     forall key n,
       JsObject.get key lengthByMarket = Some n <->
       In key (JsObject.keys markets) /\ count key = n /\ n <> 0%N) /\
  fst (getAddressLengthByMarket three_chain three_markets block_9 POSITION [])
    = Fulfilled [("B", 1500%N); ("C", 3%N)].
Proof.
  intros Hcount. split; [|reflexivity].
  set (keys := JsObject.keys markets).
  set (lcall := fun key =>
         {| target := match JsObject.get key markets with
                      | Some m => state_address m
                      | None => ""
                      end;
            callData := {| functionName := length_function type;
                           functionArgs := [] |} |}).
  set (g := fun c => default RetMalformed (eth_call (number block) c)).
  assert (Hkey : forall key, In key keys ->
            getLengthCall markets (length_function type) key = Fulfilled (lcall key) /\
            (exists state, market_state markets key = Fulfilled state) /\
            eth_call (number block) (lcall key) = Some (g (lcall key)) /\
            decode_uint (g (lcall key)) = Fulfilled (count key)).
  { intros key Hin. destruct (keys_get key markets Hin) as [m Hm].
    specialize (Hcount key m Hm). unfold onchain_count in Hcount.
    unfold getLengthCall, market_state, lcall, g. rewrite Hm.
    destruct (eth_call (number block) _) as [data|]; [|discriminate].
    simpl. eauto. }
  exists (fold_left (keep_nonzero count) keys []), (map lcall keys).
  split; [|split].
  - unfold getAddressLengthByMarket, fbind, settle, aggregate. fold keys.
    rewrite (map_settled_ok _ lcall) by (intros key Hin; apply (Hkey key Hin)).
    rewrite (run_calls_ok eth_call g).
    + rewrite map_map.
      pose proof (forEach_indexed_recordLength markets count
                    (fun key => g (lcall key)) keys [] []) as Hrec.
      cbn [app length] in Hrec. rewrite Hrec; [reflexivity|].
      intros key Hin. destruct (Hkey key Hin) as (_ & Hstate & _ & Hdec). auto.
    + intros c Hc. apply in_map_iff in Hc as (key & <- & Hin).
      apply (Hkey key Hin).
  - apply length_map.
  - intros key n. rewrite get_fold_keep_nonzero. simpl.
    destruct (existsb (String.eqb key) keys) eqn:Hex; simpl.
    + apply existsb_exists in Hex as (key' & Hin & Heq).
      apply String.eqb_eq in Heq. subst key'.
      destruct (N.ltb_spec 0 (count key)).
      * split; [intros [= <-]; repeat split; auto; lia|].
        intros (_ & -> & _). reflexivity.
      * split; [discriminate|]. intros (_ & <- & Hn). lia.
    + split; [discriminate|]. intros (Hin & _).
      assert (existsb (String.eqb key) keys = true); [|congruence].
      apply existsb_exists. exists key. split; [exact Hin|apply String.eqb_refl].
Qed.

Lemma getAddressLengthByMarket_nonzero_witness :
  exists lengthByMarket,
    fst (getAddressLengthByMarket three_chain three_markets block_9 ORDER [])
      = Fulfilled lengthByMarket /\
    JsObject.get "A" lengthByMarket = None /\
    JsObject.get "B" lengthByMarket = Some 1500%N.
Proof.
  destruct (getAddressLengthByMarket_nonzero three_chain three_markets block_9 ORDER
              three_counts [])
    as [(lengthByMarket & calls & Hfetch & _ & Hget) _].
  - intros key m Hm. pose proof (get_Some_key key m three_markets Hm) as Hin.
    simpl in Hin. destruct Hin as [<-|[<-|[<-|[]]]];
      vm_compute in Hm; injection Hm as <-; reflexivity.
  - exists lengthByMarket. rewrite Hfetch. split; [reflexivity|]. split.
    + destruct (JsObject.get "A" lengthByMarket) as [n|] eqn:E; [|reflexivity].
      apply Hget in E as (_ & Hc & Hn). vm_compute in Hc. congruence.
    + apply Hget. repeat split; [simpl; auto|discriminate].
Defined.

(* --------------------------------------------------------------------- *)
(** ** Batches of entity calls                                            *)
(* --------------------------------------------------------------------- *)

Section ChunkFacts.
Context {A : Type}.
Variable size : nat.
Hypothesis size_pos : (0 < size)%nat.

Lemma chunk_slices_nil fuel : chunk_slices fuel size (@nil A) = [].
Proof. destruct fuel; reflexivity. Qed.

(** The slices put end to end are the list. *)
Lemma chunk_slices_concat fuel (xs : list A) :
  (length xs <= fuel)%nat -> concat (chunk_slices fuel size xs) = xs.
Proof.
  revert xs. induction fuel as [|fuel IH]; intros xs Hfuel.
  - destruct xs; [reflexivity|simpl in Hfuel; lia].
  - destruct xs as [|x xs]; [reflexivity|].
    cbn [chunk_slices concat]. rewrite IH.
    + apply firstn_skipn.
    + rewrite length_skipn. simpl in *. lia.
Qed.

(** No slice is longer than the size, none is empty. *)
Lemma chunk_slices_sizes fuel (xs : list A) :
  Forall (fun slice => (0 < length slice <= size)%nat) (chunk_slices fuel size xs).
Proof.
  revert xs. induction fuel as [|fuel IH]; intros xs; [constructor|].
  destruct xs as [|x xs]; [constructor|].
  cbn [chunk_slices]. constructor; [|apply IH].
  rewrite length_firstn. simpl. lia.
Qed.

(** The number of slices is the length over the size, rounded up. *)
Lemma chunk_slices_count fuel (xs : list A) :
  (length xs <= fuel)%nat ->
  let n := length (chunk_slices fuel size xs) in
  (length xs <= n * size /\ n * size < length xs + size)%nat.
Proof.
  revert xs. induction fuel as [|fuel IH]; intros xs Hfuel.
  - destruct xs; simpl in *; lia.
  - destruct xs as [|x xs]; [simpl; lia|].
    cbn [chunk_slices length].
    specialize (IH (skipn size (x :: xs))).
    rewrite length_skipn in IH. cbn [length] in *.
    destruct (Nat.le_gt_cases size (S (length xs))) as [Hle|Hgt].
    + destruct IH as [IH1 IH2]; [lia|]. lia.
    + assert (Hnil : skipn size (x :: xs) = []).
      { apply skipn_all2. simpl. lia. }
      rewrite Hnil, chunk_slices_nil. simpl. lia.
Qed.

Lemma ceil_div_unique (len n : nat) :
  (len <= n * size /\ n * size < len + size)%nat ->
  n = ((len + size - 1) / size)%nat.
Proof.
  intros [Hlo Hhi].
  apply (Nat.div_unique (len + size - 1) size n (len + size - 1 - size * n)); lia.
Qed.
End ChunkFacts.

Lemma chunk_slices_map {A B} (f : A -> B) fuel size (xs : list A) :
  chunk_slices fuel size (map f xs) = map (map f) (chunk_slices fuel size xs).
Proof.
  revert xs. induction fuel as [|fuel IH]; intros xs; [reflexivity|].
  destruct xs as [|x xs]; [reflexivity|].
  cbn [chunk_slices map]. rewrite <- IH.
  change (f x :: map f xs) with (map f (x :: xs)).
  now rewrite firstn_map, skipn_map.
Qed.

Section BatchFacts.
Variable eth_call : Z -> Call -> option ReturnData.
Context {E : Type}.
Variables (rpcFunctionName : string)
          (build : string -> ReturnData -> Settled (option E))
          (markets : JsObject.t Market) (block : Block).

Local Abbreviation read_ok :=
  (PerpsUtils.read_ok eth_call rpcFunctionName build markets block).

Lemma read_ok_parts item :
  read_ok item ->
  entity_call rpcFunctionName markets (fst item)
    = Fulfilled (pair_call rpcFunctionName markets (fst item)) /\
  (exists state, market_state markets (snd (fst item)) = Fulfilled state) /\
  eth_call (number block) (pair_call rpcFunctionName markets (fst item))
    = Some (answer eth_call (number block)
              (pair_call rpcFunctionName markets (fst item))) /\
  build (fst (fst item))
    (answer eth_call (number block) (pair_call rpcFunctionName markets (fst item)))
    = Fulfilled (snd item).
Proof.
  unfold PerpsUtils.read_ok, read_entity, pair_call, answer, entity_call.
  destruct (market_state markets (snd (fst item))) as [state|err]; [|discriminate].
  destruct (eth_call (number block) _) as [data|]; [|discriminate].
  simpl. eauto.
Qed.

(** The results of a batch from some index on are filed under the markets
    of the pairs at the same indices. *)
Lemma forEach_indexed_file_result sitems pre acc :
  Forall read_ok sitems ->
  forEach_indexed (file_result build markets (pre ++ map fst sitems))
    (map (fun item => answer eth_call (number block)
                        (pair_call rpcFunctionName markets (fst item))) sitems)
    (length pre) acc
  = Fulfilled (file_all sitems acc).
Proof.
  revert pre acc. induction sitems as [|item sitems IH]; intros pre acc Hok; simpl.
  - reflexivity.
  - inversion Hok as [|? ? Hitem Hrest]; subst.
    destruct (read_ok_parts item Hitem) as (_ & [state Hstate] & _ & Hbuild).
    unfold file_result at 1.
    rewrite nth_error_app2 by lia. rewrite Nat.sub_diag. simpl.
    destruct item as [[address marketKey] entity]. simpl in *.
    rewrite Hstate, Hbuild.
    assert (Hnext : forall acc',
              forEach_indexed
                (file_result build markets (pre ++ (address, marketKey) :: map fst sitems))
                (map (fun item => answer eth_call (number block)
                                    (pair_call rpcFunctionName markets (fst item))) sitems)
                (S (length pre)) acc'
              = Fulfilled (file_all sitems acc')).
    { intros acc'.
      replace (pre ++ (address, marketKey) :: map fst sitems)
        with ((pre ++ [(address, marketKey)]) ++ map fst sitems)
        by (rewrite <- app_assoc; reflexivity).
      replace (S (length pre)) with (length (pre ++ [(address, marketKey)]))
        by (rewrite length_app; simpl; lia).
      now apply IH. }
    destruct entity as [entity|]; apply Hnext.
Qed.

(** One batch: one aggregate request with the calls of its pairs, in their
    order, and every result filed. *)
Lemma fetch_batch_files bitems acc issued :
  Forall read_ok bitems ->
  fetch_batch eth_call rpcFunctionName build markets block (map fst bitems) acc issued
  = (Fulfilled (file_all bitems acc),
     (map (pair_call rpcFunctionName markets) (map fst bitems), number block) :: issued).
Proof.
  intros Hok. unfold fetch_batch, fbind, settle, aggregate.
  assert (Hall : forall item, In item bitems -> read_ok item).
  { now apply List.Forall_forall. }
  rewrite (map_settled_ok _ (pair_call rpcFunctionName markets)).
  2:{ intros pair Hin. apply in_map_iff in Hin as (item & <- & Hitem).
      apply (read_ok_parts item (Hall item Hitem)). }
  rewrite (run_calls_ok eth_call (answer eth_call (number block))).
  2:{ intros c Hc. apply in_map_iff in Hc as (pair & <- & Hin).
      apply in_map_iff in Hin as (item & <- & Hitem).
      apply (read_ok_parts item (Hall item Hitem)). }
  rewrite !map_map.
  pose proof (forEach_indexed_file_result bitems [] acc Hok) as Hfiled.
  cbn [app length] in Hfiled. rewrite Hfiled. reflexivity.
Qed.

(** The loop over the batches: one request per batch, most recent
    first. *)
Lemma for_of_fetch_batch (batches : list (list ((string * string) * option E)))
    acc issued :
  Forall (Forall read_ok) batches ->
  for_of (fetch_batch eth_call rpcFunctionName build markets block)
    (map (map fst) batches) acc issued
  = (Fulfilled (file_all (concat batches) acc),
     rev (map (fun bitems =>
                 (map (pair_call rpcFunctionName markets) (map fst bitems), number block))
            batches) ++ issued).
Proof.
  revert acc issued. induction batches as [|bitems batches IH]; intros acc issued Hok.
  - reflexivity.
  - inversion Hok as [|? ? Hb Hrest]; subst.
    cbn [map for_of]. unfold fbind. rewrite (fetch_batch_files bitems acc issued Hb).
    rewrite (IH _ _ Hrest). cbn [concat map rev].
    unfold file_all. rewrite fold_left_app, <- app_assoc. reflexivity.
Qed.
End BatchFacts.

(** What is filed under a market: the entities of its pairs, in the order
    of the pairs, behind what was there. *)
Lemma get_file_all {E} marketKey (items : list ((string * string) * option E)) acc :
  JsObject.get marketKey (file_all items acc) =
  match entities_of marketKey items with
  | [] => JsObject.get marketKey acc
  | entities => Some (default [] (JsObject.get marketKey acc) ++ entities)
  end.
Proof.
  revert acc. induction items as [|[[address mk] entity] items IH]; intros acc.
  - reflexivity.
  - unfold file_all in *. cbn [fold_left]. rewrite IH.
    unfold file_entity, entities_of. cbn [flat_map fst snd].
    fold (entities_of marketKey items).
    destruct entity as [entity|].
    + destruct (String.eqb_spec mk marketKey) as [->|Hne].
      * rewrite get_set_eq. cbn [default app].
        destruct (entities_of marketKey items) as [|e es].
        -- reflexivity.
        -- unfold Datatypes.id. now rewrite <- app_assoc.
      * rewrite (get_set_ne mk marketKey) by exact Hne. reflexivity.
    + destruct (String.eqb mk marketKey); reflexivity.
Qed.

Lemma concat_map_map {A B} (f : A -> B) (ls : list (list A)) :
  concat (map (map f) ls) = map f (concat ls).
Proof.
  induction ls as [|l ls IH]; simpl; [reflexivity|]. now rewrite IH, map_app.
Qed.

Section FetchFacts.
Variable eth_call : Z -> Call -> option ReturnData.
Context {E : Type}.
Variables (rpcFunctionName : string)
          (build : string -> ReturnData -> Settled (option E))
          (markets : JsObject.t Market) (block : Block).

(** The fetch over pairs that can all be read: every result filed, one
    request per slice of the pairs. *)
Lemma fetch_batches_files limit (items : list ((string * string) * option E)) issued :
  (0 < limit)%nat ->
  Forall (read_ok eth_call rpcFunctionName build markets block) items ->
  fetch_batches eth_call rpcFunctionName build limit markets block (map fst items) issued
  = (Fulfilled (file_all items []),
     rev (map (fun bitems =>
                 (map (pair_call rpcFunctionName markets) (map fst bitems), number block))
            (chunk_slices (length items) limit items)) ++ issued).
Proof.
  intros Hl Hok. unfold fetch_batches, chunk.
  destruct (Nat.ltb_spec limit 1); [lia|].
  rewrite length_map, chunk_slices_map.
  rewrite (for_of_fetch_batch eth_call).
  - now rewrite (chunk_slices_concat limit Hl) by lia.
  - apply List.Forall_forall. intros bitems Hb.
    apply List.Forall_forall. intros item Hitem.
    assert (Hin : In item (concat (chunk_slices (length items) limit items))).
    { apply in_concat. eauto. }
    rewrite (chunk_slices_concat limit Hl) in Hin by lia.
    rewrite List.Forall_forall in Hok. now apply Hok.
Qed.

(** What the fetch owes pairs that can all be read: ceil(K / L) requests
    of at most L calls each at the pinned block, which together are the
    calls of the pairs in their order; every entity filed under the market
    of its own pair, in the order of the pairs; the same result for every
    limit. *)
Lemma fetch_batches_positions limit (items : list ((string * string) * option E))
    issued :
  (0 < limit)%nat ->
  Forall (read_ok eth_call rpcFunctionName build markets block) items ->
  (exists requests,
     fetch_batches eth_call rpcFunctionName build limit markets block (map fst items)
       issued
       = (Fulfilled (file_all items []), requests ++ issued) /\
     length requests = ((length items + limit - 1) / limit)%nat /\
     Forall (fun request =>
               (length (fst request) <= limit)%nat /\ snd request = number block)
       requests /\
     concat (map fst (rev requests))
     = map (pair_call rpcFunctionName markets) (map fst items)) /\
  (forall marketKey,
     JsObject.get marketKey (file_all items []) =
     match entities_of marketKey items with
     | [] => None
     | entities => Some entities
     end) /\
  (forall limit', (0 < limit')%nat ->
     fst (fetch_batches eth_call rpcFunctionName build limit' markets block
            (map fst items) issued)
     = Fulfilled (file_all items [])).
Proof.
  intros Hlimit Hok. split; [|split].
  - eexists. split; [apply (fetch_batches_files limit items issued Hlimit Hok)|].
    split; [|split].
    + rewrite length_rev, length_map.
      apply (ceil_div_unique limit Hlimit).
      apply (chunk_slices_count limit Hlimit). lia.
    + apply Forall_rev. apply List.Forall_forall. intros request Hreq.
      apply in_map_iff in Hreq as (bitems & <- & Hb). simpl.
      rewrite !length_map. split; [|reflexivity].
      pose proof (chunk_slices_sizes limit Hlimit (length items) items) as Hsizes.
      rewrite List.Forall_forall in Hsizes. apply (Hsizes bitems Hb).
    + rewrite rev_involutive, map_map. simpl.
      rewrite <- (map_map (map fst) (map (pair_call rpcFunctionName markets))).
      rewrite !concat_map_map.
      now rewrite (chunk_slices_concat limit Hlimit) by lia.
  - intros marketKey. rewrite get_file_all. simpl.
    destruct (entities_of marketKey items); reflexivity.
  - intros limit' Hlimit'.
    now rewrite (fetch_batches_files limit' items issued Hlimit' Hok).
Qed.
End FetchFacts.




(* ===================================================================== *)
(** * Further properties                                                  *)
(* ===================================================================== *)

Import Frames Outage.

(* --------------------------------------------------------------------- *)
(** ** The index, event by event                                          *)
(* --------------------------------------------------------------------- *)

(** X1. Applying two lists of events one after the other leaves the keeper
    (index and log calls) exactly as applying their concatenation in one
    call: rebuilding from a range of blocks and following the blocks one by
    one agree. *)
Theorem updateIndex_app {W} (events1 events2 : list LogEvent) (k : Keeper W) :
  updateIndex (events1 ++ events2) k
  = updateIndex events2 (snd (updateIndex events1 k)).
Proof.
  revert k. induction events1 as [|ev events1 IH]; intros k.
  - reflexivity.
  - cbn [app]. rewrite !updateIndex_cons. apply IH.
Qed.

(** X2. After any list of events, what the index holds for an account is
    decided by the last [PositionModified] or [PositionLiquidated] event
    for that account in the list (an entry for a nonzero size, nothing
    otherwise); an account the list has no such event for keeps what it
    had. *)
Theorem index_after_last_write {W} (events : list LogEvent) (k : Keeper W)
    (account : string) :
  JsObject.get account (index_after events k) =
  match last_write account events with
  | Some written => written
  | None => JsObject.get account (positions k)
  end.
Proof.
  destruct (updateIndex_spec events k) as [_ ->]. apply get_fold_index_step.
Qed.

Section JsObjectShape.
Context {V : Type}.
Implicit Types (k : string) (v : V) (o : JsObject.t V).

Lemma In_keys_set k k' v o :
  In k' (JsObject.keys (JsObject.set k v o)) <-> k' = k \/ In k' (JsObject.keys o).
Proof.
  induction o as [|[k0 v0] o IH]; simpl.
  - intuition congruence.
  - destruct (String.eqb_spec k0 k) as [->|Hne]; simpl.
    + intuition congruence.
    + rewrite IH. clear IH. intuition congruence.
Qed.

Lemma In_keys_remove k k' o :
  In k' (JsObject.keys (JsObject.remove k o)) <-> k' <> k /\ In k' (JsObject.keys o).
Proof.
  induction o as [|[k0 v0] o IH]; simpl.
  - tauto.
  - destruct (String.eqb_spec k0 k) as [->|Hne]; simpl.
    + rewrite IH. clear IH. intuition congruence.
    + rewrite IH. clear IH. intuition congruence.
Qed.

Lemma NoDup_keys_set k v o :
  List.NoDup (JsObject.keys o) -> List.NoDup (JsObject.keys (JsObject.set k v o)).
Proof.
  induction o as [|[k0 v0] o IH]; simpl; intros Hnd.
  - constructor; [simpl; tauto|constructor].
  - inversion Hnd as [|? ? Hout Hrest]; subst.
    destruct (String.eqb_spec k0 k) as [->|Hne]; simpl.
    + now constructor.
    + constructor; [|now apply IH].
      rewrite In_keys_set. intros [Heq|Hin]; [congruence|contradiction].
Qed.

Lemma NoDup_keys_remove k o :
  List.NoDup (JsObject.keys o) -> List.NoDup (JsObject.keys (JsObject.remove k o)).
Proof.
  induction o as [|[k0 v0] o IH]; simpl; intros Hnd; [constructor|].
  inversion Hnd as [|? ? Hout Hrest]; subst.
  destruct (String.eqb_spec k0 k) as [->|Hne]; simpl; [now apply IH|].
  constructor; [|now apply IH]. rewrite In_keys_remove. tauto.
Qed.

Lemma Forall_set (P : string * V -> Prop) k v o :
  P (k, v) -> Forall P o -> Forall P (JsObject.set k v o).
Proof.
  intros Hkv. induction o as [|[k0 v0] o IH]; simpl; intros Ho.
  - now repeat constructor.
  - inversion Ho as [|? ? H0 Hrest]; subst.
    destruct (String.eqb_spec k0 k) as [->|Hne]; constructor; auto.
Qed.

Lemma Forall_remove (P : string * V -> Prop) k o :
  Forall P o -> Forall P (JsObject.remove k o).
Proof.
  induction o as [|[k0 v0] o IH]; simpl; intros Ho; [constructor|].
  inversion Ho as [|? ? H0 Hrest]; subst.
  destruct (String.eqb k0 k); [auto|constructor; auto].
Qed.
End JsObjectShape.

Lemma index_step_wf (ev : LogEvent) (index : JsObject.t IndexEntry) :
  index_wf index -> index_wf (index_step ev index).
Proof.
  intros [Hnd Hall]. unfold index_step.
  destruct (event_is (event ev) "PositionModified").
  - destruct (Z.eqb_spec (arg_size (args ev)) 0) as [Hz|Hnz].
    + split; [now apply NoDup_keys_remove|now apply Forall_remove].
    + split; [now apply NoDup_keys_set|]. apply Forall_set; [|exact Hall].
      simpl. auto.
  - destruct (event_is (event ev) "PositionLiquidated"); [|split; assumption].
    split; [now apply NoDup_keys_remove|now apply Forall_remove].
Qed.

Lemma index_after_wf {W} (events : list LogEvent) (k : Keeper W) :
  index_wf (positions k) -> index_wf (index_after events k).
Proof.
  destruct (updateIndex_spec events k) as [_ ->].
  generalize (positions k). induction events as [|ev events IH]; intros index Hwf.
  - exact Hwf.
  - simpl. apply IH. now apply index_step_wf.
Qed.

(** X3. [updateIndex] keeps the index well formed: if the index holds at
    most one entry per account, each filed under its own account, of
    nonzero size and made by a [PositionModified] event, it still does
    after any list of events (and the empty index of a new keeper does). *)
Theorem updateIndex_keeps_index_wf {W} (events : list LogEvent) (k : Keeper W) :
  index_wf (positions k) -> index_wf (index_after events k).
Proof.
  destruct (updateIndex_spec events k) as [_ ->].
  generalize (positions k). induction events as [|ev events IH]; intros index Hwf.
  - exact Hwf.
  - simpl. apply IH. now apply index_step_wf.
Qed.

Lemma updateIndex_keeps_index_wf_witness :
  index_wf
    (index_after [PositionModified 7 "0xA" 5; PositionModified 8 "0xB" 3;
                  PositionModified 7 "0xA" 0; PositionModified 9 "0xA" (-2)]
       (constructor tt)).
Proof.
  apply (updateIndex_keeps_index_wf _ (constructor tt)).
  split; constructor.
Defined.

(** X4. An event that is neither [PositionModified] nor
    [PositionLiquidated] never changes the index and never throws.
    [FundingRecomputed], an event without a name and an event whose name
    contains [OrderSubmitted] leave the keeper as it was, log calls
    included; any other name adds the one log call "No handler for
    event". *)
Theorem updateIndex_other_events {W} (ev : LogEvent) (k : Keeper W) :
  handled ev = false ->
  fst (updateIndex [ev] k) = Normal tt /\
  index_after [ev] k = positions k /\
  snd (updateIndex [ev] k) =
    (if silent ev then k
     else log_call "info" (NoHandlerForEvent (default "" (event ev))) (Some Indexer) k).
Proof.
  unfold handled, silent. intros Hh. apply orb_false_elim in Hh as [Hm Hl].
  unfold index_after, updateIndex. simpl. unfold bind, updateIndex_handler.
  rewrite Hm, Hl.
  destruct (event_is (event ev) "FundingRecomputed"); simpl; [now destruct k|].
  destruct (event_falsy (event ev) || event_matches (event ev) "OrderSubmitted");
    simpl; [now destruct k|].
  repeat split.
Qed.

Lemma updateIndex_other_events_witness :
  snd (updateIndex [{| event := Some "MarginTransferred"; args := args (PositionModified 1 "0xA" 5) |}]
         two_positions_keeper)
  = log_call "info" (NoHandlerForEvent "MarginTransferred") (Some Indexer)
      two_positions_keeper.
Proof.
  exact (proj2 (proj2
    (updateIndex_other_events
       {| event := Some "MarginTransferred"; args := args (PositionModified 1 "0xA" 5) |}
       two_positions_keeper eq_refl))).
Defined.

(* --------------------------------------------------------------------- *)
(** ** What a liquidation and a pass touch                                *)
(* --------------------------------------------------------------------- *)

Section SubmitFrameFacts.
Context {W : Type} `{Chain W}.
Context {A : Type} (proj : Keeper W -> A) (Hproj : SubmitFrame proj).

Lemma sf_await {B} (call : W -> Settled B * W) : keeps proj (await call).
Proof.
  intros k. unfold await.
  destruct (call (world k)) as [[b|err] w']; simpl; apply (sf_world _ Hproj).
Qed.

Lemma sf_log lvl msg c : keeps proj (log lvl msg c).
Proof. intros k. apply (sf_logger _ Hproj). Qed.

Lemma sf_liquidateOrder_try id account : keeps proj (liquidateOrder_try id account).
Proof.
  unfold liquidateOrder_try, withSigner.
  apply keeps_bind; [apply sf_await|]. intros signer k.
  assert (Hcb : keeps proj
            (bind (await (futuresMarket_liquidatePosition signer account))
               (fun tx =>
                  bind (log "debug" (SubmitLiquidatePosition (nonce tx))
                          (Some (KeeperTaskComponent "liquidation" id)))
                    (fun _ => await (tx_wait tx))))).
  { apply keeps_bind; [apply sf_await|]. intros tx.
    apply keeps_bind; [apply sf_log|]. intros _. apply sf_await. }
  specialize (Hcb k).
  destruct (bind _ _ k) as [[b|err|status] k1]; simpl in *; auto;
    now rewrite (sf_world _ Hproj).
Qed.
End SubmitFrameFacts.

Section ActionFrameFacts.
Context {W : Type} `{Chain W}.
Context {A : Type} (proj : Keeper W -> A) (Hproj : ActionFrame proj).

Lemma ActionFrame_SubmitFrame : SubmitFrame proj.
Proof. destruct Hproj. constructor; assumption. Qed.

Lemma af_observe m : keeps proj (observe m).
Proof. intros k. apply (af_metrics _ Hproj). Qed.

Lemma af_liquidateOrder id account : keeps proj (liquidateOrder id account).
Proof.
  pose proof ActionFrame_SubmitFrame as Hsf.
  unfold liquidateOrder.
  apply keeps_bind; [now apply sf_await|]. intros can.
  destruct (negb can); [now apply sf_log|].
  apply keeps_bind; [now apply sf_log|]. intros _.
  apply keeps_bind.
  - apply keeps_try_catch; [now apply sf_liquidateOrder_try|].
    intros err. apply keeps_bind; [apply keeps_gets|]. intros market.
    apply keeps_bind; [apply af_observe|]. intros _.
    apply keeps_bind; [|intros _; apply keeps_throw].
    destruct (code_truthy (err_code err)); [|apply keeps_ret].
    destruct (code_is (err_code err) "NONCE_EXPIRED"); [|apply keeps_ret].
    apply keeps_bind; [now apply sf_log|]. intros _. apply keeps_process_exit.
  - intros receipt. apply keeps_bind; [apply keeps_gets|]. intros market.
    apply keeps_bind; [apply af_observe|]. intros _. now apply sf_log.
Qed.
End ActionFrameFacts.

Section PassFrameFacts.
Context {W : Type} `{Chain W}.
Context {A : Type} (proj : Keeper W -> A) (Hproj : PassFrame proj).

Lemma pf_runKeeperTask id taskLabel (cb : Callback W) :
  (forall k, proj (snd (cb k)) = proj k) ->
  keeps proj (runKeeperTask id taskLabel cb).
Proof.
  pose proof (ActionFrame_SubmitFrame proj (pf_action _ Hproj)) as Hsf.
  intros Hcb. unfold runKeeperTask.
  apply keeps_bind; [apply keeps_gets|]. intros tasks.
  destruct (task_active tasks id); [apply keeps_ret|].
  apply keeps_bind; [intros k; apply (pf_activeKeeperTasks _ Hproj)|]. intros _.
  apply keeps_bind; [now apply sf_log|]. intros _.
  apply keeps_bind.
  - apply keeps_try_await; [exact Hcb|]. intros err.
    apply keeps_bind; [apply keeps_toString|]. intros text.
    apply keeps_bind; [now apply sf_log|]. intros _.
    apply keeps_bind; [apply keeps_gets|]. intros market.
    apply af_observe, (pf_action _ Hproj).
  - intros _. apply keeps_bind; [now apply sf_log|]. intros _.
    intros k. apply (pf_activeKeeperTasks _ Hproj).
Qed.

Lemma pf_runKeepers : keeps proj runKeepers.
Proof.
  pose proof (ActionFrame_SubmitFrame proj (pf_action _ Hproj)) as Hsf.
  unfold runKeepers.
  apply keeps_bind; [apply keeps_gets|]. intros n.
  apply keeps_bind; [apply keeps_gets|]. intros market.
  apply keeps_bind; [apply af_observe, (pf_action _ Hproj)|]. intros _.
  apply keeps_bind; [now apply sf_log|]. intros _.
  apply keeps_bind; [apply keeps_gets|]. intros open.
  apply keeps_forEach. intros p.
  apply pf_runKeeperTask, keeps_arrow, af_liquidateOrder, (pf_action _ Hproj).
Qed.
End PassFrameFacts.

Section PassTouches.
Context {W : Type} `{Chain W}.
Implicit Types (k : Keeper W).

Lemma positions_PassFrame : PassFrame (@positions W).
Proof. repeat constructor. Qed.

Lemma blockQueue_PassFrame : PassFrame (@blockQueue W).
Proof. repeat constructor. Qed.

Lemma blockTip_PassFrame : PassFrame (@blockTip W).
Proof. repeat constructor. Qed.

Lemma baseAsset_PassFrame : PassFrame (@baseAsset W).
Proof. repeat constructor. Qed.

(** X5. A pass of [runKeepers] never changes the index, the block queue,
    the tip or the asset, however its liquidations end (return, error or
    exit): the index is only ever written by [updateIndex]. *)
Theorem runKeepers_leaves_index k :
  positions (snd (runKeepers k)) = positions k /\
  blockQueue (snd (runKeepers k)) = blockQueue k /\
  blockTip (snd (runKeepers k)) = blockTip k /\
  baseAsset (snd (runKeepers k)) = baseAsset k.
Proof.
  repeat split.
  - apply (pf_runKeepers _ positions_PassFrame).
  - apply (pf_runKeepers _ blockQueue_PassFrame).
  - apply (pf_runKeepers _ blockTip_PassFrame).
  - apply (pf_runKeepers _ baseAsset_PassFrame).
Qed.
End PassTouches.

Section LiquidationOutcome.
Context {W : Type} `{Chain W}.
Implicit Types (k : Keeper W) (id : N) (account : string).

Lemma metrics_SubmitFrame : SubmitFrame (@metrics W).
Proof. constructor; reflexivity. Qed.

Lemma baseAsset_SubmitFrame : SubmitFrame (@baseAsset W).
Proof. constructor; reflexivity. Qed.

(** X6. [liquidateOrder] submits only when [canLiquidate] answers true.
    When it answers false the method logs "Cannot liquidate order" and
    returns; when the read fails the error is thrown on as it is.  Either
    way the signer pool is not asked for a signer (the world is the one the
    read left) and no liquidation outcome is recorded. *)
Theorem liquidateOrder_without_submission k id account answer w1 :
  futuresMarket_canLiquidate account (world k) = (answer, w1) ->
  answer <> Fulfilled true ->
  liquidateOrder id account k =
    match answer with
    | Fulfilled _ =>
        (Normal tt,
         log_call "info" CannotLiquidateOrder
           (Some (KeeperTaskComponent "liquidation" id)) (with_world w1 k))
    | Rejected err => (Thrown err, with_world w1 k)
    end /\
  world (snd (liquidateOrder id account k)) = w1 /\
  metrics (snd (liquidateOrder id account k)) = metrics k.
Proof.
  intros Hcan Hno.
  assert (Heq : liquidateOrder id account k =
            match answer with
            | Fulfilled _ =>
                (Normal tt,
                 log_call "info" CannotLiquidateOrder
                   (Some (KeeperTaskComponent "liquidation" id)) (with_world w1 k))
            | Rejected err => (Thrown err, with_world w1 k)
            end).
  { unfold liquidateOrder, bind at 1, await. rewrite Hcan.
    destruct answer as [[|]|err]; [congruence|reflexivity|reflexivity]. }
  split; [exact Heq|]. rewrite Heq. destruct answer; split; reflexivity.
Qed.

(** The ways [liquidateOrder] ends, by what the chain answers. *)
Lemma liquidateOrder_cases k id account :
  liquidateOrder id account k =
  match futuresMarket_canLiquidate account (world k) with
  | (Rejected err, w1) => (Thrown err, with_world w1 k)
  | (Fulfilled false, w1) =>
      (Normal tt,
       log_call "info" CannotLiquidateOrder
         (Some (KeeperTaskComponent "liquidation" id)) (with_world w1 k))
  | (Fulfilled true, w1) =>
      match liquidateOrder_try id account (submitting id w1 k) with
      | (Normal receipt, k2) =>
          (Normal tt,
           log_call "info" (DoneLiquidatePosition receipt)
             (Some (KeeperTaskComponent "liquidation" id))
             (with_metrics (cons (FuturesLiquidationsObserve (baseAsset k2) true)) k2))
      | (Thrown err, k2) =>
          if code_is (err_code err) "NONCE_EXPIRED"
          then (Exited (-1), halted err k2)
          else (Thrown err, failure_recorded k2)
      | (Exited status, k2) => (Exited status, k2)
      end
  end.
Proof.
  unfold liquidateOrder, bind at 1, await.
  destruct (futuresMarket_canLiquidate account (world k)) as [[can|err] w1];
    [|reflexivity].
  destruct can; simpl; [|reflexivity].
  unfold bind at 1. unfold log at 1, modify at 1.
  unfold bind at 1, try_catch.
  change (with_logger _ (with_world w1 k)) with (submitting id w1 k).
  destruct (liquidateOrder_try id account (submitting id w1 k))
    as [[receipt|err|status] k2]; [reflexivity| |reflexivity].
  unfold bind at 1, gets. unfold bind at 1. simpl.
  destruct (code_is (err_code err) "NONCE_EXPIRED") eqn:Hcode.
  - rewrite (code_is_truthy err Hcode). reflexivity.
  - destruct (code_truthy (err_code err)); reflexivity.
Qed.

(** The submission never ends the process: it returns a receipt or
    throws. *)
Lemma liquidateOrder_try_never_exits k id account status :
  fst (liquidateOrder_try id account k) <> Exited status.
Proof.
  unfold liquidateOrder_try, withSigner. unfold bind at 1, await.
  destruct (signerPool_acquire (world k)) as [[signer|err] w1]; [|discriminate].
  unfold bind at 1.
  destruct (futuresMarket_liquidatePosition signer account _) as [[tx|err] w2];
    [|discriminate].
  cbn. destruct (tx_wait tx w2) as [[receipt|err] w3]; discriminate.
Qed.

(** X7. [liquidateOrder] records one liquidation outcome exactly when it
    submits, that is when [canLiquidate] answers true, and none otherwise;
    the outcome recorded is [success: true] exactly when the submission and
    its confirmation go through, which is exactly when the method returns
    normally, and [success: false] when they throw, in which case the method
    throws or ends the process. *)
Theorem liquidateOrder_outcome k id account :
  let answered := futuresMarket_canLiquidate account (world k) in
  let submission := liquidateOrder_try id account (submitting id (snd answered) k) in
  let run := liquidateOrder id account k in
  (metrics (snd run) = metrics k <-> fst answered <> Fulfilled true) /\
  (fst answered = Fulfilled true ->
   exists success,
     metrics (snd run) = FuturesLiquidationsObserve (baseAsset k) success :: metrics k /\
     (success = true <-> exists receipt, fst submission = Normal receipt) /\
     (success = true <-> fst run = Normal tt) /\
     (success = false <-> exists err, fst submission = Thrown err) /\
     (success = false ->
      (exists err, fst run = Thrown err) \/ (exists status, fst run = Exited status))).
Proof.
  intros answered submission run. subst answered submission run.
  rewrite liquidateOrder_cases.
  assert (Hcons : forall (m : Metric) l, m :: l <> l).
  { intros m l Heq. apply (f_equal (@length Metric)) in Heq. simpl in Heq. lia. }
  destruct (futuresMarket_canLiquidate account (world k)) as [[[|]|err] w1];
    cbn [fst snd].
  - pose proof (sf_liquidateOrder_try _ metrics_SubmitFrame id account
                  (submitting id w1 k)) as Hm.
    pose proof (sf_liquidateOrder_try _ baseAsset_SubmitFrame id account
                  (submitting id w1 k)) as Hb.
    pose proof (liquidateOrder_try_never_exits (submitting id w1 k) id account) as Hne.
    destruct (liquidateOrder_try id account (submitting id w1 k))
      as [[receipt|err|status] k2]; cbn [fst snd] in *.
    + split.
      * split; [|tauto]. cbn. rewrite Hm, Hb. intros Heq. now apply Hcons in Heq.
      * intros _. exists true. cbn. rewrite Hm, Hb.
        split; [reflexivity|]. split; [split; eauto|]. split; [tauto|].
        split; [|discriminate]. split; [discriminate|]. intros [e He]. discriminate.
    + split.
      * split; [|tauto].
        destruct (code_is (err_code err) "NONCE_EXPIRED"); cbn; rewrite Hm, Hb;
          intros Heq; now apply Hcons in Heq.
      * intros _. exists false.
        destruct (code_is (err_code err) "NONCE_EXPIRED"); cbn; rewrite Hm, Hb.
        -- split; [reflexivity|]. split; [split; [discriminate|intros [r Hr]; discriminate]|].
           split; [split; discriminate|]. split; [split; eauto|]. right. eauto.
        -- split; [reflexivity|]. split; [split; [discriminate|intros [r Hr]; discriminate]|].
           split; [split; discriminate|]. split; [split; eauto|]. left. eauto.
    + now destruct (Hne status).
  - split; [split; [discriminate|reflexivity]|discriminate].
  - split; [split; [discriminate|reflexivity]|discriminate].
Qed.
End LiquidationOutcome.

Lemma liquidateOrder_without_submission_witness :
  liquidateOrder (H := healthy_chain) 7 "0xA" two_positions_keeper
  = (Normal tt,
     log_call "info" CannotLiquidateOrder (Some (KeeperTaskComponent "liquidation" 7))
       two_positions_keeper).
Proof.
  refine (proj1 (liquidateOrder_without_submission (H := healthy_chain)
            two_positions_keeper 7 "0xA" (Fulfilled false) tt eq_refl _)).
  discriminate.
Defined.

Section PassContainment.
Context {W : Type} `{Chain W}.
Implicit Types (k : Keeper W) (id : N).

Lemma activeKeeperTasks_ActionFrame : ActionFrame (@activeKeeperTasks W).
Proof. constructor; reflexivity. Qed.

(** What a method throws is an error that can be read, so the handler of
    [runKeeperTask] does not throw on it. *)
Lemma runKeeperTask_never_throws id taskLabel (m : M W unit) k err :
  fst (runKeeperTask id taskLabel (arrow m) k) <> Thrown err.
Proof.
  rewrite runKeeperTask_halves. unfold enter, bind, gets. simpl.
  destruct (task_active (activeKeeperTasks k) id); simpl; [discriminate|].
  rewrite arrow_spec.
  destruct (m _) as [[[]|e|status] k2]; simpl; discriminate.
Qed.

Lemma forEach_never_throws {B} (body : B -> M W unit) xs k err :
  (forall x k' e, fst (body x k') <> Thrown e) ->
  fst (forEach body xs k) <> Thrown err.
Proof.
  intros Hbody. revert k. induction xs as [|x xs IH]; intros k; simpl; [discriminate|].
  unfold bind. specialize (Hbody x k).
  destruct (body x k) as [[[]|e|status] k1]; simpl in *.
  - apply IH.
  - now destruct (Hbody e).
  - discriminate.
Qed.

(** A task that returns leaves a well-formed running-set as it found it,
    provided the action does not write it. *)
Lemma runKeeperTask_restores id taskLabel (cb : Callback W) k :
  (forall k', activeKeeperTasks (snd (cb k')) = activeKeeperTasks k') ->
  tasks_wf (activeKeeperTasks k) ->
  fst (runKeeperTask id taskLabel cb k) = Normal tt ->
  activeKeeperTasks (snd (runKeeperTask id taskLabel cb k)) = activeKeeperTasks k.
Proof.
  intros Hcb Hwf. rewrite runKeeperTask_halves.
  destruct (task_active (activeKeeperTasks k) id) eqn:Ha.
  - rewrite (enter_active id taskLabel k Ha). reflexivity.
  - destruct (enter_idle id taskLabel k Ha) as [Hr Ht].
    destruct (enter id taskLabel k) as [r k1]. simpl in Hr, Ht. subst r.
    specialize (Hcb k1). intros Hnormal.
    destruct (resume_settled id taskLabel (fst (cb k1)) (snd (cb k1))) as [_ Hd].
    { destruct (fst (cb k1)) as [|[e|]|status]; [now left|right; eauto| |].
      - rewrite resume_nullish in Hnormal. discriminate.
      - rewrite resume_exited in Hnormal. discriminate. }
    rewrite Hd, Hcb, Ht, delete_insert_eq. apply delete_id.
    unfold task_active in Ha. specialize (Hwf id).
    destruct (activeKeeperTasks k !! id) as [[|]|]; congruence.
Qed.

(** X8. No error leaves a pass of [runKeepers]: whatever the liquidations
    throw is contained task by task, so the pass returns normally or the
    process has exited.  When the pass returns, a running-set whose ids all
    carry [true] is left exactly as it was found: no task stays marked
    as running. *)
Theorem runKeepers_contains_errors k :
  (forall err, fst (runKeepers k) <> Thrown err) /\
  (tasks_wf (activeKeeperTasks k) ->
   fst (runKeepers k) = Normal tt ->
   activeKeeperTasks (snd (runKeepers k)) = activeKeeperTasks k).
Proof.
  rewrite runKeepers_offers. split.
  - intros err. apply forEach_never_throws.
    intros p k' e. apply runKeeperTask_never_throws.
  - change (activeKeeperTasks k) with (activeKeeperTasks (pass_announced k)).
    generalize (pass_announced k). generalize (JsObject.values (positions k)).
    intros entries. induction entries as [|p entries IH]; intros k0 Hwf Hn.
    + reflexivity.
    + simpl in *. unfold bind in *.
      pose proof (runKeeperTask_never_throws (entry_id p) "liquidation"
                    (liquidateOrder (entry_id p) (entry_account p)) k0) as Hnt.
      pose proof (runKeeperTask_restores (entry_id p) "liquidation"
                    (arrow (liquidateOrder (entry_id p) (entry_account p))) k0
                    (keeps_arrow _ _
                       (af_liquidateOrder _ activeKeeperTasks_ActionFrame _ _))
                    Hwf) as Hre.
      fold (keeper_task p) in *.
      destruct (keeper_task p k0) as [[[]|e|status] k1]; simpl in *.
      * rewrite <- (Hre eq_refl). apply IH; [|exact Hn]. now rewrite (Hre eq_refl).
      * now destruct (Hnt e).
      * discriminate.
Qed.
End PassContainment.

Lemma runKeepers_contains_errors_witness :
  activeKeeperTasks
    (snd (runKeepers (H := refusing_chain insufficient_funds) two_positions_keeper))
  = ∅.
Proof.
  apply (proj2 (runKeepers_contains_errors (H := refusing_chain insufficient_funds)
                  two_positions_keeper)).
  - intros id. vm_compute. discriminate.
  - vm_compute. reflexivity.
Defined.

(* --------------------------------------------------------------------- *)
(** ** Blocks in, blocks out                                              *)
(* --------------------------------------------------------------------- *)

Section QueueOrder.
Context {W : Type} `{Chain W}.
Implicit Types (k : Keeper W).

(** The block being processed is the tip, however the processing ends. *)
Lemma processNewBlock_tip b k : blockTip (snd (processNewBlock b k)) = Some b.
Proof.
  pose proof (@blockTip_untouched W) as Ht. unfold processNewBlock.
  unfold bind at 1, modify.
  match goal with
  | |- blockTip (snd (?m ?s)) = _ =>
      assert (Hkeep : keeps (@blockTip W) m); [|exact (Hkeep s)]
  end.
  apply keeps_bind; [now apply keeps_await|]. intros events.
  apply keeps_bind; [now apply keeps_await|]. intros rates.
  apply keeps_bind; [now apply keeps_log|]. intros _.
  apply keeps_bind.
  { apply keeps_forEach. intros ev. now apply keeps_log. }
  intros _. apply keeps_bind; [now apply keeps_log|]. intros _.
  apply keeps_bind; [now apply keeps_updateIndex|]. intros _.
  now apply keeps_runKeepers.
Qed.

Lemma run_loop_turn_idle k :
  blockQueue k = [] -> run_loop_turn k = (Normal tt, k).
Proof. intros Hq. unfold run_loop_turn, bind, gets. now rewrite Hq. Qed.

Lemma run_loop_turn_shift k b rest :
  blockQueue k = b :: rest ->
  run_loop_turn k = processNewBlock b (with_blockQueue (fun _ => rest) k).
Proof. intros Hq. unfold run_loop_turn. unfold bind at 1, gets. now rewrite Hq. Qed.

Lemma run_listening_cons a arrivals k :
  run_listening (a :: arrivals) k =
  match serve a k with
  | (Normal _, k1) => run_listening arrivals k1
  | (Thrown err, k1) => (Thrown err, snd (listener_only arrivals k1))
  | (Exited status, k1) => (Exited status, k1)
  end.
Proof. reflexivity. Qed.

Lemma onBlock_with_tip b k :
  blockTip_falsy (blockTip k) = false ->
  onBlock b k =
    (Normal tt,
     with_blockQueue (fun q => q ++ [b]) (log_call "debug" (NewBlock b) None k)).
Proof. intros Htip. unfold onBlock, bind, gets. simpl. now rewrite Htip. Qed.

Lemma queue_order_inv arrivals k :
  blockTip_falsy (blockTip k) = false ->
  Forall (fun b => b <> 0) (blockQueue k) ->
  Forall (fun b => b <> 0) (notified arrivals) ->
  exists pending,
    processed arrivals k ++ pending = blockQueue k ++ notified arrivals /\
    forall k', run_listening arrivals k = (Normal tt, k') -> pending = blockQueue k'.
Proof.
  revert k. induction arrivals as [|a arrivals IH]; intros k Htip Hq Hn.
  - exists (blockQueue k). split; [now rewrite app_nil_r|].
    intros k' [= <-]. reflexivity.
  - rewrite run_listening_cons. cbn [processed].
    destruct a as [b|]; cbn [serve taken notified] in *.
    + (* a notification *)
      inversion Hn as [|? ? Hb Hn']; subst.
      rewrite (onBlock_with_tip b k Htip).
      destruct (IH (with_blockQueue (fun q => q ++ [b])
                      (log_call "debug" (NewBlock b) None k))) as (pending & Heq & Hend).
      { exact Htip. }
      { simpl. apply Forall_app. split; [exact Hq|now constructor]. }
      { exact Hn'. }
      exists pending. split; [|exact Hend].
      simpl in Heq. cbn [app]. rewrite Heq, <- app_assoc. reflexivity.
    + (* a turn of the loop *)
      destruct (blockQueue k) as [|b rest] eqn:Hqueue.
      * rewrite (run_loop_turn_idle k Hqueue).
        destruct (IH k Htip) as (pending & Heq & Hend); [now rewrite Hqueue|exact Hn|].
        exists pending. split; [now rewrite Hqueue in Heq|exact Hend].
      * inversion Hq as [|? ? Hb Hrest]; subst.
        rewrite (run_loop_turn_shift k b rest Hqueue).
        pose proof (processNewBlock_keeps_queue b
                      (with_blockQueue (fun _ => rest) k)) as Hkeep.
        pose proof (processNewBlock_tip b (with_blockQueue (fun _ => rest) k)) as Htip'.
        destruct (processNewBlock b (with_blockQueue (fun _ => rest) k))
          as [[[]|err|status] k1]; simpl in Hkeep, Htip'.
        -- destruct (IH k1) as (pending & Heq & Hend).
           { rewrite Htip'. simpl. now apply Z.eqb_neq. }
           { now rewrite Hkeep. }
           { exact Hn. }
           exists pending. split; [|exact Hend].
           cbn [app]. rewrite Heq, Hkeep. reflexivity.
        -- exists (rest ++ notified arrivals). split; [reflexivity|discriminate].
        -- exists (rest ++ notified arrivals). split; [reflexivity|discriminate].
Qed.

(** X9. Once the keeper has a tip, blocks leave the queue in the order
    they were notified and each at most once: the blocks processed while a
    list of arrivals is served are an initial part of the blocks that were
    queued followed by the blocks notified, and when the arrivals have all
    been served what is left in the queue is the rest of them.  (Block
    numbers are taken nonzero, the listener reading a tip of 0 as no
    tip.) *)
Theorem blocks_processed_in_order arrivals k :
  blockTip_falsy (blockTip k) = false ->
  Forall (fun b => b <> 0) (blockQueue k) ->
  Forall (fun b => b <> 0) (notified arrivals) ->
  (exists pending,
     processed arrivals k ++ pending = blockQueue k ++ notified arrivals) /\
  (forall k', run_listening arrivals k = (Normal tt, k') ->
     processed arrivals k ++ blockQueue k' = blockQueue k ++ notified arrivals).
Proof.
  intros Htip Hq Hn.
  destruct (queue_order_inv arrivals k Htip Hq Hn) as (pending & Heq & Hend).
  split; [eauto|]. intros k' Hrun. now rewrite <- (Hend k' Hrun).
Qed.

(** The listener writes the tip, the queue and the log, nothing else. *)
Lemma onBlock_writes b k :
  fst (onBlock b k) = Normal tt /\
  positions (snd (onBlock b k)) = positions k /\
  metrics (snd (onBlock b k)) = metrics k /\
  activeKeeperTasks (snd (onBlock b k)) = activeKeeperTasks k.
Proof.
  unfold onBlock, bind, gets. simpl.
  destruct (blockTip_falsy (blockTip k)); repeat split; reflexivity.
Qed.

Lemma listener_only_writes arrivals k :
  positions (snd (listener_only arrivals k)) = positions k /\
  metrics (snd (listener_only arrivals k)) = metrics k.
Proof.
  revert k. induction arrivals as [|[b|] arrivals IH]; intros k; cbn [listener_only].
  - split; reflexivity.
  - unfold bind. destruct (onBlock_writes b k) as (Hn & Hp & Hm & _).
    destruct (onBlock b k) as [r k1]. simpl in *. subst r.
    destruct (IH k1) as [Hp' Hm']. split; congruence.
  - apply IH.
Qed.

(** With a tip, the listener queues every block it is notified of. *)
Lemma listener_only_queue arrivals k :
  blockTip_falsy (blockTip k) = false ->
  blockQueue (snd (listener_only arrivals k)) = blockQueue k ++ notified arrivals.
Proof.
  revert k. induction arrivals as [|[b|] arrivals IH]; intros k Htip;
    cbn [listener_only notified].
  - now rewrite app_nil_r.
  - unfold bind. rewrite (onBlock_with_tip b k Htip).
    rewrite IH; [|exact Htip]. simpl. now rewrite <- app_assoc.
  - now apply IH.
Qed.

(** X10. When the query for a block's events fails, the turn of the loop
    throws the error out of [run] and the loop is over: the block is
    already off the queue and is the tip, its events are not applied (the
    index is as it was) and no pass is made.  The listener is still
    registered, so the blocks notified afterwards are still logged and
    queued (behind the rest of the queue, for a nonzero block), but no turn
    is served any more: no block is processed after the one that failed, and
    the index and the metrics stay as they were whatever arrives. *)
Theorem run_loop_turn_query_fails k b rest err wa more :
  blockQueue k = b :: rest ->
  futuresMarket_queryFilter b (Some b) (world k) = (Rejected err, wa) ->
  let dropped := with_world wa (with_blockTip (Some b)
                   (with_blockQueue (fun _ => rest) k)) in
  let ended := run_listening (LoopTurn :: more) k in
  run_loop_turn k = (Thrown err, dropped) /\
  positions dropped = positions k /\
  blockQueue dropped = rest /\
  metrics dropped = metrics k /\
  ended = (Thrown err, snd (listener_only more dropped)) /\
  processed (LoopTurn :: more) k = [b] /\
  positions (snd ended) = positions k /\
  metrics (snd ended) = metrics k /\
  (b <> 0 -> blockQueue (snd ended) = rest ++ notified more).
Proof.
  intros Hq Hev dropped ended.
  assert (Hturn : run_loop_turn k = (Thrown err, dropped)).
  { unfold run_loop_turn. unfold bind at 1, gets. rewrite Hq.
    unfold bind at 1, modify. unfold processNewBlock.
    unfold bind at 1. unfold bind at 1, await. simpl. rewrite Hev. reflexivity. }
  assert (Hended : ended = (Thrown err, snd (listener_only more dropped))).
  { subst ended. rewrite run_listening_cons. cbn [serve]. now rewrite Hturn. }
  destruct (listener_only_writes more dropped) as [Hp Hm].
  split; [exact Hturn|]. split; [reflexivity|]. split; [reflexivity|].
  split; [reflexivity|]. split; [exact Hended|]. split; [|split; [|split]].
  - cbn [processed taken serve]. rewrite Hq, Hturn. reflexivity.
  - rewrite Hended. exact Hp.
  - rewrite Hended. exact Hm.
  - intros Hb. rewrite Hended. cbn [snd].
    rewrite listener_only_queue; [reflexivity|].
    simpl. now apply Z.eqb_neq.
Qed.
End QueueOrder.

Lemma blocks_processed_in_order_witness :
  processed (H := calm_chain)
    [BlockNotification 102; LoopTurn; BlockNotification 103; LoopTurn; LoopTurn]
    two_positions_keeper
  ++ []
  = [101; 102; 103].
Proof.
  assert (Hrun : run_listening (H := calm_chain)
                   [BlockNotification 102; LoopTurn; BlockNotification 103;
                    LoopTurn; LoopTurn] two_positions_keeper
                 = (Normal tt,
                    snd (run_listening (H := calm_chain)
                           [BlockNotification 102; LoopTurn; BlockNotification 103;
                            LoopTurn; LoopTurn] two_positions_keeper)))
    by (vm_compute; reflexivity).
  assert (Hleft : blockQueue
                    (snd (run_listening (H := calm_chain)
                            [BlockNotification 102; LoopTurn; BlockNotification 103;
                             LoopTurn; LoopTurn] two_positions_keeper)) = [])
    by (vm_compute; reflexivity).
  rewrite <- Hleft at 1.
  refine (proj2 (blocks_processed_in_order (H := calm_chain) _ two_positions_keeper
                   eq_refl _ _) _ Hrun).
  - repeat constructor; discriminate.
  - repeat constructor; discriminate.
Defined.

Lemma run_loop_turn_query_fails_witness :
  let ended :=
    run_listening (H := silent_chain timeout_error)
      [LoopTurn; BlockNotification 102; LoopTurn] two_positions_keeper in
  fst ended = Thrown timeout_error /\
  blockQueue (snd ended) = [102] /\
  positions (snd ended) = positions two_positions_keeper.
Proof.
  destruct (run_loop_turn_query_fails (H := silent_chain timeout_error)
              two_positions_keeper 101 [] timeout_error tt
              [BlockNotification 102; LoopTurn] eq_refl eq_refl)
    as (_ & _ & _ & _ & Hended & _ & Hpositions & _ & Hqueue).
  split; [now rewrite Hended|]. split; [|exact Hpositions].
  apply Hqueue. discriminate.
Defined.

(* --------------------------------------------------------------------- *)
(** ** The index after a rebuild and after a block                        *)
(* --------------------------------------------------------------------- *)

Section IndexBuild.
Context {W : Type} `{Chain W}.
Implicit Types (k : Keeper W).

Lemma bind_keeps_tail {A B C} (proj : Keeper W -> A) (m : M W B) (f : B -> M W C) k :
  (forall b, keeps proj (f b)) ->
  (exists b, fst (m k) = Normal b) ->
  proj (snd (bind m f k)) = proj (snd (m k)).
Proof.
  intros Hf [b Hb]. unfold bind. destruct (m k) as [r k1]. simpl in *. subst r.
  apply Hf.
Qed.

Lemma positions_SubmitFrame : SubmitFrame (@positions W).
Proof. constructor; reflexivity. Qed.

(** A turn that finds a block queued and reads its events is the pass
    over the index brought up to date. *)
Lemma run_loop_turn_pass k b rest events rates wa wb :
  blockQueue k = b :: rest ->
  futuresMarket_queryFilter b (Some b) (world k) = (Fulfilled events, wa) ->
  exchangeRates_queryFilter b (Some b) wa = (Fulfilled rates, wb) ->
  run_loop_turn k = runKeepers (block_indexed b rest events rates wb k).
Proof.
  intros Hq Hev Hrates.
  rewrite (run_loop_turn_shift k b rest Hq). unfold processNewBlock.
  unfold bind at 1, modify.
  unfold bind at 1, await. simpl. rewrite Hev.
  unfold bind at 1. simpl. rewrite Hrates.
  unfold bind at 1, log at 1, modify.
  unfold bind at 1.
  unfold block_indexed.
  set (s0 := log_call "debug" (ProcessingBlock b) (Some Indexer)
               (with_world wb (with_blockTip (Some b)
                  (with_blockQueue (fun _ => rest) k)))).
  change (with_logger _ (with_world wb (with_world wa _))) with s0.
  pose proof (forEach_log_normal
                (fun ev : LogEvent => ExchangeRatesEvent (default "" (event ev)))
                "debug" (List.filter is_rate_event rates) s0) as Hlogs.
  destruct (forEach _ (List.filter is_rate_event rates) s0) as [r kl].
  simpl in Hlogs. subst r. simpl.
  unfold bind at 1, log at 1, modify.
  unfold bind at 1.
  change (with_logger _ kl)
    with (log_call "debug" (EventsToProcess (length events)) (Some Indexer) kl).
  pose proof (updateIndex_spec events
                (log_call "debug" (EventsToProcess (length events)) (Some Indexer) kl))
    as [Hret _].
  destruct (updateIndex events _) as [r ki].
  simpl in Hret. subst r. reflexivity.
Qed.

(** What the steps of [processNewBlock] before the pass leave alone. *)
Lemma block_indexed_keeps {A} (proj : Keeper W -> A) k b rest events rates wb :
  Untouched proj ->
  proj (block_indexed b rest events rates wb k)
  = proj (with_blockTip (Some b) (with_blockQueue (fun _ => rest) k)).
Proof.
  intros Hproj. unfold block_indexed, log_call.
  rewrite (keeps_updateIndex proj Hproj events), (by_logger _ Hproj).
  rewrite (keeps_forEach proj); [|intros ev; apply (keeps_log proj Hproj)].
  now rewrite (by_logger _ Hproj), (by_world _ Hproj).
Qed.

Lemma block_indexed_positions k b rest events rates wb :
  positions (block_indexed b rest events rates wb k) = index_after events k.
Proof.
  destruct (updateIndex_spec events k) as [_ ->].
  unfold block_indexed.
  set (s0 := log_call "debug" (ProcessingBlock b) (Some Indexer)
               (with_world wb (with_blockTip (Some b)
                  (with_blockQueue (fun _ => rest) k)))).
  set (body := fun ev : LogEvent =>
                 log "debug" (ExchangeRatesEvent (default "" (event ev))) None).
  set (s1 := log_call "debug" (EventsToProcess (length events)) (Some Indexer)
               (snd (forEach body (List.filter is_rate_event rates) s0))).
  change (positions (snd (updateIndex events s1))) with (index_after events s1).
  destruct (updateIndex_spec events s1) as [_ ->]. f_equal.
  change (positions s1)
    with (positions (snd (forEach body (List.filter is_rate_event rates) s0))).
  rewrite (keeps_forEach (@positions W)); [reflexivity|].
  intros ev. apply (sf_log _ positions_SubmitFrame).
Qed.

(** X11. Processing a block leaves the index exactly as the block's events
    make it from the index before, whatever becomes of the liquidations of
    the pass that follows (they may fail, or stop the process): the block is
    off the queue and is the tip. *)
Theorem run_loop_turn_index k b rest events rates wa wb :
  blockQueue k = b :: rest ->
  futuresMarket_queryFilter b (Some b) (world k) = (Fulfilled events, wa) ->
  exchangeRates_queryFilter b (Some b) wa = (Fulfilled rates, wb) ->
  positions (snd (run_loop_turn k)) = index_after events k /\
  blockQueue (snd (run_loop_turn k)) = rest /\
  blockTip (snd (run_loop_turn k)) = Some b.
Proof.
  intros Hq Hev Hrates.
  rewrite (run_loop_turn_pass k b rest events rates wa wb Hq Hev Hrates).
  pose proof (pf_runKeepers _ positions_PassFrame
                (block_indexed b rest events rates wb k)) as Hp.
  pose proof (pf_runKeepers _ blockQueue_PassFrame
                (block_indexed b rest events rates wb k)) as Hqueue.
  pose proof (pf_runKeepers _ blockTip_PassFrame
                (block_indexed b rest events rates wb k)) as Htip.
  rewrite Hp, Hqueue, Htip, block_indexed_positions.
  rewrite (block_indexed_keeps (@blockQueue W) k b rest events rates wb
             blockQueue_untouched).
  rewrite (block_indexed_keeps (@blockTip W) k b rest events rates wb
             blockTip_untouched).
  repeat split.
Qed.

(** [updateIndex] writes the index and the log, nothing else. *)
Lemma updateIndex_writes_index_only {A} (proj : Keeper W -> A) events :
  (forall f k, proj (with_logger f k) = proj k) ->
  (forall f k, proj (with_positions f k) = proj k) ->
  keeps proj (updateIndex events).
Proof.
  intros Hlog Hpos. apply keeps_forEach. intros ev. unfold updateIndex_handler.
  repeat match goal with
         | |- keeps _ (if ?c then _ else _) => destruct c
         | |- keeps _ (bind _ _) => apply keeps_bind; [|intros ?]
         | |- keeps _ (log _ _ _) => intros k; apply Hlog
         | |- keeps _ (ret _) => apply keeps_ret
         | |- keeps _ (modify (with_positions _)) => intros k; apply Hpos
         end.
Qed.

(** [run] up to the rebuild of the index, when the asset and the events
    can be read. *)
Lemma run_start_steps (w : W) (fromBlock : Z) asset w1 events w2 :
  futuresMarket_baseAsset w = (Fulfilled asset, w1) ->
  futuresMarket_queryFilter fromBlock None w1 = (Fulfilled events, w2) ->
  run_start fromBlock (constructor w) =
  bind (updateIndex events)
    (fun _ =>
       bind (log "info" IndexBuildComplete (Some Indexer))
         (fun _ =>
            bind (log "info" StartingKeeperLoop None)
              (fun _ =>
                 bind runKeepers (fun _ => log "info" ListeningForEvents None))))
    (log_call "info" (EventsToProcess (length events)) (Some Indexer)
       (log_call "info" (RebuildingIndexFrom fromBlock) (Some Indexer)
          (with_world w2
             (log_call "info" (MarketDeployedAt futuresMarket_address) None
                (with_baseAsset (Some asset) (with_world w1 (constructor w))))))).
Proof.
  intros Hasset Hev.
  unfold run_start. unfold bind at 1, await. simpl. rewrite Hasset.
  unfold bind at 1, modify. unfold bind at 1, log at 1, modify.
  unfold bind at 1, await. simpl. rewrite Hev.
  unfold bind at 1, log at 1, modify. unfold bind at 1, log at 1, modify.
  reflexivity.
Qed.

(** X12. When [run] starts: if the asset and the events since [fromBlock]
    can be read, the index the keeper listens with is the one these events
    make from the empty index (the same handlers as for a live block), it is
    well formed, and the asset is set, whatever becomes of the first pass;
    if the events cannot be read, [run] throws before anything is indexed
    or offered. *)
Theorem run_start_index (w : W) (fromBlock : Z) asset w1 :
  futuresMarket_baseAsset w = (Fulfilled asset, w1) ->
  (forall events w2,
     futuresMarket_queryFilter fromBlock None w1 = (Fulfilled events, w2) ->
     positions (snd (run_start fromBlock (constructor w)))
       = index_after events (constructor w) /\
     index_wf (positions (snd (run_start fromBlock (constructor w)))) /\
     baseAsset (snd (run_start fromBlock (constructor w))) = Some asset) /\
  (forall err w2,
     futuresMarket_queryFilter fromBlock None w1 = (Rejected err, w2) ->
     fst (run_start fromBlock (constructor w)) = Thrown err /\
     positions (snd (run_start fromBlock (constructor w))) = [] /\
     metrics (snd (run_start fromBlock (constructor w))) = []).
Proof.
  intros Hasset. split.
  - intros events w2 Hev.
    rewrite (run_start_steps w fromBlock asset w1 events w2 Hasset Hev).
    set (s := log_call "info" (EventsToProcess (length events)) (Some Indexer) _).
    assert (Htail : forall (A : Type) (proj : Keeper W -> A),
              PassFrame proj ->
              forall u : unit,
                keeps proj
                  (bind (log "info" IndexBuildComplete (Some Indexer))
                     (fun _ =>
                        bind (log "info" StartingKeeperLoop None)
                          (fun _ =>
                             bind runKeepers
                               (fun _ => log "info" ListeningForEvents None))))).
    { intros A proj Hpf u.
      pose proof (ActionFrame_SubmitFrame proj (pf_action _ Hpf)) as Hsf.
      apply keeps_bind; [now apply sf_log|]. intros _.
      apply keeps_bind; [now apply sf_log|]. intros _.
      apply keeps_bind; [now apply pf_runKeepers|]. intros _.
      now apply sf_log. }
    assert (Hnormal : exists u, fst (updateIndex events s) = Normal u).
    { exists tt. apply (updateIndex_spec events s). }
    rewrite (bind_keeps_tail (@positions W) (updateIndex events) _ s
               (Htail _ _ positions_PassFrame) Hnormal).
    rewrite (bind_keeps_tail (@baseAsset W) (updateIndex events) _ s
               (Htail _ _ baseAsset_PassFrame) Hnormal).
    assert (Hp : positions (snd (updateIndex events s))
                 = index_after events (constructor w)).
    { change (positions (snd (updateIndex events s))) with (index_after events s).
      destruct (updateIndex_spec events s) as [_ ->].
      destruct (updateIndex_spec events (constructor w)) as [_ ->]. reflexivity. }
    split; [exact Hp|]. split.
    + rewrite Hp. apply index_after_wf. split; constructor.
    + rewrite (updateIndex_writes_index_only (@baseAsset W));
        [reflexivity|reflexivity|reflexivity].
  - intros err w2 Hev.
    assert (Hrun : run_start fromBlock (constructor w) =
              (Thrown err,
               with_world w2
                 (log_call "info" (MarketDeployedAt futuresMarket_address) None
                    (with_baseAsset (Some asset) (with_world w1 (constructor w)))))).
    { unfold run_start. unfold bind at 1, await. simpl. rewrite Hasset.
      unfold bind at 1, modify. unfold bind at 1, log at 1, modify.
      unfold bind at 1, await. simpl. rewrite Hev. reflexivity. }
    rewrite Hrun. repeat split.
Qed.
End IndexBuild.

Lemma run_loop_turn_index_witness :
  positions
    (snd (run_loop_turn
            (H := scripted_chain true (Rejected insufficient_funds) (Fulfilled receipt_ok)
                    (fun _ => [PositionModified 7 "0xA" 0; PositionModified 9 "0xC" 4]))
            two_positions_keeper))
  = [("0xB", open_position 8 "0xB" 3); ("0xC", open_position 9 "0xC" 4)].
Proof.
  exact (proj1 (run_loop_turn_index
                  (H := scripted_chain true (Rejected insufficient_funds)
                          (Fulfilled receipt_ok)
                          (fun _ => [PositionModified 7 "0xA" 0;
                                     PositionModified 9 "0xC" 4]))
                  two_positions_keeper 101 []
                  [PositionModified 7 "0xA" 0; PositionModified 9 "0xC" 4] [] tt tt
                  eq_refl eq_refl eq_refl)).
Defined.

Lemma run_start_index_witness :
  fst (run_start (H := silent_chain timeout_error) 1 (constructor tt))
  = Thrown timeout_error.
Proof.
  exact (proj1 (proj2 (run_start_index (H := silent_chain timeout_error) tt 1 "sETH" tt
                         eq_refl) timeout_error tt eq_refl)).
Defined.

(* --------------------------------------------------------------------- *)
(** ** All or nothing: when a read fails                                  *)
(* --------------------------------------------------------------------- *)

Lemma map_settled_Fulfilled {A B} (f : A -> Settled B) xs ys :
  map_settled f xs = Fulfilled ys -> Forall2 (fun x y => f x = Fulfilled y) xs ys.
Proof.
  revert ys. induction xs as [|x xs IH]; intros ys; simpl.
  - intros [= <-]. constructor.
  - destruct (f x) as [y|err] eqn:Hx; [|discriminate].
    destruct (map_settled f xs) as [ys'|err]; [|discriminate].
    intros [= <-]. constructor; auto.
Qed.

Lemma Forall2_nth_error_left {A B} (R : A -> B -> Prop) xs ys j x :
  Forall2 R xs ys -> nth_error xs j = Some x ->
  exists y, nth_error ys j = Some y /\ R x y.
Proof.
  intros HR. revert j. induction HR as [|x0 y0 xs ys H0 HR IH]; intros j Hj.
  - destruct j; discriminate.
  - destruct j as [|j]; simpl in *.
    + injection Hj as <-. eauto.
    + now apply IH.
Qed.

Section ReadFailures.
Variable eth_call : Z -> Call -> option ReturnData.

Lemma run_calls_Fulfilled blockTag calls datas :
  run_calls eth_call blockTag calls = Fulfilled datas ->
  Forall2 (fun c d => eth_call blockTag c = Some d) calls datas.
Proof.
  revert datas. induction calls as [|c calls IH]; intros datas; simpl.
  - intros [= <-]. constructor.
  - destruct (eth_call blockTag c) as [d|] eqn:Hc; [|discriminate].
    destruct (run_calls eth_call blockTag calls) as [ds|err]; [|discriminate].
    intros [= <-]. constructor; auto.
Qed.

Lemma forEach_indexed_recordLength_Fulfilled markets keys datas i acc r :
  forEach_indexed (recordLength markets keys) datas i acc = Fulfilled r ->
  forall j d, nth_error datas j = Some d ->
    exists n, decode_uint d = Fulfilled n.
Proof.
  revert i acc. induction datas as [|d0 datas IH]; intros i acc Hrun j d Hj.
  - destruct j; discriminate.
  - simpl in Hrun.
    destruct (recordLength markets keys d0 i acc) as [acc'|err] eqn:Hrec; [|discriminate].
    destruct j as [|j]; simpl in Hj.
    + injection Hj as <-. unfold recordLength in Hrec.
      destruct (nth_error keys i); [|discriminate].
      destruct (market_state markets s); [|discriminate].
      destruct (decode_uint d0) as [n|]; [eauto|discriminate].
    + exact (IH _ _ Hrun j d Hj).
Qed.

(** The length call of a market key. *)
Lemma getLengthCall_key markets rpcFunctionName key m :
  JsObject.get key markets = Some m ->
  getLengthCall markets rpcFunctionName key =
    Fulfilled {| target := state_address m;
                 callData := {| functionName := rpcFunctionName;
                                functionArgs := [] |} |}.
Proof. intros Hm. unfold getLengthCall, market_state. now rewrite Hm. Qed.

(** X13. [getAddressLengthByMarket] returns all the counts or none: it
    always issues exactly one aggregate request, and it is fulfilled
    exactly when the length call of every market succeeds and decodes; one
    market whose call reverts or whose answer does not decode rejects the
    whole fetch, the counts of the other markets included. *)
Theorem getAddressLengthByMarket_all_or_nothing
    (markets : JsObject.t Market) (block : Block) (type : PaginationEntityType)
    (issued : list (list Call * Z)) :
  (exists calls,
     snd (getAddressLengthByMarket eth_call markets block type issued)
       = (calls, number block) :: issued /\
     length calls = length (JsObject.keys markets)) /\
  ((exists lengthByMarket,
      fst (getAddressLengthByMarket eth_call markets block type issued)
        = Fulfilled lengthByMarket) <->
   (forall key m, JsObject.get key markets = Some m ->
      exists n, onchain_count eth_call type block m = Fulfilled n)).
Proof.
  set (keys := JsObject.keys markets).
  set (lcall := fun key =>
         {| target := match JsObject.get key markets with
                      | Some m => state_address m
                      | None => ""
                      end;
            callData := {| functionName := length_function type;
                           functionArgs := [] |} |}).
  assert (Hcalls : map_settled (getLengthCall markets (length_function type)) keys
                   = Fulfilled (map lcall keys)).
  { apply map_settled_ok. intros key Hin.
    destruct (keys_get key markets Hin) as [m Hm].
    rewrite (getLengthCall_key markets _ key m Hm). unfold lcall. now rewrite Hm. }
  assert (Hunfold : getAddressLengthByMarket eth_call markets block type issued =
            (match run_calls eth_call (number block) (map lcall keys) with
             | Fulfilled returnData =>
                 forEach_indexed (recordLength markets keys) returnData 0%nat []
             | Rejected err => Rejected err
             end,
             (map lcall keys, number block) :: issued)).
  { unfold getAddressLengthByMarket, fbind, settle, aggregate. fold keys.
    rewrite Hcalls. destruct (run_calls eth_call (number block) (map lcall keys));
      [|reflexivity].
    now destruct (forEach_indexed _ _ _ _). }
  rewrite Hunfold. split.
  - eexists. split; [reflexivity|]. apply length_map.
  - simpl. split.
    + intros [lengthByMarket Hr] key m Hm.
      destruct (run_calls eth_call (number block) (map lcall keys)) as [datas|err] eqn:Hrun;
        [|discriminate].
      apply run_calls_Fulfilled in Hrun.
      pose proof (get_Some_key key m markets Hm) as Hin.
      apply In_nth_error in Hin as [j Hj].
      assert (Hcj : nth_error (map lcall keys) j = Some (lcall key)).
      { rewrite nth_error_map. unfold keys. now rewrite Hj. }
      destruct (Forall2_nth_error_left _ _ _ j _ Hrun Hcj) as (d & Hd & Hcall).
      destruct (forEach_indexed_recordLength_Fulfilled _ _ _ _ _ _ Hr j d Hd) as [n Hn].
      exists n. unfold onchain_count. unfold lcall in Hcall. rewrite Hm in Hcall.
      now rewrite Hcall.
    + intros Hall.
      set (count := fun key =>
             match JsObject.get key markets with
             | Some m =>
                 match onchain_count eth_call type block m with
                 | Fulfilled n => n
                 | Rejected _ => 0%N
                 end
             | None => 0%N
             end).
      set (g := fun c => default RetMalformed (eth_call (number block) c)).
      assert (Hkey : forall key, In key keys ->
                (exists state, market_state markets key = Fulfilled state) /\
                eth_call (number block) (lcall key) = Some (g (lcall key)) /\
                decode_uint (g (lcall key)) = Fulfilled (count key)).
      { intros key Hin. destruct (keys_get key markets Hin) as [m Hm].
        destruct (Hall key m Hm) as [n Hn]. unfold onchain_count in Hn.
        unfold market_state, lcall, g, count, onchain_count. rewrite Hm.
        destruct (eth_call (number block) _) as [data|]; [|discriminate].
        simpl. rewrite Hn. eauto. }
      rewrite (run_calls_ok eth_call g).
      * rewrite map_map.
        pose proof (forEach_indexed_recordLength markets count
                      (fun key => g (lcall key)) keys [] []) as Hrec.
        cbn [app length] in Hrec. rewrite Hrec; [eauto|].
        intros key Hin. destruct (Hkey key Hin) as (Hstate & _ & Hdec). auto.
      * intros c Hc. apply in_map_iff in Hc as (key & <- & Hin).
        apply (Hkey key Hin).
Qed.
End ReadFailures.

Section BatchFailures.
Variable eth_call : Z -> Call -> option ReturnData.
Context {E : Type}.
Variables (rpcFunctionName : string)
          (build : string -> ReturnData -> Settled (option E))
          (markets : JsObject.t Market) (block : Block).

Local Abbreviation read :=
  (read_entity eth_call rpcFunctionName build markets block).
Local Abbreviation batch_body :=
  (fetch_batch eth_call rpcFunctionName build markets block).

Lemma forEach_indexed_file_result_Fulfilled batch datas i acc r :
  forEach_indexed (file_result build markets batch) datas i acc = Fulfilled r ->
  forall j d, nth_error datas j = Some d ->
    exists address marketKey entity,
      nth_error batch (i + j) = Some (address, marketKey) /\
      build address d = Fulfilled entity.
Proof.
  revert i acc. induction datas as [|d0 datas IH]; intros i acc Hrun j d Hj.
  - destruct j; discriminate.
  - simpl in Hrun.
    destruct (file_result build markets batch d0 i acc) as [acc'|err] eqn:Hfile;
      [|discriminate].
    destruct j as [|j]; simpl in Hj.
    + injection Hj as <-. unfold file_result in Hfile. rewrite Nat.add_0_r.
      destruct (nth_error batch i) as [[address marketKey]|]; [|discriminate].
      destruct (market_state markets marketKey); [|discriminate].
      destruct (build address d0) as [entity|] eqn:Hb; [|discriminate]. eauto.
    + replace (i + S j)%nat with (S i + j)%nat by lia. exact (IH _ _ Hrun j d Hj).
Qed.

(** A batch that is fulfilled has read every one of its pairs. *)
Lemma fetch_batch_Fulfilled batch acc issued r :
  fst (batch_body batch acc issued) = Fulfilled r ->
  forall pair, In pair batch -> exists entity, read pair = Fulfilled entity.
Proof.
  unfold fetch_batch, fbind, settle, aggregate. intros Hr pair Hin.
  destruct (map_settled (entity_call rpcFunctionName markets) batch) as [calls|err] eqn:Hcalls;
    [|discriminate].
  apply map_settled_Fulfilled in Hcalls.
  destruct (run_calls eth_call (number block) calls) as [datas|err] eqn:Hrun;
    [|discriminate].
  apply run_calls_Fulfilled in Hrun. simpl in Hr.
  destruct (forEach_indexed _ datas 0%nat acc) as [filed|err] eqn:Hfiled; [|discriminate].
  apply In_nth_error in Hin as [j Hj].
  destruct (Forall2_nth_error_left _ _ _ j _ Hcalls Hj) as (c & Hc & Hcall).
  destruct (Forall2_nth_error_left _ _ _ j _ Hrun Hc) as (d & Hd & Hanswer).
  destruct (forEach_indexed_file_result_Fulfilled _ _ _ _ _ Hfiled j d Hd)
    as (address & marketKey & entity & Hpair & Hbuild).
  simpl in Hpair. rewrite Hj in Hpair. injection Hpair as ->.
  exists entity. unfold read_entity. rewrite Hcall, Hanswer. exact Hbuild.
Qed.

Lemma for_of_fetch_batch_Fulfilled batches acc issued r :
  fst (for_of batch_body batches acc issued) = Fulfilled r ->
  forall pair, In pair (concat batches) -> exists entity, read pair = Fulfilled entity.
Proof.
  revert acc issued. induction batches as [|batch batches IH]; intros acc issued Hr pair Hin.
  - destruct Hin.
  - simpl in Hr, Hin. unfold fbind in Hr.
    destruct (batch_body batch acc issued) as [[acc'|err] issued'] eqn:Hb; [|discriminate].
    apply in_app_iff in Hin as [Hin|Hin].
    + apply (fetch_batch_Fulfilled batch acc issued acc'); [now rewrite Hb|exact Hin].
    + exact (IH _ _ Hr pair Hin).
Qed.

(** Each batch adds at most one request, whatever its outcome. *)
Lemma for_of_fetch_batch_requests batches acc issued :
  exists requests,
    snd (for_of batch_body batches acc issued) = requests ++ issued /\
    (length requests <= length batches)%nat.
Proof.
  revert acc issued. induction batches as [|batch batches IH]; intros acc issued.
  - exists []. split; [reflexivity|simpl; lia].
  - simpl. unfold fbind at 1.
    assert (Hone : exists added,
              snd (batch_body batch acc issued) = added ++ issued /\
              (length added <= 1)%nat).
    { unfold fetch_batch, fbind, settle, aggregate.
      destruct (map_settled _ batch) as [calls|err]; [|exists []; split; [reflexivity|simpl; lia]].
      eexists [_]. split; [|simpl; lia].
      destruct (run_calls eth_call (number block) calls); [|reflexivity].
      now destruct (forEach_indexed _ _ _ _). }
    destruct Hone as (added & Hadded & Hlen).
    destruct (batch_body batch acc issued) as [[acc'|err] issued']; simpl in Hadded; subst.
    + destruct (IH acc' (added ++ issued)) as (requests & Hreq & Hle).
      exists (requests ++ added). rewrite Hreq, <- app_assoc. split; [reflexivity|].
      rewrite length_app. simpl. lia.
    + exists added. split; [reflexivity|simpl; lia].
Qed.

(** X14. The fetch of entities returns all of them or none: for a batch
    limit above zero it is fulfilled exactly when every (address, market)
    pair can be read on its own (its market is known, its call does not
    revert, its answer decodes into an entity); otherwise it is rejected and
    nothing read so far is returned.  Fulfilled or not, it never issues more
    than ceil(K / L) aggregate requests. *)
Theorem fetch_batches_all_or_nothing (limit : nat) (pairs : list (string * string))
    (issued : list (list Call * Z)) :
  (0 < limit)%nat ->
  ((exists result,
      fst (fetch_batches eth_call rpcFunctionName build limit markets block pairs issued)
        = Fulfilled result) <->
   (forall pair, In pair pairs -> exists entity, read pair = Fulfilled entity)) /\
  (exists requests,
     snd (fetch_batches eth_call rpcFunctionName build limit markets block pairs issued)
       = requests ++ issued /\
     (length requests <= (length pairs + limit - 1) / limit)%nat).
Proof.
  intros Hl. split; [split|].
  - intros [result Hr] pair Hin.
    apply (for_of_fetch_batch_Fulfilled (chunk pairs limit) [] issued result Hr).
    unfold chunk. destruct (Nat.ltb_spec limit 1); [lia|].
    now rewrite (chunk_slices_concat limit Hl) by lia.
  - intros Hall.
    set (items := map (fun pair =>
                         (pair, match read pair with
                                | Fulfilled entity => entity
                                | Rejected _ => None
                                end)) pairs).
    assert (Hpairs : map fst items = pairs).
    { unfold items. rewrite map_map. simpl. apply map_id. }
    assert (Hok : Forall (read_ok eth_call rpcFunctionName build markets block) items).
    { apply List.Forall_forall. intros item Hitem.
      apply in_map_iff in Hitem as (pair & <- & Hin).
      destruct (Hall pair Hin) as [entity Hread].
      unfold read_ok. simpl. now rewrite Hread. }
    exists (file_all items []).
    rewrite <- Hpairs.
    now rewrite (fetch_batches_files eth_call rpcFunctionName build markets block
                   limit items issued Hl Hok).
  - destruct (for_of_fetch_batch_requests (chunk pairs limit) [] issued)
      as (requests & Hreq & Hle).
    exists requests. split; [exact Hreq|].
    unfold chunk in Hle. destruct (Nat.ltb_spec limit 1); [lia|].
    rewrite <- (ceil_div_unique limit Hl (length pairs)
                  (length (chunk_slices (length pairs) limit pairs))); [exact Hle|].
    apply (chunk_slices_count limit Hl). lia.
Qed.
End BatchFailures.

Lemma fetch_batches_all_or_nothing_witness :
  exists err,
    fst (getPositionsByAddresses_limit three_chain Z plain_size plain_leverage 2
           [("B", ["0x1"; "0x2"]); ("D", ["0x3"])] three_markets block_9 [])
    = Rejected err.
Proof.
  destruct (fetch_batches_all_or_nothing three_chain "positions"
              (build_position Z plain_size plain_leverage block_9)
              three_markets block_9 2 [("0x1", "B"); ("0x2", "B"); ("0x3", "D")] []
              ltac:(lia)) as [[Hto _] _].
  unfold getPositionsByAddresses_limit.
  change (flattenedAddressesWithMarketKey [("B", ["0x1"; "0x2"]); ("D", ["0x3"])])
    with [("0x1", "B"); ("0x2", "B"); ("0x3", "D")].
  destruct (fst (fetch_batches three_chain "positions"
                   (build_position Z plain_size plain_leverage block_9) 2
                   three_markets block_9 [("0x1", "B"); ("0x2", "B"); ("0x3", "D")] []))
    as [result|err] eqn:Hr; [|eauto].
  destruct (Hto (ex_intro _ result eq_refl) ("0x3", "D")) as [entity Hread];
    [simpl; auto|].
  vm_compute in Hread. discriminate.
Defined.

(* --------------------------------------------------------------------- *)
(** ** Entities by market, as the input object has them                   *)
(* --------------------------------------------------------------------- *)

Import Expected.

Section ByMarket.
Context {E : Type}.
Variable ent : string * string -> option E.

Lemma entities_of_app marketKey (l1 l2 : list ((string * string) * option E)) :
  entities_of marketKey (l1 ++ l2) = entities_of marketKey l1 ++ entities_of marketKey l2.
Proof. unfold entities_of. apply flat_map_app. Qed.

Lemma entities_of_one_market marketKey key (addresses : list string) :
  entities_of marketKey
    (map (fun pair => (pair, ent pair)) (map (fun address => (address, key)) addresses))
  = if String.eqb key marketKey then kept ent marketKey addresses else [].
Proof.
  induction addresses as [|a addresses IH]; simpl.
  - now destruct (String.eqb key marketKey).
  - unfold entities_of in *. cbn [flat_map fst snd]. rewrite IH.
    destruct (String.eqb_spec key marketKey) as [->|Hne]; reflexivity.
Qed.

Lemma entities_of_keys marketKey (addrs : string -> list string) (keys : list string) :
  List.NoDup keys ->
  entities_of marketKey
    (map (fun pair => (pair, ent pair))
       (flat_map (fun key => map (fun address => (address, key)) (addrs key)) keys))
  = if existsb (String.eqb marketKey) keys then kept ent marketKey (addrs marketKey) else [].
Proof.
  induction keys as [|key keys IH]; intros Hnd; [reflexivity|].
  inversion Hnd as [|? ? Hout Hrest]; subst.
  cbn [flat_map existsb]. rewrite map_app, entities_of_app, entities_of_one_market.
  rewrite (IH Hrest). rewrite (String.eqb_sym marketKey key).
  destruct (String.eqb_spec key marketKey) as [->|Hne]; simpl.
  - destruct (existsb (String.eqb marketKey) keys) eqn:Hex; [|apply app_nil_r].
    apply existsb_exists in Hex as (k' & Hin & Heq).
    apply String.eqb_eq in Heq. subst k'. contradiction.
  - reflexivity.
Qed.

(** The entities of a market among the flattened pairs are those of the
    market's own addresses, in their order. *)
Lemma entities_of_flattened marketKey (addressesByMarket : JsObject.t (list string)) :
  List.NoDup (JsObject.keys addressesByMarket) ->
  entities_of marketKey
    (map (fun pair => (pair, ent pair))
       (flattenedAddressesWithMarketKey addressesByMarket))
  = kept ent marketKey (default [] (JsObject.get marketKey addressesByMarket)).
Proof.
  intros Hnd. unfold flattenedAddressesWithMarketKey.
  rewrite (entities_of_keys marketKey
             (fun key => default [] (JsObject.get key addressesByMarket)) _ Hnd).
  destruct (existsb (String.eqb marketKey) (JsObject.keys addressesByMarket)) eqn:Hex;
    [reflexivity|].
  destruct (JsObject.get marketKey addressesByMarket) as [addresses|] eqn:Hget;
    [|reflexivity].
  apply get_Some_key in Hget.
  assert (existsb (String.eqb marketKey) (JsObject.keys addressesByMarket) = true);
    [|congruence].
  apply existsb_exists. exists marketKey. split; [exact Hget|apply String.eqb_refl].
Qed.

Lemma in_flattened address marketKey (addressesByMarket : JsObject.t (list string)) :
  In (address, marketKey) (flattenedAddressesWithMarketKey addressesByMarket) ->
  exists addresses,
    JsObject.get marketKey addressesByMarket = Some addresses /\ In address addresses.
Proof.
  unfold flattenedAddressesWithMarketKey. intros Hin.
  apply in_flat_map in Hin as (key & Hkey & Hin).
  apply in_map_iff in Hin as (a & [= -> ->] & Ha).
  destruct (JsObject.get marketKey addressesByMarket) as [addresses|]; [eauto|].
  destruct Ha.
Qed.

(** The fetch over the pairs of an object whose reads are all known. *)
Lemma fetch_batches_by_market (eth_call : Z -> Call -> option ReturnData)
    rpcFunctionName (build : string -> ReturnData -> Settled (option E))
    markets block limit (addressesByMarket : JsObject.t (list string)) issued :
  (0 < limit)%nat ->
  List.NoDup (JsObject.keys addressesByMarket) ->
  (forall pair, In pair (flattenedAddressesWithMarketKey addressesByMarket) ->
     read_entity eth_call rpcFunctionName build markets block pair = Fulfilled (ent pair)) ->
  exists result,
    fst (fetch_batches eth_call rpcFunctionName build limit markets block
           (flattenedAddressesWithMarketKey addressesByMarket) issued)
      = Fulfilled result /\
    forall marketKey,
      JsObject.get marketKey result =
      match kept ent marketKey
              (default [] (JsObject.get marketKey addressesByMarket)) with
      | [] => None
      | entities => Some entities
      end.
Proof.
  intros Hl Hnd Hread.
  set (items := map (fun pair => (pair, ent pair))
                  (flattenedAddressesWithMarketKey addressesByMarket)).
  assert (Hpairs : map fst items = flattenedAddressesWithMarketKey addressesByMarket).
  { unfold items. rewrite map_map. simpl. apply map_id. }
  assert (Hok : Forall (read_ok eth_call rpcFunctionName build markets block) items).
  { apply List.Forall_forall. intros item Hitem.
    apply in_map_iff in Hitem as (pair & <- & Hin). apply (Hread pair Hin). }
  exists (file_all items []). split.
  - rewrite <- Hpairs.
    now rewrite (fetch_batches_files eth_call rpcFunctionName build markets block
                   limit items issued Hl Hok).
  - intros marketKey. rewrite get_file_all. simpl.
    unfold items. rewrite (entities_of_flattened marketKey addressesByMarket Hnd).
    now destruct (kept ent marketKey _).
Qed.
End ByMarket.

(** X15. [getOrdersByAddresses] returns, under each market, the orders of
    that market's own addresses in the order the input lists them, and only
    for the delayed orders flagged off-chain: each order carries its
    account, the two times of the delayed order and [executionFailures: 0];
    a market none of whose addresses has an off-chain order is absent from
    the result (not mapped to an empty list). *)
Theorem getOrdersByAddresses_offchain_only
    (eth_call : Z -> Call -> option ReturnData)
    (addressesByMarket : JsObject.t (list string)) (markets : JsObject.t Market)
    (block : Block) (raw : string -> string -> DelayedOrderStruct)
    (issued : list (list Call * Z)) :
  List.NoDup (JsObject.keys addressesByMarket) ->
  (forall marketKey addresses address,
     JsObject.get marketKey addressesByMarket = Some addresses ->
     In address addresses ->
     exists m,
       JsObject.get marketKey markets = Some m /\
       eth_call (number block)
         (entity_read_call "delayedOrders" (state_address m) address)
       = Some (RetDelayedOrder (raw marketKey address))) ->
  exists ordersByMarket,
    fst (getOrdersByAddresses eth_call addressesByMarket markets block issued)
      = Fulfilled ordersByMarket /\
    forall marketKey,
      JsObject.get marketKey ordersByMarket =
      match flat_map
              (fun address =>
                 if do_isOffchain (raw marketKey address)
                 then [delayedOrder_of address (raw marketKey address)]
                 else [])
              (default [] (JsObject.get marketKey addressesByMarket)) with
      | [] => None
      | orders => Some orders
      end.
Proof.
  intros Hnd Hraw.
  set (ent := fun pair : string * string =>
                if do_isOffchain (raw (snd pair) (fst pair))
                then Some (delayedOrder_of (fst pair) (raw (snd pair) (fst pair)))
                else None).
  destruct (fetch_batches_by_market ent eth_call "delayedOrders" build_order markets block
              MAX_ENTITY_PAGE_CALLS addressesByMarket issued) as (result & Hr & Hget).
  - unfold MAX_ENTITY_PAGE_CALLS. lia.
  - exact Hnd.
  - intros [address marketKey] Hin.
    destruct (in_flattened address marketKey addressesByMarket Hin) as (addresses & Ha & Hin').
    destruct (Hraw marketKey addresses address Ha Hin') as (m & Hm & Hcall).
    unfold read_entity, entity_call, market_state. simpl. rewrite Hm.
    unfold entity_read_call in Hcall. rewrite Hcall.
    unfold build_order, ent. simpl. now destruct (do_isOffchain _).
  - exists result. split; [exact Hr|]. intros marketKey. rewrite Hget.
    unfold kept, ent. simpl.
    assert (Hsame : forall l,
              flat_map (fun address =>
                          match (if do_isOffchain (raw marketKey address)
                                 then Some (delayedOrder_of address (raw marketKey address))
                                 else None) with
                          | Some entity => [entity]
                          | None => []
                          end) l
              = flat_map (fun address =>
                            if do_isOffchain (raw marketKey address)
                            then [delayedOrder_of address (raw marketKey address)]
                            else []) l).
    { intros l. apply flat_map_ext. intros a. now destruct (do_isOffchain _). }
    now rewrite Hsame.
Qed.

Lemma flat_map_singleton {A B} (f : A -> B) (l : list A) :
  flat_map (fun a => [f a]) l = map f l.
Proof. induction l as [|a l IH]; simpl; [reflexivity|now rewrite IH]. Qed.

(** X16. [getPositionsByAddresses] returns, under each market, one position
    per address of that market in the order the input lists them: the
    position carries the address as account, the id and the converted size
    of the position read for that very address, its leverage, [liqPrice: -1]
    and the timestamp of the pinned block; a market with no address is
    absent from the result. *)
Theorem getPositionsByAddresses_by_market
    (eth_call : Z -> Call -> option ReturnData) (Num : Type)
    (size_toNumber : Z -> Num) (leverage_toNumber : Z -> Z -> Z -> Settled Num)
    (addressesByMarket : JsObject.t (list string)) (markets : JsObject.t Market)
    (block : Block) (raw : string -> string -> PositionStruct)
    (lev : string -> string -> Num) (issued : list (list Call * Z)) :
  List.NoDup (JsObject.keys addressesByMarket) ->
  (forall marketKey addresses address,
     JsObject.get marketKey addressesByMarket = Some addresses ->
     In address addresses ->
     (exists m,
        JsObject.get marketKey markets = Some m /\
        eth_call (number block) (entity_read_call "positions" (state_address m) address)
        = Some (RetPosition (raw marketKey address))) /\
     leverage_toNumber (ps_size (raw marketKey address))
       (ps_lastPrice (raw marketKey address)) (ps_margin (raw marketKey address))
     = Fulfilled (lev marketKey address)) ->
  exists positionsByMarket,
    fst (getPositionsByAddresses eth_call Num size_toNumber leverage_toNumber
           addressesByMarket markets block issued)
      = Fulfilled positionsByMarket /\
    forall marketKey,
      JsObject.get marketKey positionsByMarket =
      match map (fun address =>
                   position_of size_toNumber block address (raw marketKey address)
                     (lev marketKey address))
              (default [] (JsObject.get marketKey addressesByMarket)) with
      | [] => None
      | found => Some found
      end.
Proof.
  intros Hnd Hraw.
  set (ent := fun pair : string * string =>
                Some (position_of size_toNumber block (fst pair)
                        (raw (snd pair) (fst pair)) (lev (snd pair) (fst pair)))).
  destruct (fetch_batches_by_market ent eth_call "positions"
              (build_position Num size_toNumber leverage_toNumber block) markets block
              MAX_ENTITY_PAGE_CALLS addressesByMarket issued) as (result & Hr & Hget).
  - unfold MAX_ENTITY_PAGE_CALLS. lia.
  - exact Hnd.
  - intros [address marketKey] Hin.
    destruct (in_flattened address marketKey addressesByMarket Hin) as (addresses & Ha & Hin').
    destruct (Hraw marketKey addresses address Ha Hin') as [(m & Hm & Hcall) Hlev].
    unfold read_entity, entity_call, market_state. simpl. rewrite Hm.
    unfold entity_read_call in Hcall. rewrite Hcall.
    unfold build_position, ent. simpl. now rewrite Hlev.
  - exists result. split; [exact Hr|]. intros marketKey. rewrite Hget.
    unfold kept, ent. simpl.
    now rewrite flat_map_singleton.
Qed.

Lemma getOrdersByAddresses_offchain_only_witness :
  fst (getOrdersByAddresses orders_chain [("B", ["0x1"; "0x2"; "0x3"]); ("C", ["0x2"])]
         three_markets block_9 [])
  = Fulfilled
      [("B", [delayedOrder_of "0x1" {| do_isOffchain := true; do_executableAtTime := 10;
                                        do_intentionTime := 5 |};
              delayedOrder_of "0x3" {| do_isOffchain := true; do_executableAtTime := 10;
                                        do_intentionTime := 5 |}])].
Proof.
  destruct (getOrdersByAddresses_offchain_only orders_chain
              [("B", ["0x1"; "0x2"; "0x3"]); ("C", ["0x2"])] three_markets block_9
              (fun _ address =>
                 {| do_isOffchain := negb (String.eqb address "0x2");
                    do_executableAtTime := 10; do_intentionTime := 5 |}) [])
    as (ordersByMarket & Hfetch & _).
  - repeat constructor; simpl; intuition discriminate.
  - intros marketKey addresses address Hget Hin.
    exists (market_of marketKey). split; [|reflexivity].
    pose proof (get_Some_key _ _ _ Hget) as Hkey. simpl in Hkey.
    destruct Hkey as [<-|[<-|[]]]; reflexivity.
  - rewrite Hfetch. vm_compute in Hfetch. injection Hfetch as <-. reflexivity.
Defined.

Lemma getPositionsByAddresses_by_market_witness :
  exists positionsByMarket,
    fst (getPositionsByAddresses three_chain Z plain_size plain_leverage
           [("B", ["0x1"; "0x2"]); ("A", [])] three_markets block_9 [])
      = Fulfilled positionsByMarket /\
    JsObject.get "A" positionsByMarket = None.
Proof.
  destruct (getPositionsByAddresses_by_market three_chain Z plain_size plain_leverage
              [("B", ["0x1"; "0x2"]); ("A", [])] three_markets block_9
              (fun _ _ => {| ps_id := 1; ps_margin := 1; ps_size := 2; ps_lastPrice := 3 |})
              (fun _ _ => 6) [])
    as (positionsByMarket & Hfetch & Hget).
  - repeat constructor; simpl; intuition discriminate.
  - intros marketKey addresses address Hget Hin. split; [|reflexivity].
    exists (market_of marketKey). split; [|reflexivity].
    pose proof (get_Some_key _ _ _ Hget) as Hkey. simpl in Hkey.
    destruct Hkey as [<-|[<-|[]]]; reflexivity.
  - exists positionsByMarket. split; [exact Hfetch|]. rewrite Hget. reflexivity.
Defined.

(* --------------------------------------------------------------------- *)
(** ** Address pages                                                      *)
(* --------------------------------------------------------------------- *)

Import PerpsPaging.

Section PageBatchFacts.
Variable eth_call : Z -> Call -> option ReturnData.
Variables (rpcFunctionName : string) (markets : JsObject.t Market) (block : Block).

Local Abbreviation page_read_ok := (page_ok eth_call rpcFunctionName markets block).
Local Abbreviation the_call := (page_call rpcFunctionName markets).
Local Abbreviation the_answer := (answer eth_call (number block)).

Lemma page_ok_parts item :
  page_read_ok item ->
  getPageCall rpcFunctionName markets (fst item) = Fulfilled (the_call (fst item)) /\
  (exists state, market_state markets (snd (fst item)) = Fulfilled state) /\
  eth_call (number block) (the_call (fst item)) = Some (the_answer (the_call (fst item))) /\
  decode_addresses (the_answer (the_call (fst item))) = Fulfilled (snd item).
Proof.
  unfold page_ok, read_page, page_call, answer, getPageCall.
  destruct (market_state markets (snd (fst item))) as [state|err]; [|discriminate].
  destruct (eth_call (number block) _) as [data|]; [|discriminate].
  simpl. eauto.
Qed.

Lemma forEach_indexed_fileAddresses sitems pre acc :
  Forall page_read_ok sitems ->
  forEach_indexed (fileAddresses markets (pre ++ map fst sitems))
    (map (fun item => the_answer (the_call (fst item))) sitems) (length pre) acc
  = Fulfilled (file_pages sitems acc).
Proof.
  revert pre acc. induction sitems as [|item sitems IH]; intros pre acc Hok; simpl.
  - reflexivity.
  - inversion Hok as [|? ? Hitem Hrest]; subst.
    destruct (page_ok_parts item Hitem) as (_ & [state Hstate] & _ & Hdec).
    unfold fileAddresses at 1.
    rewrite nth_error_app2 by lia. rewrite Nat.sub_diag. simpl.
    destruct item as [[page marketKey] addresses]. simpl in *.
    rewrite Hstate, Hdec.
    replace (pre ++ (page, marketKey) :: map fst sitems)
      with ((pre ++ [(page, marketKey)]) ++ map fst sitems)
      by (rewrite <- app_assoc; reflexivity).
    replace (S (length pre)) with (length (pre ++ [(page, marketKey)]))
      by (rewrite length_app; simpl; lia).
    now apply IH.
Qed.

Lemma fetch_page_batch_files bitems acc issued :
  Forall page_read_ok bitems ->
  fetch_page_batch eth_call rpcFunctionName markets block (map fst bitems) acc issued
  = (Fulfilled (file_pages bitems acc),
     (map the_call (map fst bitems), number block) :: issued).
Proof.
  intros Hok. unfold fetch_page_batch, fbind, settle, aggregate.
  assert (Hall : forall item, In item bitems -> page_read_ok item).
  { now apply List.Forall_forall. }
  rewrite (map_settled_ok _ the_call).
  2:{ intros pair Hin. apply in_map_iff in Hin as (item & <- & Hitem).
      apply (page_ok_parts item (Hall item Hitem)). }
  rewrite (run_calls_ok eth_call the_answer).
  2:{ intros c Hc. apply in_map_iff in Hc as (pair & <- & Hin).
      apply in_map_iff in Hin as (item & <- & Hitem).
      apply (page_ok_parts item (Hall item Hitem)). }
  rewrite !map_map.
  pose proof (forEach_indexed_fileAddresses bitems [] acc Hok) as Hfiled.
  cbn [app length] in Hfiled. rewrite Hfiled. reflexivity.
Qed.

Lemma for_of_fetch_page_batch (batches : list (list ((Page * string) * list string)))
    acc issued :
  Forall (Forall page_read_ok) batches ->
  for_of (fetch_page_batch eth_call rpcFunctionName markets block)
    (map (map fst) batches) acc issued
  = (Fulfilled (file_pages (concat batches) acc),
     rev (map (fun bitems => (map the_call (map fst bitems), number block)) batches)
       ++ issued).
Proof.
  revert acc issued. induction batches as [|bitems batches IH]; intros acc issued Hok.
  - reflexivity.
  - inversion Hok as [|? ? Hb Hrest]; subst.
    cbn [map for_of]. unfold fbind. rewrite (fetch_page_batch_files bitems acc issued Hb).
    rewrite (IH _ _ Hrest). cbn [concat map rev].
    unfold file_pages. rewrite fold_left_app, <- app_assoc. reflexivity.
Qed.
End PageBatchFacts.

Lemma addresses_of_no_page marketKey (items : list ((Page * string) * list string)) :
  has_page marketKey items = false -> addresses_of marketKey items = [].
Proof.
  induction items as [|[[page mk] addresses] items IH]; [reflexivity|].
  unfold has_page, addresses_of in *. cbn [existsb flat_map fst snd].
  destruct (String.eqb mk marketKey); [discriminate|]. exact IH.
Qed.

(** What is filed under a market: the addresses of its pages, in the order
    of the pages, behind what was there; a market with a page is a key even
    when its pages are empty. *)
Lemma get_file_pages marketKey (items : list ((Page * string) * list string)) acc :
  JsObject.get marketKey (file_pages items acc) =
  if has_page marketKey items
  then Some (default [] (JsObject.get marketKey acc) ++ addresses_of marketKey items)
  else JsObject.get marketKey acc.
Proof.
  revert acc. induction items as [|[[page mk] addresses] items IH]; intros acc.
  - reflexivity.
  - unfold file_pages in *. cbn [fold_left]. rewrite IH.
    unfold file_page, has_page, addresses_of. cbn [existsb flat_map fst snd].
    fold (has_page marketKey items). fold (addresses_of marketKey items).
    destruct (String.eqb_spec mk marketKey) as [->|Hne]; simpl.
    + rewrite get_set_eq. cbn [default]. unfold Datatypes.id.
      destruct (has_page marketKey items) eqn:Hpage.
      * now rewrite <- app_assoc.
      * now rewrite (addresses_of_no_page marketKey items Hpage), app_nil_r.
    + rewrite (get_set_ne mk marketKey) by exact Hne. reflexivity.
Qed.

Section PagesByMarket.
Variable paginate : Z -> Z -> Z -> list Page.
Variable page_addresses : Page * string -> list string.

Local Abbreviation with_addresses :=
  (map (fun item : Page * string => (item, page_addresses item))).

Lemma pages_of_safe (lengthByMarket : JsObject.t N) (keys : list string) :
  (forall key, In key keys ->
     exists length, JsObject.get key lengthByMarket = Some length /\
                    (length <= 9007199254740991)%N) ->
  pages_of paginate lengthByMarket keys =
  Fulfilled (flat_map (fun key => map (fun page => (page, key))
                                    (market_pages paginate lengthByMarket key)) keys).
Proof.
  induction keys as [|key keys IH]; intros Hsafe; [reflexivity|].
  cbn [pages_of flat_map].
  destruct (Hsafe key) as (len & Hlen & Hle); [simpl; auto|].
  unfold market_pages at 1. rewrite Hlen. unfold toNumber.
  destruct (N.leb_spec len 9007199254740991); [|lia].
  rewrite IH; [reflexivity|]. intros key' Hin. apply Hsafe. simpl. auto.
Qed.

Lemma addresses_of_app marketKey (l1 l2 : list ((Page * string) * list string)) :
  addresses_of marketKey (l1 ++ l2) = addresses_of marketKey l1 ++ addresses_of marketKey l2.
Proof. unfold addresses_of. apply flat_map_app. Qed.

Lemma has_page_app marketKey (l1 l2 : list ((Page * string) * list string)) :
  has_page marketKey (l1 ++ l2) = has_page marketKey l1 || has_page marketKey l2.
Proof. unfold has_page. apply existsb_app. Qed.

Lemma pages_one_market marketKey key (pages : list Page) :
  addresses_of marketKey (with_addresses (map (fun page => (page, key)) pages))
    = (if String.eqb key marketKey
       then concat (map (fun page => page_addresses (page, marketKey)) pages)
       else []) /\
  has_page marketKey (with_addresses (map (fun page => (page, key)) pages))
    = String.eqb key marketKey && negb (Nat.eqb (length pages) 0).
Proof.
  induction pages as [|page pages [IHa IHh]]; simpl.
  - split; [now destruct (String.eqb key marketKey)|now rewrite andb_false_r].
  - unfold addresses_of, has_page in *. cbn [flat_map existsb fst snd].
    rewrite IHa, IHh.
    destruct (String.eqb_spec key marketKey) as [->|Hne]; simpl; split; reflexivity.
Qed.

Lemma pages_of_keys marketKey (pagesf : string -> list Page) (keys : list string) :
  List.NoDup keys ->
  let items := with_addresses
                 (flat_map (fun key => map (fun page => (page, key)) (pagesf key)) keys) in
  addresses_of marketKey items
    = (if existsb (String.eqb marketKey) keys
       then concat (map (fun page => page_addresses (page, marketKey)) (pagesf marketKey))
       else []) /\
  has_page marketKey items
    = existsb (String.eqb marketKey) keys && negb (Nat.eqb (length (pagesf marketKey)) 0).
Proof.
  induction keys as [|key keys IH]; intros Hnd; [split; reflexivity|].
  inversion Hnd as [|? ? Hout Hrest]; subst.
  destruct (IH Hrest) as [IHa IHh]. cbn zeta in *.
  cbn [flat_map existsb]. rewrite map_app, addresses_of_app, has_page_app.
  destruct (pages_one_market marketKey key (pagesf key)) as [-> ->].
  rewrite IHa, IHh. rewrite (String.eqb_sym marketKey key).
  destruct (String.eqb_spec key marketKey) as [->|Hne]; simpl.
  - destruct (existsb (String.eqb marketKey) keys) eqn:Hex.
    + apply existsb_exists in Hex as (k' & Hin & Heq).
      apply String.eqb_eq in Heq. subst k'. contradiction.
    + split; [apply app_nil_r|]. simpl. now rewrite orb_false_r.
  - split; reflexivity.
Qed.
End PagesByMarket.

Lemma NoDup_keys_file_pages (items : list ((Page * string) * list string)) acc :
  List.NoDup (JsObject.keys acc) -> List.NoDup (JsObject.keys (file_pages items acc)).
Proof.
  revert acc. induction items as [|item items IH]; intros acc Hnd; [exact Hnd|].
  apply IH. now apply NoDup_keys_set.
Qed.

(** The address fetch when every page can be read. *)
Lemma getAddressesByLengths_limit_pages
    (eth_call : Z -> Call -> option ReturnData) (paginate : Z -> Z -> Z -> list Page)
    (page_addresses : Page * string -> list string)
    (limit : nat) (lengthByMarket : JsObject.t N) (markets : JsObject.t Market)
    (block : Block) (type : PaginationEntityType) (issued : list (list Call * Z)) :
  (0 < limit)%nat ->
  List.NoDup (JsObject.keys lengthByMarket) ->
  (forall key length, JsObject.get key lengthByMarket = Some length ->
     (length <= 9007199254740991)%N) ->
  (forall key page,
     In page (market_pages paginate lengthByMarket key) ->
     read_page eth_call (page_function type) markets block (page, key)
     = Fulfilled (page_addresses (page, key))) ->
  let total_pages :=
    length (flat_map (market_pages paginate lengthByMarket)
              (JsObject.keys lengthByMarket)) in
  exists addressesByMarket requests,
    getAddressesByLengths_limit eth_call paginate limit lengthByMarket markets block
      type issued
      = (Fulfilled addressesByMarket, requests ++ issued) /\
    length requests = ((total_pages + limit - 1) / limit)%nat /\
    List.NoDup (JsObject.keys addressesByMarket) /\
    (forall marketKey,
       JsObject.get marketKey addressesByMarket =
       match market_pages paginate lengthByMarket marketKey with
       | [] => None
       | pages =>
           Some (concat (map (fun page => page_addresses (page, marketKey)) pages))
       end) /\
    (forall limit', (0 < limit')%nat ->
       fst (getAddressesByLengths_limit eth_call paginate limit' lengthByMarket markets
              block type issued)
       = Fulfilled addressesByMarket).
Proof.
  intros Hl Hnd Hsafe Hread total_pages.
  set (keys := JsObject.keys lengthByMarket).
  set (pages := flat_map (fun key => map (fun page => (page, key))
                                       (market_pages paginate lengthByMarket key)) keys).
  set (items := map (fun item : Page * string => (item, page_addresses item)) pages).
  assert (Hpages : pages_of paginate lengthByMarket keys = Fulfilled pages).
  { apply pages_of_safe. intros key Hin.
    destruct (keys_get key lengthByMarket Hin) as [len Hlen]. eauto. }
  assert (Hfst : map fst items = pages).
  { unfold items. rewrite map_map. simpl. apply map_id. }
  assert (Hok : Forall (page_ok eth_call (page_function type) markets block) items).
  { apply List.Forall_forall. intros item Hitem.
    apply in_map_iff in Hitem as ([page key] & <- & Hin).
    unfold pages in Hin. apply in_flat_map in Hin as (key' & _ & Hin).
    apply in_map_iff in Hin as (page' & [= -> ->] & Hin).
    apply (Hread key page Hin). }
  assert (Hfetch : forall l, (0 < l)%nat ->
            getAddressesByLengths_limit eth_call paginate l lengthByMarket markets block
              type issued
            = (Fulfilled (file_pages items []),
               rev (map (fun bitems =>
                           (map (page_call (page_function type) markets) (map fst bitems),
                            number block))
                      (chunk_slices (length items) l items)) ++ issued)).
  { intros l Hpos. unfold getAddressesByLengths_limit, fbind, settle. fold keys.
    rewrite Hpages. unfold chunk. destruct (Nat.ltb_spec l 1); [lia|].
    rewrite <- Hfst, length_map, chunk_slices_map.
    rewrite (for_of_fetch_page_batch eth_call).
    - now rewrite (chunk_slices_concat l Hpos) by lia.
    - apply List.Forall_forall. intros bitems Hb.
      apply List.Forall_forall. intros item Hitem.
      assert (Hin : In item (concat (chunk_slices (length items) l items))).
      { apply in_concat. eauto. }
      rewrite (chunk_slices_concat l Hpos) in Hin by lia.
      rewrite List.Forall_forall in Hok. now apply Hok. }
  exists (file_pages items []). eexists. split; [apply (Hfetch limit Hl)|].
  split; [|split; [apply NoDup_keys_file_pages; constructor|split]].
  - rewrite length_rev, length_map.
    assert (Hcount : length items = total_pages).
    { unfold items, pages, total_pages. rewrite length_map. fold keys.
      clear. induction keys as [|key keys IH]; [reflexivity|].
      cbn [flat_map]. now rewrite !length_app, length_map, IH. }
    rewrite <- Hcount. apply (ceil_div_unique limit Hl).
    apply (chunk_slices_count limit Hl). lia.
  - intros marketKey. rewrite get_file_pages. cbn [JsObject.get default app].
    destruct (pages_of_keys page_addresses marketKey
                (market_pages paginate lengthByMarket) keys Hnd) as [Ha Hh].
    cbn zeta in Ha, Hh. fold pages in Ha, Hh. fold items in Ha, Hh.
    rewrite Ha, Hh.
    destruct (existsb (String.eqb marketKey) keys) eqn:Hex; simpl.
    + now destruct (market_pages paginate lengthByMarket marketKey).
    + assert (Hnone : JsObject.get marketKey lengthByMarket = None).
      { destruct (JsObject.get marketKey lengthByMarket) as [len|] eqn:Hget; [|reflexivity].
        apply get_Some_key in Hget.
        assert (existsb (String.eqb marketKey) keys = true); [|congruence].
        apply existsb_exists. exists marketKey. split; [exact Hget|apply String.eqb_refl]. }
      unfold market_pages. now rewrite Hnone.
  - intros limit' Hl'. now rewrite (Hfetch limit' Hl').
Qed.

(** X17. [getAddressesByLengths] rebuilds, for each market, the list of
    addresses page by page: when every page can be read, the result maps
    each market that has at least one page to the addresses of its pages
    put end to end in the order of the pages (pages of different markets
    sharing a request, or a market's pages falling into different requests,
    change nothing), and has no key for the other markets; it issues
    ceil(pages / limit) aggregate requests, and the result is the same for
    every limit above zero. *)
Theorem getAddressesByLengths_concatenates
    (eth_call : Z -> Call -> option ReturnData) (paginate : Z -> Z -> Z -> list Page)
    (page_addresses : Page * string -> list string)
    (limit : nat) (lengthByMarket : JsObject.t N) (markets : JsObject.t Market)
    (block : Block) (type : PaginationEntityType) (issued : list (list Call * Z)) :
  (0 < limit)%nat ->
  List.NoDup (JsObject.keys lengthByMarket) ->
  (forall key length, JsObject.get key lengthByMarket = Some length ->
     (length <= 9007199254740991)%N) ->
  (forall key page,
     In page (market_pages paginate lengthByMarket key) ->
     read_page eth_call (page_function type) markets block (page, key)
     = Fulfilled (page_addresses (page, key))) ->
  let total_pages :=
    length (flat_map (market_pages paginate lengthByMarket)
              (JsObject.keys lengthByMarket)) in
  exists addressesByMarket requests,
    getAddressesByLengths_limit eth_call paginate limit lengthByMarket markets block
      type issued
      = (Fulfilled addressesByMarket, requests ++ issued) /\
    length requests = ((total_pages + limit - 1) / limit)%nat /\
    (forall marketKey,
       JsObject.get marketKey addressesByMarket =
       match market_pages paginate lengthByMarket marketKey with
       | [] => None
       | pages =>
           Some (concat (map (fun page => page_addresses (page, marketKey)) pages))
       end) /\
    (forall limit', (0 < limit')%nat ->
       fst (getAddressesByLengths_limit eth_call paginate limit' lengthByMarket markets
              block type issued)
       = Fulfilled addressesByMarket).
Proof.
  intros Hl Hnd Hsafe Hread total_pages.
  destruct (getAddressesByLengths_limit_pages eth_call paginate page_addresses limit
              lengthByMarket markets block type issued Hl Hnd Hsafe Hread)
    as (addressesByMarket & requests & Hfetch & Hlen & _ & Hget & Hlimit).
  exists addressesByMarket, requests. auto.
Qed.

Lemma getAddressesByLengths_concatenates_witness :
  exists addressesByMarket,
    fst (getAddressesByLengths_limit paged_chain getPaginatedFromAndTo 2
           [("B", 1500%N); ("C", 3%N)] three_markets block_9 ORDER [])
      = Fulfilled addressesByMarket /\
    JsObject.get "B" addressesByMarket = Some ["stateB"; "0x1"; "0x2"; "0x3"] /\
    JsObject.get "A" addressesByMarket = None.
Proof.
  destruct (getAddressesByLengths_concatenates paged_chain getPaginatedFromAndTo
              paged_addresses 2 [("B", 1500%N); ("C", 3%N)] three_markets block_9
              ORDER [])
    as (addressesByMarket & requests & Hfetch & _ & Hget & _).
  - lia.
  - repeat constructor; simpl; intuition discriminate.
  - intros key len Hget.
    pose proof (get_Some_key _ _ _ Hget) as Hkey. simpl in Hkey.
    destruct Hkey as [<-|[<-|[]]]; vm_compute in Hget; injection Hget as <-; lia.
  - intros key page Hin. unfold market_pages in Hin.
    destruct (JsObject.get key [("B", 1500%N); ("C", 3%N)]) as [len|] eqn:Hget;
      [|contradiction].
    pose proof (get_Some_key _ _ _ Hget) as Hkey. simpl in Hkey.
    destruct Hkey as [<-|[<-|[]]]; vm_compute in Hget; injection Hget as <-;
      vm_compute in Hin; intuition (subst; reflexivity).
  - exists addressesByMarket. rewrite Hfetch. split; [reflexivity|].
    rewrite !Hget. split; reflexivity.
Defined.

Lemma pages_of_unsafe (paginate : Z -> Z -> Z -> list Page)
    (lengthByMarket : JsObject.t N) (key : string) (len : N) (keys : list string) :
  JsObject.get key lengthByMarket = Some len ->
  (9007199254740991 < len)%N ->
  (forall k, In k keys -> In k (JsObject.keys lengthByMarket)) ->
  In key keys ->
  pages_of paginate lengthByMarket keys = Rejected NumericFault.
Proof.
  intros Hget Hbig. induction keys as [|k keys IH]; intros Hkeys Hin; [contradiction|].
  cbn [pages_of].
  destruct (keys_get k lengthByMarket (Hkeys k (or_introl eq_refl))) as [v Hv].
  rewrite Hv. unfold toNumber.
  destruct (N.leb_spec v 9007199254740991) as [Hle|]; [|reflexivity].
  destruct Hin as [->|Hin]; [rewrite Hget in Hv; injection Hv as <-; lia|].
  rewrite IH; [reflexivity| |exact Hin].
  intros k' Hk'. apply Hkeys. simpl. auto.
Qed.

(** X23. A length that is not a safe integer stops [getAddressesByLengths]
    before it asks anything: if the length recorded for some market is above
    2^53 - 1, the fetch throws the overflow fault of [toNumber] and issues no
    request at all, whatever the lengths of the other markets. *)
Theorem getAddressesByLengths_unsafe_length
    (eth_call : Z -> Call -> option ReturnData) (paginate : Z -> Z -> Z -> list Page)
    (limit : nat) (lengthByMarket : JsObject.t N) (markets : JsObject.t Market)
    (block : Block) (type : PaginationEntityType) (issued : list (list Call * Z))
    (key : string) (len : N) :
  JsObject.get key lengthByMarket = Some len ->
  (9007199254740991 < len)%N ->
  getAddressesByLengths_limit eth_call paginate limit lengthByMarket markets block
    type issued
  = (Rejected NumericFault, issued).
Proof.
  intros Hget Hbig. unfold getAddressesByLengths_limit, fbind, settle.
  rewrite (pages_of_unsafe paginate lengthByMarket key len
             (JsObject.keys lengthByMarket) Hget Hbig); [reflexivity|auto|].
  apply (get_Some_key _ _ _ Hget).
Qed.

Lemma getAddressesByLengths_unsafe_length_witness :
  getAddressesByLengths paged_chain getPaginatedFromAndTo
    [("B", 1500%N); ("C", 9007199254740992%N)] three_markets block_9 ORDER []
  = (Rejected NumericFault, []).
Proof.
  apply (getAddressesByLengths_unsafe_length paged_chain getPaginatedFromAndTo
           MAX_ADDRESS_PAGE_CALLS [("B", 1500%N); ("C", 9007199254740992%N)]
           three_markets block_9 ORDER [] "C" 9007199254740992%N).
  - reflexivity.
  - lia.
Defined.

(* --------------------------------------------------------------------- *)
(** ** The two fetches end to end                                         *)
(* --------------------------------------------------------------------- *)

Import PerpsFetch.

(** The lengths fetch when the count of every market can be read. *)
Lemma getAddressLengthByMarket_counts
    (eth_call : Z -> Call -> option ReturnData) (markets : JsObject.t Market)
    (block : Block) (type : PaginationEntityType) (count : string -> N)
    (issued : list (list Call * Z)) :
  (forall key m, JsObject.get key markets = Some m ->
     onchain_count eth_call type block m = Fulfilled (count key)) ->
  exists calls,
    getAddressLengthByMarket eth_call markets block type issued
      = (Fulfilled (fold_left (keep_nonzero count) (JsObject.keys markets) []),
         (calls, number block) :: issued) /\
    length calls = length (JsObject.keys markets).
Proof.
  intros Hcount.
  set (keys := JsObject.keys markets).
  set (lcall := fun key =>
         {| target := match JsObject.get key markets with
                      | Some m => state_address m
                      | None => ""
                      end;
            callData := {| functionName := length_function type;
                           functionArgs := [] |} |}).
  set (g := fun c => default RetMalformed (eth_call (number block) c)).
  assert (Hkey : forall key, In key keys ->
            getLengthCall markets (length_function type) key = Fulfilled (lcall key) /\
            (exists state, market_state markets key = Fulfilled state) /\
            eth_call (number block) (lcall key) = Some (g (lcall key)) /\
            decode_uint (g (lcall key)) = Fulfilled (count key)).
  { intros key Hin. destruct (keys_get key markets Hin) as [m Hm].
    specialize (Hcount key m Hm). unfold onchain_count in Hcount.
    unfold getLengthCall, market_state, lcall, g. rewrite Hm.
    destruct (eth_call (number block) _) as [data|]; [|discriminate].
    simpl. eauto. }
  exists (map lcall keys). split; [|apply length_map].
  unfold getAddressLengthByMarket, fbind, settle, aggregate. fold keys.
  rewrite (map_settled_ok _ lcall) by (intros key Hin; apply (Hkey key Hin)).
  rewrite (run_calls_ok eth_call g).
  - rewrite map_map.
    pose proof (forEach_indexed_recordLength markets count
                  (fun key => g (lcall key)) keys [] []) as Hrec.
    cbn [app length] in Hrec. rewrite Hrec; [reflexivity|].
    intros key Hin. destruct (Hkey key Hin) as (_ & Hstate & _ & Hdec). auto.
  - intros c Hc. apply in_map_iff in Hc as (key & <- & Hin).
    apply (Hkey key Hin).
Qed.

Section LengthsObject.
Variable count : string -> N.

Lemma NoDup_keys_keep_nonzero (keys : list string) (acc : JsObject.t N) :
  List.NoDup (JsObject.keys acc) ->
  List.NoDup (JsObject.keys (fold_left (keep_nonzero count) keys acc)).
Proof.
  revert acc. induction keys as [|key keys IH]; intros acc Hnd; [exact Hnd|].
  apply IH. unfold keep_nonzero.
  destruct (0 <? count key)%N; [now apply NoDup_keys_set|exact Hnd].
Qed.

Lemma keys_set_absent {V} (k : string) (v : V) (o : JsObject.t V) :
  ~ In k (JsObject.keys o) -> JsObject.keys (JsObject.set k v o) = JsObject.keys o ++ [k].
Proof.
  induction o as [|[k0 v0] o IH]; simpl; intros Hout; [reflexivity|].
  destruct (String.eqb_spec k0 k) as [->|Hne]; [tauto|].
  simpl. f_equal. apply IH. tauto.
Qed.

(** The keys of the lengths object: the markets with a count above zero,
    in the order of the markets. *)
Lemma keys_fold_keep_nonzero (keys : list string) (acc : JsObject.t N) :
  List.NoDup keys ->
  (forall key, In key keys -> ~ In key (JsObject.keys acc)) ->
  JsObject.keys (fold_left (keep_nonzero count) keys acc)
  = JsObject.keys acc ++ List.filter (fun key => (0 <? count key)%N) keys.
Proof.
  revert acc. induction keys as [|key keys IH]; intros acc Hnd Hout; simpl.
  - now rewrite app_nil_r.
  - inversion Hnd as [|? ? Hfresh Hrest]; subst.
    unfold keep_nonzero at 2. destruct (0 <? count key)%N.
    + rewrite IH; [|exact Hrest|].
      * rewrite keys_set_absent by (apply Hout; simpl; auto).
        now rewrite <- app_assoc.
      * intros key' Hin. rewrite In_keys_set. intros [->|Hin']; [contradiction|].
        apply (Hout key'); simpl; auto.
    + apply IH; [exact Hrest|]. intros key' Hin. apply Hout. simpl. auto.
Qed.

(** The pages of a market of the lengths object. *)
Lemma market_pages_keep_nonzero (paginate : Z -> Z -> Z -> list Page)
    (keys : list string) (key : string) :
  market_pages paginate (fold_left (keep_nonzero count) keys []) key
  = if existsb (String.eqb key) keys && (0 <? count key)%N
    then paginate 0 (Z.of_N (count key)) MAX_ADDRESS_PAGE_SIZE
    else [].
Proof.
  unfold market_pages. rewrite get_fold_keep_nonzero.
  now destruct (existsb (String.eqb key) keys && (0 <? count key)%N).
Qed.
End LengthsObject.

Lemma existsb_eqb_In (key : string) (keys : list string) :
  existsb (String.eqb key) keys = true <-> In key keys.
Proof.
  rewrite existsb_exists. split.
  - intros (key' & Hin & Heq). apply String.eqb_eq in Heq. now subst.
  - intros Hin. exists key. split; [exact Hin|apply String.eqb_refl].
Qed.

Lemma fst_lift {A} (m : Fetch A) (t : Trace) : fst (lift m t) = fst (m (requests t)).
Proof. unfold lift. now destruct (m (requests t)). Qed.

Lemma in_concat_map {A B} (f : A -> list B) (b : B) (l : list A) :
  In b (concat (map f l)) -> exists a, In a l /\ In b (f a).
Proof.
  intros Hin. apply in_concat in Hin as (bs & Hbs & Hb).
  apply in_map_iff in Hbs as (a & <- & Ha). eauto.
Qed.

(** X18. [getPendingOrders] end to end: when the count, the address pages
    and the delayed orders of the markets can be read at the pinned block,
    the result holds, under each market, the orders of the addresses its
    state contract lists, in the order of the pages and within a page, for
    the delayed orders flagged off-chain only; a market with a count of zero,
    or none of whose orders is off-chain, is not a key of the result. *)
Theorem getPendingOrders_by_market
    (eth_call : Z -> Call -> option ReturnData) (paginate : Z -> Z -> Z -> list Page)
    (markets : JsObject.t Market) (block : Block) (count : string -> N)
    (listed : string -> Page -> list string)
    (raw : string -> string -> DelayedOrderStruct) (t : Trace) :
  let pages := fun key => paginate 0 (Z.of_N (count key)) MAX_ADDRESS_PAGE_SIZE in
  let pending := fun key =>
    if (0 <? count key)%N then concat (map (listed key) (pages key)) else [] in
  (forall key m, JsObject.get key markets = Some m ->
     onchain_count eth_call ORDER block m = Fulfilled (count key) /\
     (count key <= 9007199254740991)%N) ->
  (forall key m page,
     JsObject.get key markets = Some m -> (0 < count key)%N -> In page (pages key) ->
     eth_call (number block)
       {| target := state_address m;
          callData := {| functionName := "getDelayedOrderAddressesPage";
                         functionArgs := [ArgUint (from page); ArgUint (size page)] |} |}
     = Some (RetAddresses (listed key page))) ->
  (forall key m address,
     JsObject.get key markets = Some m -> In address (pending key) ->
     eth_call (number block) (entity_read_call "delayedOrders" (state_address m) address)
     = Some (RetDelayedOrder (raw key address))) ->
  exists ordersByMarket,
    fst (getPendingOrders eth_call paginate markets block t) = Fulfilled ordersByMarket /\
    forall key,
      JsObject.get key ordersByMarket =
      match flat_map
              (fun address =>
                 if do_isOffchain (raw key address)
                 then [delayedOrder_of address (raw key address)]
                 else [])
              (if existsb (String.eqb key) (JsObject.keys markets) then pending key
               else []) with
      | [] => None
      | orders => Some orders
      end.
Proof.
  intros pages pending Hcount Hpage Hraw.
  destruct (getAddressLengthByMarket_counts eth_call markets block ORDER count
              (requests t)) as (calls & Hlengths & _).
  { intros key m Hm. apply (Hcount key m Hm). }
  unfold getPendingOrders, tbind, info.
  unfold lift at 1. cbn [requests directCalls logged]. rewrite Hlengths.
  clear Hlengths.
  set (keys := JsObject.keys markets).
  set (lengthByMarket := fold_left (keep_nonzero count) keys []).
  assert (Hmp : forall key,
            market_pages paginate lengthByMarket key =
            if existsb (String.eqb key) keys && (0 <? count key)%N
            then pages key else []).
  { intros key. apply market_pages_keep_nonzero. }
  destruct (isEmpty lengthByMarket) eqn:Hempty.
  - exists []. split; [reflexivity|]. intros key. simpl.
    destruct lengthByMarket as [|entry rest] eqn:Hl; [|discriminate].
    pose proof (get_fold_keep_nonzero count key keys []) as Hget.
    fold lengthByMarket in Hget. rewrite Hl in Hget. simpl in Hget.
    destruct (existsb (String.eqb key) keys); [|reflexivity].
    unfold pending. simpl in Hget.
    destruct (0 <? count key)%N; [discriminate|reflexivity].
  - destruct (getAddressesByLengths_limit_pages eth_call paginate
                (fun item => listed (snd item) (fst item)) MAX_ADDRESS_PAGE_CALLS
                lengthByMarket markets block ORDER ((calls, number block) :: requests t))
      as (addressesByMarket & requests' & Hfetch & _ & Hnd & Hget & _).
    + unfold MAX_ADDRESS_PAGE_CALLS. lia.
    + apply NoDup_keys_keep_nonzero. constructor.
    + intros key len Hlen. pose proof (get_fold_keep_nonzero count key keys []) as Hg.
      fold lengthByMarket in Hg. rewrite Hlen in Hg.
      destruct (existsb (String.eqb key) keys) eqn:Hex; [|discriminate].
      apply existsb_eqb_In in Hex. destruct (keys_get key markets Hex) as [m Hm].
      simpl in Hg. destruct (0 <? count key)%N; [|discriminate].
      injection Hg as ->. apply (Hcount key m Hm).
    + intros key page Hin. rewrite Hmp in Hin.
      destruct (existsb (String.eqb key) keys) eqn:Hex; [|contradiction].
      apply existsb_eqb_In in Hex. destruct (keys_get key markets Hex) as [m Hm].
      simpl in Hin. destruct (N.ltb_spec 0 (count key)) as [Hpos|]; [|contradiction].
      unfold read_page, getPageCall, market_state. simpl. rewrite Hm.
      now rewrite (Hpage key m page Hm Hpos Hin).
    + unfold getAddressesByLengths. unfold lift at 1.
      cbn [requests directCalls logged]. rewrite Hfetch.
      set (ent := fun pair : string * string =>
                    if do_isOffchain (raw (snd pair) (fst pair))
                    then Some (delayedOrder_of (fst pair) (raw (snd pair) (fst pair)))
                    else None).
      assert (Hlisted : forall key,
                default [] (JsObject.get key addressesByMarket)
                = if existsb (String.eqb key) keys then pending key else []).
      { intros key. rewrite Hget, Hmp. unfold pending.
        destruct (existsb (String.eqb key) keys); simpl; [|reflexivity].
        destruct (0 <? count key)%N; [|reflexivity].
        now destruct (pages key). }
      destruct (fetch_batches_by_market ent eth_call "delayedOrders" build_order markets
                  block MAX_ENTITY_PAGE_CALLS addressesByMarket (requests' ++ (calls, number block) :: requests t))
        as (result & Hr & Hres).
      * unfold MAX_ENTITY_PAGE_CALLS. lia.
      * exact Hnd.
      * intros [address key] Hin.
        destruct (in_flattened address key addressesByMarket Hin)
          as (addresses & Ha & Hin').
        pose proof (Hlisted key) as Hl. rewrite Ha in Hl. simpl in Hl.
        destruct (existsb (String.eqb key) keys) eqn:Hex;
          [|subst addresses; contradiction].
        apply existsb_eqb_In in Hex. destruct (keys_get key markets Hex) as [m Hm].
        subst addresses.
        unfold read_entity, entity_call, market_state. simpl. rewrite Hm.
        pose proof (Hraw key m address Hm Hin') as Hcall.
        unfold entity_read_call in Hcall. rewrite Hcall.
        unfold build_order, ent. simpl.
        now destruct (do_isOffchain (raw key address)).
      * exists result. split.
        { rewrite fst_lift. cbn [requests]. exact Hr. }
        intros key. rewrite Hres, Hlisted. unfold kept, ent. simpl.
        assert (Hsame : forall l,
                  flat_map (fun address =>
                     match (if do_isOffchain (raw key address)
                            then Some (delayedOrder_of address (raw key address))
                            else None) with
                     | Some entity => [entity] | None => [] end) l
                  = flat_map (fun address =>
                     if do_isOffchain (raw key address)
                     then [delayedOrder_of address (raw key address)] else []) l).
        { intros l. apply flat_map_ext. intros a. now destruct (do_isOffchain _). }
        now rewrite Hsame.
Qed.

Lemma getPendingOrders_by_market_witness :
  exists ordersByMarket,
    fst (getPendingOrders paged_chain getPaginatedFromAndTo three_markets block_9
           {| requests := []; directCalls := []; logged := [] |})
      = Fulfilled ordersByMarket /\
    JsObject.get "A" ordersByMarket = None /\
    JsObject.get "B" ordersByMarket
      = Some (map (fun address =>
                     delayedOrder_of address
                       {| do_isOffchain := true; do_executableAtTime := 10;
                          do_intentionTime := 5 |})
                ["stateB"; "0x1"; "0x3"]).
Proof.
  destruct (getPendingOrders_by_market paged_chain getPaginatedFromAndTo three_markets
              block_9 three_counts (fun key page => paged_addresses (page, key))
              (fun _ address =>
                 {| do_isOffchain := negb (String.eqb address "0x2");
                    do_executableAtTime := 10; do_intentionTime := 5 |})
              {| requests := []; directCalls := []; logged := [] |})
    as (ordersByMarket & Hfetch & Hget).
  - intros key m Hm. pose proof (get_Some_key key m three_markets Hm) as Hin.
    simpl in Hin. destruct Hin as [<-|[<-|[<-|[]]]];
      vm_compute in Hm; injection Hm as <-; (split; [reflexivity|vm_compute; discriminate]).
  - intros key m page Hm Hpos Hin.
    pose proof (get_Some_key key m three_markets Hm) as Hkey.
    simpl in Hkey. destruct Hkey as [<-|[<-|[<-|[]]]];
      vm_compute in Hm; injection Hm as <-; vm_compute in Hin;
      intuition (subst; reflexivity).
  - intros key m address Hm Hin.
    pose proof (get_Some_key key m three_markets Hm) as Hkey.
    simpl in Hkey. destruct Hkey as [<-|[<-|[<-|[]]]];
      vm_compute in Hm; injection Hm as <-; vm_compute in Hin;
      intuition (subst; reflexivity).
  - exists ordersByMarket. split; [exact Hfetch|]. rewrite !Hget. split; reflexivity.
Defined.

Lemma map_settled_map {A B C} (f : B -> Settled C) (h : A -> B) (xs : list A) :
  map_settled f (map h xs) = map_settled (fun x => f (h x)) xs.
Proof.
  induction xs as [|x xs IH]; simpl; [reflexivity|]. now rewrite IH.
Qed.

Lemma get_fold_set {V} (value : string -> V) (key : string) (keys : list string)
    (acc : JsObject.t V) :
  JsObject.get key (fold_left (fun acc key => JsObject.set key (value key) acc) keys acc)
  = if existsb (String.eqb key) keys then Some (value key) else JsObject.get key acc.
Proof.
  revert acc. induction keys as [|k keys IH]; intros acc; simpl; [reflexivity|].
  rewrite IH. destruct (existsb (String.eqb key) keys).
  - now rewrite orb_true_r.
  - rewrite orb_false_r. destruct (String.eqb_spec key k) as [->|Hne].
    + apply get_set_eq.
    + apply get_set_ne. congruence.
Qed.

Lemma NoDup_keys_fold_set {V} (value : string -> V) (keys : list string)
    (acc : JsObject.t V) :
  List.NoDup (JsObject.keys acc) ->
  List.NoDup (JsObject.keys
                (fold_left (fun acc key => JsObject.set key (value key) acc) keys acc)).
Proof.
  revert acc. induction keys as [|k keys IH]; intros acc Hnd; [exact Hnd|].
  apply IH. now apply NoDup_keys_set.
Qed.

Section MarketAddresses.
Variable paginate : Z -> Z -> Z -> list Page.
Variable direct : DirectCall -> option (list string).
Variable lengthByMarket : JsObject.t N.
Variable markets : JsObject.t Market.
Variable block : Block.
Variable count : string -> N.
Variable associated : string -> list string.
Variable listed : string -> Page -> list string.

Local Abbreviation pages_for :=
  (fun key => paginate 0 (Z.of_N (count key)) MAX_ADDRESS_PAGE_SIZE).

Local Abbreviation readable :=
  (readable_market paginate direct lengthByMarket markets block count associated listed).

(** One turn of the loop over the markets of [getOpenPositions]. *)
Lemma fetch_market_addresses_readable key acc t :
  readable key ->
  exists t',
    fetch_market_addresses paginate direct lengthByMarket markets block key acc t
      = (Fulfilled (JsObject.set key (concat (map (listed key) (pages_for key))) acc), t') /\
    requests t' = requests t /\
    directCalls t'
      = rev (market_direct_calls paginate count associated markets block key)
          ++ directCalls t.
Proof.
  intros (m & Hm & Hlen & Hsafe & Hassoc & Hpages).
  unfold fetch_market_addresses, tbind, tsettle, info, await_direct, promise_all,
    market_state, direct_result, market_direct_calls.
  rewrite Hm, Hassoc, Hlen. unfold toNumber.
  destruct (N.leb_spec (count key) 9007199254740991); [|lia].
  unfold getPositionAddressesCalls. rewrite map_settled_map.
  rewrite (map_settled_ok _ (listed key)).
  - eexists. split; [reflexivity|]. cbn [requests directCalls]. split; [reflexivity|].
    cbn [rev]. now rewrite <- app_assoc.
  - intros page Hin. unfold direct_result. now rewrite (Hpages page Hin).
Qed.

Lemma tfor_fetch_market_addresses keys acc t :
  (forall key, In key keys -> readable key) ->
  exists t',
    tfor (fetch_market_addresses paginate direct lengthByMarket markets block) keys acc t
      = (Fulfilled
           (fold_left
              (fun acc key =>
                 JsObject.set key (concat (map (listed key) (pages_for key))) acc)
              keys acc), t') /\
    requests t' = requests t /\
    directCalls t'
      = rev (flat_map (market_direct_calls paginate count associated markets block) keys)
          ++ directCalls t.
Proof.
  revert acc t. induction keys as [|key keys IH]; intros acc t Hall.
  - exists t. simpl. auto.
  - destruct (fetch_market_addresses_readable key acc t) as (t1 & Hstep & Hreq1 & Hdc1).
    { apply Hall. simpl. auto. }
    destruct (IH (JsObject.set key (concat (map (listed key) (pages_for key))) acc) t1)
      as (t' & Hloop & Hreq & Hdc).
    { intros key' Hin. apply Hall. simpl. auto. }
    exists t'. cbn [tfor fold_left flat_map]. unfold tbind at 1. rewrite Hstep, Hloop.
    split; [reflexivity|]. split; [congruence|].
    rewrite Hdc, Hdc1, rev_app_distr. now rewrite app_assoc.
Qed.
End MarketAddresses.

Lemma total_length_safe (lengthByMarket : JsObject.t N) :
  Forall (fun entry => (snd entry <= 9007199254740991)%N) lengthByMarket ->
  exists total, total_length lengthByMarket = Fulfilled total.
Proof.
  intros Hsafe. unfold total_length, JsObject.values.
  rewrite map_settled_map.
  rewrite (map_settled_ok _ (fun entry => Z.of_N (snd entry))); [eauto|].
  intros entry Hin. rewrite List.Forall_forall in Hsafe. specialize (Hsafe entry Hin).
  unfold toNumber. destruct (N.leb_spec (snd entry) 9007199254740991); [reflexivity|lia].
Qed.

Lemma Forall_fold_keep_nonzero (P : string * N -> Prop) (count : string -> N)
    (keys : list string) (acc : JsObject.t N) :
  (forall key, In key keys -> P (key, count key)) ->
  Forall P acc -> Forall P (fold_left (keep_nonzero count) keys acc).
Proof.
  revert acc. induction keys as [|key keys IH]; intros acc Hkeys Hacc; [exact Hacc|].
  apply IH; [intros k Hin; apply Hkeys; simpl; auto|].
  unfold keep_nonzero. destruct (0 <? count key)%N; [|exact Hacc].
  apply Forall_set; [apply Hkeys; simpl; auto|exact Hacc].
Qed.

Lemma snd_lift_directCalls {A} (m : Fetch A) (t : Trace) :
  directCalls (snd (lift m t)) = directCalls t.
Proof. unfold lift. now destruct (m (requests t)). Qed.

(** X19. [getOpenPositions] end to end: when the counts, the direct calls
    on the state contracts and the positions can be read, the direct calls
    made are, for each market with a count above zero and in the order of
    the markets, [associatedContracts()] followed by one
    [getPositionAddressesPage] per page, all sent from the first associated
    contract and pinned at the block's number (none at all when every count
    is zero); and the result holds, under each such market, one position per
    address of its pages, in the order of the pages and within a page. *)
Theorem getOpenPositions_by_market
    (eth_call : Z -> Call -> option ReturnData) (paginate : Z -> Z -> Z -> list Page)
    (direct : DirectCall -> option (list string)) (Num : Type)
    (size_toNumber : Z -> Num) (leverage_toNumber : Z -> Z -> Z -> Settled Num)
    (markets : JsObject.t Market) (block : Block) (count : string -> N)
    (associated : string -> list string) (listed : string -> Page -> list string)
    (raw : string -> string -> PositionStruct) (lev : string -> string -> Num)
    (t : Trace) :
  let pages := fun key => paginate 0 (Z.of_N (count key)) MAX_ADDRESS_PAGE_SIZE in
  let open := fun key =>
    if (0 <? count key)%N then concat (map (listed key) (pages key)) else [] in
  List.NoDup (JsObject.keys markets) ->
  (forall key m, JsObject.get key markets = Some m ->
     onchain_count eth_call POSITION block m = Fulfilled (count key) /\
     (count key <= 9007199254740991)%N) ->
  (forall key m,
     JsObject.get key markets = Some m -> (0 < count key)%N ->
     direct (AssociatedContracts (state_address m)) = Some (associated key) /\
     forall page, In page (pages key) ->
       direct (PositionAddressesPage (state_address m) (nth_error (associated key) 0)
                 (from page) (size page) (number block))
       = Some (listed key page)) ->
  (forall key m address,
     JsObject.get key markets = Some m -> In address (open key) ->
     eth_call (number block) (entity_read_call "positions" (state_address m) address)
     = Some (RetPosition (raw key address)) /\
     leverage_toNumber (ps_size (raw key address)) (ps_lastPrice (raw key address))
       (ps_margin (raw key address))
     = Fulfilled (lev key address)) ->
  let run := getOpenPositions eth_call paginate direct Num size_toNumber
               leverage_toNumber markets block t in
  exists positionsByMarket,
    fst run = Fulfilled positionsByMarket /\
    (forall key,
       JsObject.get key positionsByMarket =
       match map (fun address =>
                    position_of size_toNumber block address (raw key address)
                      (lev key address))
               (if existsb (String.eqb key) (JsObject.keys markets) then open key
                else []) with
       | [] => None
       | found => Some found
       end) /\
    directCalls (snd run)
      = rev (flat_map (market_direct_calls paginate count associated markets block)
               (with_entities count markets))
          ++ directCalls t.
Proof.
  intros pages open Hnd Hcount Hdirect Hraw run.
  destruct run as [settled final] eqn:Hrun. unfold run in Hrun. clear run.
  cbn [fst snd].
  destruct (getAddressLengthByMarket_counts eth_call markets block POSITION count
              (requests t)) as (calls & Hlengths & _).
  { intros key m Hm. apply (Hcount key m Hm). }
  unfold getOpenPositions, tbind, info in Hrun.
  unfold lift at 1 in Hrun. cbn [requests directCalls logged] in Hrun.
  rewrite Hlengths in Hrun. clear Hlengths. revert Hrun.
  set (keys := JsObject.keys markets).
  set (lengthByMarket := fold_left (keep_nonzero count) keys []).
  assert (Hkeys : JsObject.keys lengthByMarket = with_entities count markets).
  { unfold lengthByMarket. rewrite keys_fold_keep_nonzero; [reflexivity|exact Hnd|].
    intros key _ []. }
  assert (Hlen : forall key,
            JsObject.get key lengthByMarket =
            if existsb (String.eqb key) keys && (0 <? count key)%N
            then Some (count key) else None).
  { intros key. apply get_fold_keep_nonzero. }
  destruct (isEmpty lengthByMarket) eqn:Hempty.
  - destruct lengthByMarket as [|entry rest] eqn:Hl; [|discriminate].
    intros [= <- <-].
    exists []. split; [reflexivity|]. split.
    + intros key. simpl. specialize (Hlen key). simpl in Hlen.
      destruct (existsb (String.eqb key) keys); [|reflexivity].
      unfold open. simpl in Hlen.
      destruct (0 <? count key)%N; [discriminate|reflexivity].
    + rewrite <- Hkeys. reflexivity.
  - set (t1 := {| requests := (calls, number block) :: requests t;
                  directCalls := directCalls t;
                  logged := FetchingPositionsPinned (number block) :: logged t |}).
    destruct (tfor_fetch_market_addresses paginate direct lengthByMarket markets block
                count associated listed (JsObject.keys lengthByMarket) [] t1)
      as (t2 & Hloop & Hreq & Hdc).
    { intros key Hin. destruct (keys_get key lengthByMarket Hin) as [len Hget].
      rewrite Hlen in Hget.
      destruct (existsb (String.eqb key) keys) eqn:Hex; [|discriminate].
      apply existsb_eqb_In in Hex. destruct (keys_get key markets Hex) as [m Hm].
      simpl in Hget. destruct (N.ltb_spec 0 (count key)) as [Hpos|]; [|discriminate].
      destruct (Hdirect key m Hm Hpos) as [Hassoc Hpages].
      exists m. repeat split; auto.
      - rewrite Hlen. apply existsb_eqb_In in Hex. fold keys in Hex. rewrite Hex. simpl.
        destruct (N.ltb_spec 0 (count key)); [reflexivity|lia].
      - apply (Hcount key m Hm). }
    fold t1. rewrite Hloop.
    destruct (total_length_safe lengthByMarket) as [total Htotal].
    { apply Forall_fold_keep_nonzero; [|constructor].
      intros key Hin. destruct (keys_get key markets Hin) as [m Hm]. simpl.
      apply (Hcount key m Hm). }
    unfold tsettle. rewrite Htotal.
    set (addressesByMarket :=
           fold_left (fun acc key =>
                        JsObject.set key (concat (map (listed key) (pages key))) acc)
             (JsObject.keys lengthByMarket) []).
    assert (Hlisted : forall key,
              default [] (JsObject.get key addressesByMarket)
              = if existsb (String.eqb key) keys then open key else []).
    { intros key. unfold addressesByMarket. rewrite get_fold_set. simpl.
      destruct (existsb (String.eqb key) (JsObject.keys lengthByMarket)) eqn:Hin.
      - apply existsb_eqb_In in Hin.
        destruct (keys_get key lengthByMarket Hin) as [len Hget].
        rewrite Hlen in Hget. unfold open.
        destruct (existsb (String.eqb key) keys); [|discriminate].
        simpl in Hget. now destruct (0 <? count key)%N.
      - assert (Hnone : JsObject.get key lengthByMarket = None).
        { apply get_None_keys. intros Hk. apply existsb_eqb_In in Hk. congruence. }
        rewrite Hlen in Hnone. unfold open.
        destruct (existsb (String.eqb key) keys); [|reflexivity].
        simpl in Hnone. now destruct (0 <? count key)%N. }
    set (ent := fun pair : string * string =>
                  Some (position_of size_toNumber block (fst pair)
                          (raw (snd pair) (fst pair)) (lev (snd pair) (fst pair)))).
    set (t3 := {| requests := requests t2; directCalls := directCalls t2;
                  logged := FetchedAllPositions total :: logged t2 |}).
    destruct (fetch_batches_by_market ent eth_call "positions"
                (build_position Num size_toNumber leverage_toNumber block) markets block
                MAX_ENTITY_PAGE_CALLS addressesByMarket (requests t3))
      as (result & Hr & Hres).
    + unfold MAX_ENTITY_PAGE_CALLS. lia.
    + apply NoDup_keys_fold_set. constructor.
    + intros [address key] Hin.
      destruct (in_flattened address key addressesByMarket Hin)
        as (addresses & Ha & Hin').
      pose proof (Hlisted key) as Hl. rewrite Ha in Hl. simpl in Hl.
      destruct (existsb (String.eqb key) keys) eqn:Hex;
        [|subst addresses; contradiction].
      apply existsb_eqb_In in Hex. destruct (keys_get key markets Hex) as [m Hm].
      subst addresses.
      destruct (Hraw key m address Hm Hin') as [Hcall Hlev].
      unfold read_entity, entity_call, market_state. simpl. rewrite Hm.
      unfold entity_read_call in Hcall. rewrite Hcall.
      unfold build_position, ent. simpl. now rewrite Hlev.
    + fold addressesByMarket t3. intros Hrun.
      exists result. split; [|split].
      * pose proof (f_equal fst Hrun) as Hfst. rewrite fst_lift in Hfst.
        cbn [fst] in Hfst. rewrite <- Hfst. exact Hr.
      * intros key. rewrite Hres, Hlisted. unfold kept, ent. simpl.
        now rewrite flat_map_singleton.
      * apply (f_equal (fun p => directCalls (snd p))) in Hrun.
        rewrite snd_lift_directCalls in Hrun. unfold t3 in Hrun.
        cbn [snd directCalls] in Hrun.
        rewrite <- Hrun, Hdc, Hkeys. reflexivity.
Qed.

Lemma getOpenPositions_by_market_witness :
  exists positionsByMarket,
    fst (getOpenPositions three_chain getPaginatedFromAndTo state_contracts Z plain_size
           plain_leverage three_markets block_9
           {| requests := []; directCalls := []; logged := [] |})
      = Fulfilled positionsByMarket /\
    JsObject.get "A" positionsByMarket = None /\
    JsObject.get "C" positionsByMarket
      = Some (map (fun address =>
                     {| account := address; id := 1; position_size := 2; leverage := 6;
                        liqPrice := -1; liqPriceUpdatedTimestamp := 1700000000 |})
                ["stateC"; "0x1"; "0x2"]).
Proof.
  destruct (getOpenPositions_by_market three_chain getPaginatedFromAndTo state_contracts
              Z plain_size plain_leverage three_markets block_9 three_counts
              (fun _ => ["proxy"]) (fun key page => paged_addresses (page, key))
              (fun _ _ => {| ps_id := 1; ps_margin := 1; ps_size := 2; ps_lastPrice := 3 |})
              (fun _ _ => 6)
              {| requests := []; directCalls := []; logged := [] |})
    as (positionsByMarket & Hfetch & Hget & _).
  - repeat constructor; simpl; intuition discriminate.
  - intros key m Hm. pose proof (get_Some_key key m three_markets Hm) as Hin.
    simpl in Hin. destruct Hin as [<-|[<-|[<-|[]]]];
      vm_compute in Hm; injection Hm as <-; (split; [reflexivity|vm_compute; discriminate]).
  - intros key m Hm Hpos. split; [reflexivity|]. intros page Hin.
    pose proof (get_Some_key key m three_markets Hm) as Hkey.
    simpl in Hkey. destruct Hkey as [<-|[<-|[<-|[]]]];
      vm_compute in Hm; injection Hm as <-; vm_compute in Hin;
      intuition (subst; reflexivity).
  - intros key m address Hm Hin. split; reflexivity.
  - exists positionsByMarket. split; [exact Hfetch|]. rewrite !Hget. split; reflexivity.
Defined.

Lemma fold_keep_nonzero_none (keys : list string) (acc : JsObject.t N) :
  fold_left (keep_nonzero (fun _ => 0%N)) keys acc = acc.
Proof. revert acc. induction keys as [|key keys IH]; intros acc; [reflexivity|apply IH]. Qed.

(** X20. With no pending order in any market, [getPendingOrders] stops after
    the lengths: it returns the empty object having issued one aggregate
    request, of one call per market, and logged its one message; no address
    page and no delayed order is asked for. *)
Theorem getPendingOrders_nothing_pending
    (eth_call : Z -> Call -> option ReturnData) (paginate : Z -> Z -> Z -> list Page)
    (markets : JsObject.t Market) (block : Block) (t : Trace) :
  (forall key m, JsObject.get key markets = Some m ->
     onchain_count eth_call ORDER block m = Fulfilled 0%N) ->
  exists calls,
    getPendingOrders eth_call paginate markets block t
      = (Fulfilled [],
         {| requests := (calls, number block) :: requests t;
            directCalls := directCalls t;
            logged := FetchingOrdersPinned (number block) :: logged t |}) /\
    length calls = length (JsObject.keys markets).
Proof.
  intros Hnone.
  destruct (getAddressLengthByMarket_counts eth_call markets block ORDER (fun _ => 0%N)
              (requests t) Hnone) as (calls & Hlengths & Hcalls).
  exists calls. split; [|exact Hcalls].
  unfold getPendingOrders, tbind, info, lift. cbn [requests directCalls logged].
  rewrite Hlengths, fold_keep_nonzero_none. reflexivity.
Qed.

Lemma getPendingOrders_nothing_pending_witness :
  fst (getPendingOrders three_chain getPaginatedFromAndTo [("A", market_of "A")] block_9
         {| requests := []; directCalls := []; logged := [] |})
  = Fulfilled [].
Proof.
  destruct (getPendingOrders_nothing_pending three_chain getPaginatedFromAndTo
              [("A", market_of "A")] block_9
              {| requests := []; directCalls := []; logged := [] |})
    as (calls & Hrun & _).
  - intros key m Hm. pose proof (get_Some_key key m _ Hm) as Hin.
    simpl in Hin. destruct Hin as [<-|[]].
    vm_compute in Hm. injection Hm as <-. reflexivity.
  - now rewrite Hrun.
Defined.

(* --------------------------------------------------------------------- *)
(** ** The markets kept at start-up                                        *)
(* --------------------------------------------------------------------- *)

Import PerpsContracts.

Section KeptMarkets.
Variable getSource : string -> string -> option string.
Variable getTarget : string -> string -> option string.
Variable parseBytes32String : string -> Settled string.
Variable marketKeys : list string.
Variable network : Network.
Variable snxNetwork : string.
Variable abi : string.
Variable keyOf : MarketSummary -> string.
Variable assetOf : MarketSummary -> string.
Variable stateOf : string -> string.

Hypothesis network_supported : networkToSynthetixNetworkName network = Fulfilled snxNetwork.
Hypothesis state_source : getSource snxNetwork "PerpsV2MarketState" = Some abi.

Local Abbreviation entry_of :=
  (fun summary =>
     {| contract := market summary; asset := assetOf summary;
        state_address := stateOf (keyOf summary) |}).

Local Abbreviation keep :=
  (fun (acc : JsObject.t Market) summary =>
     if proxied summary && explicit marketKeys (keyOf summary)
     then JsObject.set (keyOf summary) (entry_of summary) acc
     else acc).

Local Abbreviation lookups_ok :=
  (fun summary =>
     parseBytes32String (marketKey summary) = Fulfilled (keyOf summary) /\
     (proxied summary = true -> explicit marketKeys (keyOf summary) = true ->
      parseBytes32String (summary_asset summary) = Fulfilled (assetOf summary) /\
      getTarget snxNetwork
        (String.append "PerpsV2MarketState" (replace_leading_s (keyOf summary)))
      = Some (stateOf (keyOf summary)))).

Lemma keepMarket_ok acc summary logs :
  lookups_ok summary ->
  fst (keepMarket getSource getTarget parseBytes32String marketKeys network acc summary
         logs)
  = Fulfilled (keep acc summary).
Proof.
  intros [Hkey Hkept]. unfold keepMarket, sbind, ssettle. rewrite Hkey.
  unfold explicit in *.
  destruct (proxied summary); simpl; [|reflexivity].
  destruct (0 <? length marketKeys)%nat; simpl.
  - destruct (existsb (String.eqb (keyOf summary)) marketKeys); simpl; [|reflexivity].
    destruct Hkept as [Hasset Htarget]; [reflexivity|reflexivity|].
    unfold getSynthetixContractByName, sbind, ssettle, logger_info, sret.
    rewrite network_supported. simpl. rewrite state_source, Htarget, Hasset. reflexivity.
  - destruct Hkept as [Hasset Htarget]; [reflexivity|reflexivity|].
    unfold getSynthetixContractByName, sbind, ssettle, logger_info, sret.
    rewrite network_supported. simpl. rewrite state_source, Htarget, Hasset. reflexivity.
Qed.

Lemma reduce_markets_ok summaries acc logs :
  (forall summary, In summary summaries -> lookups_ok summary) ->
  fst (reduce_markets getSource getTarget parseBytes32String marketKeys network
         summaries acc logs)
  = Fulfilled (fold_left keep summaries acc).
Proof.
  revert acc logs. induction summaries as [|summary rest IH]; intros acc logs Hall.
  - reflexivity.
  - cbn [reduce_markets fold_left]. unfold sbind.
    pose proof (keepMarket_ok acc summary logs (Hall summary (or_introl eq_refl))) as Hstep.
    destruct (keepMarket _ _ _ _ _ acc summary logs) as [settled logs'].
    simpl in Hstep. subst settled.
    apply IH. intros s Hin. apply Hall. simpl. auto.
Qed.

Lemma get_fold_keep key summaries acc :
  JsObject.get key (fold_left keep summaries acc)
  = match find (fun summary => proxied summary && String.eqb (keyOf summary) key)
            (rev summaries) with
    | Some summary =>
        if explicit marketKeys key then Some (entry_of summary)
        else JsObject.get key acc
    | None => JsObject.get key acc
    end.
Proof.
  induction summaries as [|summary rest IH] using rev_ind; [reflexivity|].
  rewrite fold_left_app, rev_app_distr. cbn [fold_left rev app find].
  destruct (proxied summary); cbn [andb].
  - destruct (String.eqb_spec (keyOf summary) key) as [<-|Hne].
    + destruct (explicit marketKeys (keyOf summary)) eqn:Hex.
      * apply get_set_eq.
      * rewrite IH.
        destruct (find _ (rev rest)); reflexivity.
    + destruct (explicit marketKeys (keyOf summary)); [|exact IH].
      rewrite get_set_ne by congruence. exact IH.
  - exact IH.
Qed.
End KeptMarkets.

(** X21. The markets [getPerpsContracts] keeps: when the lookups go
    through, a market key is kept exactly when one of the summaries of that
    key is proxied and the key is asked for (no explicit market at all, or the
    key among them); its entry is made of the last proxied summary of the
    key (market contract and asset) and of the state contract registered
    under "PerpsV2MarketState" followed by the key without one leading "s". *)
Theorem keptMarkets_selected
    (getSource getTarget : string -> string -> option string)
    (parseBytes32String : string -> Settled string) (marketKeys : list string)
    (network : Network) (snxNetwork abi : string)
    (keyOf assetOf : MarketSummary -> string) (stateOf : string -> string)
    (marketSummaries : list MarketSummary) (logs : list SetupLog) :
  networkToSynthetixNetworkName network = Fulfilled snxNetwork ->
  getSource snxNetwork "PerpsV2MarketState" = Some abi ->
  (forall summary, In summary marketSummaries ->
     parseBytes32String (marketKey summary) = Fulfilled (keyOf summary) /\
     (proxied summary = true -> explicit marketKeys (keyOf summary) = true ->
      parseBytes32String (summary_asset summary) = Fulfilled (assetOf summary) /\
      getTarget snxNetwork
        (String.append "PerpsV2MarketState" (replace_leading_s (keyOf summary)))
      = Some (stateOf (keyOf summary)))) ->
  exists markets,
    fst (keptMarkets getSource getTarget parseBytes32String marketKeys network
           marketSummaries logs)
      = Fulfilled markets /\
    forall key,
      JsObject.get key markets =
      match find (fun summary => proxied summary && String.eqb (keyOf summary) key)
              (rev marketSummaries) with
      | Some summary =>
          if explicit marketKeys key
          then Some {| contract := market summary; asset := assetOf summary;
                       state_address := stateOf key |}
          else None
      | None => None
      end.
Proof.
  intros Hnetwork Hsource Hall. eexists. split.
  - unfold keptMarkets.
    apply (reduce_markets_ok getSource getTarget parseBytes32String marketKeys network
             snxNetwork abi keyOf assetOf stateOf Hnetwork Hsource marketSummaries []
             logs Hall).
  - intros key. rewrite get_fold_keep. simpl.
    destruct (find _ (rev marketSummaries)) as [summary|] eqn:Hfind; [|reflexivity].
    apply find_some in Hfind as [_ Hpred].
    apply andb_prop in Hpred as [_ Heq]. apply String.eqb_eq in Heq. now rewrite Heq.
Qed.

Lemma keptMarkets_selected_witness :
  fst (keptMarkets registry_source registry_target (fun value => Fulfilled value)
         ["sETH"; "sBTC"] OPT summaries_3 [])
  = Fulfilled [("sETH", {| contract := "0x1"; asset := "ETH"; state_address := "0xE" |})].
Proof.
  destruct (keptMarkets_selected registry_source registry_target
              (fun value => Fulfilled value) ["sETH"; "sBTC"] OPT "mainnet-ovm" "abi"
              marketKey summary_asset (fun _ => "0xE") summaries_3 [])
    as (markets & Hkept & _).
  - reflexivity.
  - reflexivity.
  - intros summary Hin. split; [reflexivity|]. intros Hproxied Hexplicit.
    split; [reflexivity|].
    simpl in Hin. destruct Hin as [<-|[<-|[<-|[]]]];
      [reflexivity|discriminate|discriminate].
  - rewrite Hkept. vm_compute in Hkept. injection Hkept as <-. reflexivity.
Defined.

(** X22. All or nothing at start-up: a summary that is proxied and asked
    for, but whose state contract is not in the registry, makes the whole
    lookup throw, whatever the other summaries are and wherever it stands
    among them; no partial set of markets is returned. *)
Theorem keptMarkets_missing_state
    (getSource getTarget : string -> string -> option string)
    (parseBytes32String : string -> Settled string) (marketKeys : list string)
    (network : Network) (marketSummaries : list MarketSummary)
    (summary : MarketSummary) (key : string) (logs : list SetupLog) :
  In summary marketSummaries ->
  proxied summary = true ->
  parseBytes32String (marketKey summary) = Fulfilled key ->
  explicit marketKeys key = true ->
  (forall snxNetwork,
     networkToSynthetixNetworkName network = Fulfilled snxNetwork ->
     getTarget snxNetwork (String.append "PerpsV2MarketState" (replace_leading_s key))
     = None) ->
  exists e,
    fst (keptMarkets getSource getTarget parseBytes32String marketKeys network
           marketSummaries logs)
    = Rejected e.
Proof.
  intros Hin Hproxied Hkey Hexplicit Hmissing. unfold keptMarkets.
  generalize (@nil (string * Market)) as acc. revert logs.
  induction marketSummaries as [|first rest IH]; intros logs acc; [contradiction|].
  cbn [reduce_markets]. unfold sbind at 1.
  destruct (keepMarket _ _ _ _ _ acc first logs) as [[acc'|e] logs'] eqn:Hstep.
  - destruct Hin as [->|Hin]; [|apply (IH Hin)].
    exfalso. revert Hstep.
    unfold keepMarket, sbind, ssettle. rewrite Hkey, Hproxied. simpl.
    unfold explicit in Hexplicit.
    assert (Hsel : (0 <? length marketKeys)%nat
                   && negb (existsb (String.eqb key) marketKeys) = false).
    { destruct (0 <? length marketKeys)%nat; [|reflexivity].
      simpl in *. now rewrite Hexplicit. }
    rewrite Hsel.
    unfold getSynthetixContractByName, sbind, ssettle.
    destruct (networkToSynthetixNetworkName network) as [snxNetwork|e];
      [|discriminate].
    destruct (getSource snxNetwork _); [|discriminate].
    rewrite (Hmissing snxNetwork eq_refl). discriminate.
  - exists e. reflexivity.
Qed.

Lemma keptMarkets_missing_state_witness :
  exists e,
    fst (keptMarkets registry_source (fun _ _ => None) (fun value => Fulfilled value)
           [] OPT summaries_3 [])
    = Rejected e.
Proof.
  apply (keptMarkets_missing_state registry_source (fun _ _ => None)
           (fun value => Fulfilled value) [] OPT summaries_3
           {| proxied := true; market := "0x3"; marketKey := "sLINK";
              summary_asset := "LINK" |} "sLINK" []).
  - simpl. auto.
  - reflexivity.
  - reflexivity.
  - reflexivity.
  - reflexivity.
Defined.
